(** * AnonForum: the in-memory content store and its abuse-mitigation
    middleware, embedded from [backend/models/data.js] and
    [backend/middleware/security.js], with the comment route of
    [backend/server.js] and the pure parts of the client in
    [frontend/js/app.js].

    Conventions of the embedding.
    - JavaScript numbers that hold counts and millisecond timestamps are
      integers in [Z]; array indices and capacities are [nat] or [Z] as
      the source uses them.
    - A call of [Date.now()] is an explicit argument [now]; the calls a
      filter callback makes for the elements of one array are one reading.
      [createPost] reads the clock for [timestamp] and again for
      [expiresAt]: the two readings are kept apart. [createComment]
      checks the expiry of the post and stamps the comment with one
      reading.
    - A call of [Math.random()] is an explicit rational argument, a double
      in the half-open interval from 0 to 1; its product with an integer
      is rounded to the nearest double before [Math.floor] is taken.
    - Strings are sequences of code units below 256.
    - [Map] is stdpp's [gmap], [Set] is stdpp's [gset]; arrays are lists.
    - Objects handed back to callers are kept as lists of named fields
      ([JsObj]), so that the presence of a field can be stated.
    - A request body is a parsed JSON value ([Json]); a middleware is a
      function from the request to what it does with it.
    - What the engine or the network decides is a variable of a section:
      the digest [hashIP], the texts of inherited properties, the rounded
      percentage of [getStats], the outcome of each request of the
      client. *)

From Stdlib Require Import ZArith QArith Qpower Qround Lqa Ascii String.
From Stdlib Require Import SpecFloat.
From stdpp Require Import gmap strings list fin_maps pretty sorting.

Set Warnings "-register-all".
Local Open Scope string_scope.
Local Open Scope Z_scope.

(** ** JavaScript values returned to callers *)

Inductive JsVal : Type :=
| JNum (z : Z)
| JStr (s : string)
| JArr (l : list JsVal)
| JObj (fields : list (string * JsVal)).

Abbreviation JsObj := (list (string * JsVal)).

(** [o.k]: the value of the own property [k], if any. *)
Fixpoint field (k : string) (o : JsObj) : option JsVal :=
  match o with
  | [] => None
  | (k', v) :: o' => if bool_decide (k' = k) then Some v else field k o'
  end.

(** [const { k, ...rest } = o]: every own property but [k], in order. *)
Fixpoint omit (k : string) (o : JsObj) : JsObj :=
  match o with
  | [] => []
  | (k', v) :: o' =>
      if bool_decide (k' = k) then omit k o' else (k', v) :: omit k o'
  end.

(** [{ ...o, k: v }]: an existing property keeps its place and takes the
    new value, a new property goes last. *)
Fixpoint spreadSet (k : string) (v : JsVal) (o : JsObj) : JsObj :=
  match o with
  | [] => [(k, v)]
  | (k', v') :: o' =>
      if bool_decide (k' = k) then (k, v) :: o' else (k', v') :: spreadSet k v o'
  end.

(** ** Array helpers *)

(** A relative index of [Array.prototype.slice], resolved against the
    length: negative counts from the end, and both ends are clamped. *)
Definition sliceIndex (len : nat) (i : Z) : nat :=
  if bool_decide (i < 0) then Z.to_nat (Z.max (Z.of_nat len + i) 0)
  else Z.to_nat (Z.min i (Z.of_nat len)).

(** [l.slice(start, stop)]. *)
Definition slice {A : Type} (start stop : Z) (l : list A) : list A :=
  let from := sliceIndex (length l) start in
  let to := sliceIndex (length l) stop in
  take (to - from) (drop from l).

(** [Array.prototype.sort] with a comparator: a stable sort, written as
    insertion from the right, so that an element stays in front of the
    later elements it compares equal to. *)
Fixpoint sortInsert {A : Type} (cmp : A → A → Z) (x : A) (l : list A)
  : list A :=
  match l with
  | [] => [x]
  | y :: l' =>
      if bool_decide (cmp x y ≤ 0) then x :: y :: l'
      else y :: sortInsert cmp x l'
  end.

Definition arraySort {A : Type} (cmp : A → A → Z) (l : list A) : list A :=
  foldr (sortInsert cmp) [] l.

(** [Math.ceil(a / b)] for integers [a] and [b], [b] not zero. *)
Definition ceilDiv (a b : Z) : Z := - ((- a) / b).

(** ** The data model of [DataStore] *)

Record Comment : Type := mkComment {
  c_id : string;
  c_anonId : string;
  c_content : string;
  c_timestamp : Z;
  c_ipHash : string
}.

Record Post : Type := mkPost {
  id : string;
  anonId : string;
  title : string;
  content : string;
  category : string;
  tags : list string;
  timestamp : Z;
  likes : Z;
  comments : list Comment;
  ipHash : string;
  expiresAt : Z
}.

(** [postIdCounter] and [commentIdCounter] are initialised by the
    constructor and never read again; they are left out. *)
Record DataStore : Type := mkStore {
  posts : list Post;
  likedPosts : gmap string (gset string);
  maxPosts : nat;
  maxAge : Z
}.

Definition constructor : DataStore :=
  {| posts := []; likedPosts := ∅; maxPosts := 500;
     maxAge := 7 * 24 * 60 * 60 * 1000 |}.

Definition setPosts (ps : list Post) (s : DataStore) : DataStore :=
  {| posts := ps; likedPosts := likedPosts s;
     maxPosts := maxPosts s; maxAge := maxAge s |}.

Definition setLikedPosts (m : gmap string (gset string)) (s : DataStore)
  : DataStore :=
  {| posts := posts s; likedPosts := m;
     maxPosts := maxPosts s; maxAge := maxAge s |}.

(** The object a stored comment is: the literal of [createComment]. *)
Definition commentObject (c : Comment) : JsObj :=
  [ ("id", JStr (c_id c)); ("anonId", JStr (c_anonId c));
    ("content", JStr (c_content c)); ("timestamp", JNum (c_timestamp c));
    ("ipHash", JStr (c_ipHash c)) ].

(** The object a stored post is: the literal of [createPost]. *)
Definition postObject (p : Post) : JsObj :=
  [ ("id", JStr (id p)); ("anonId", JStr (anonId p));
    ("title", JStr (title p)); ("content", JStr (content p));
    ("category", JStr (category p)); ("tags", JArr (JStr <$> tags p));
    ("timestamp", JNum (timestamp p)); ("likes", JNum (likes p));
    ("comments", JArr ((λ c, JObj (commentObject c)) <$> comments p));
    ("ipHash", JStr (ipHash p)); ("expiresAt", JNum (expiresAt p)) ].

(** ** Sanitised views *)

Definition sanitizeComment (comment : Comment) : JsObj :=
  omit "ipHash" (commentObject comment).

Definition sanitizePost (post : Post) : JsObj :=
  spreadSet "comments"
    (JArr ((λ comment, JObj (sanitizeComment comment)) <$> comments post))
    (omit "ipHash" (postObject post)).

(** ** Identifiers and aliases *)

(** What one operation draws from its environment: the clock as it is
    read for a [timestamp], the clock as [createPost] reads it once more
    for [expiresAt], the string [generateId()] returns (base-36 clock and
    random digits, opaque here), and the two [Math.random()] values of
    [generateAnonId]. *)
Record Draw : Type := mkDraw {
  dateNow : Z;
  dateNowExpiry : Z;
  freshId : string;
  randPrefix : Q;
  randNumber : Q
}.

Definition prefixes : list string :=
  [ "Anon"; "Ghost"; "Shadow"; "Phantom"; "Mystery"; "Unknown";
    "Cipher"; "Void"; "Echo"; "Raven"; "Sage"; "Nova"; "Zen" ].

(** *** Products of doubles

    [Math.random()] returns a double and [*] rounds the exact product to
    the nearest double, a tie going to the one whose last bit is 0. A
    double is a rational; the rounding is written out on rationals. *)

(** The binade of a positive rational [v]: the exponent [b] with
    [2^b <= v < 2^(b+1)]. *)
Definition binade (v : Q) : Z :=
  let c := Z.log2 (Qnum v) - Z.log2 (Zpos (Qden v)) in
  if Qle_bool (2 ^ c) v then c else c - 1.

(** The exponent of the last binary place of the doubles in the binade
    of [v]: 53 significant bits, and no place below [2^-1074]. *)
Definition lastPlace (v : Q) : Z := Z.max (binade v - 52) (-1074).

(** The multiple of the last place nearest to a positive [v]; of two
    equally near ones the even multiple. *)
Definition roundPositive (v : Q) : Q :=
  let e := lastPlace v in
  let scaled := (v * 2 ^ (- e))%Q in
  let q := Qfloor scaled in
  let up :=
    match (scaled - inject_Z q ?= 1 # 2)%Q with
    | Lt => false
    | Gt => true
    | Eq => Z.odd q
    end in
  (inject_Z (if up then q + 1 else q) * 2 ^ e)%Q.

(** The double nearest to a rational. Magnitudes above the largest
    double, which round to an infinity, do not occur here. *)
Definition roundDouble (v : Q) : Q :=
  match (v ?= 0)%Q with
  | Eq => 0%Q
  | Gt => roundPositive v
  | Lt => (- roundPositive (- v))%Q
  end.

(** The rationals that are doubles. *)
Definition isDouble (v : Q) : bool := Qeq_bool (roundDouble v) v.

(** [Math.floor(Math.random() * n)] for an integer [n] below [2^53]: the
    floor of the rounded product. *)
Definition randomBelow (r : Q) (n : Z) : Z :=
  Qfloor (roundDouble (r * inject_Z n)).

(** The numeric part of an alias:
    [Math.floor(Math.random() * 9999) + 1000]. *)
Definition anonNumber (r : Q) : Z := randomBelow r 9999 + 1000.

(** An index outside the array reads [undefined], which the template
    string prints as such. *)
Definition generateAnonId (rp rn : Q) : string :=
  let prefix :=
    default "undefined"
      (prefixes !! Z.to_nat (randomBelow rp (Z.of_nat (length prefixes)))) in
  let number := anonNumber rn in
  prefix +:+ pretty number.

(** ** [createPost] *)

(** The object literal at the head of [createPost]. *)
Definition newPost (s : DataStore) (d : Draw)
    (title content category : string) (tags : list string) (ipHash : string)
  : Post :=
  {| id := freshId d;
     anonId := generateAnonId (randPrefix d) (randNumber d);
     title := title;
     content := content;
     category := category;
     tags := slice 0 5 tags;
     timestamp := dateNow d;
     likes := 0;
     comments := [];
     ipHash := ipHash;
     expiresAt := dateNowExpiry d + maxAge s |}.

Definition createPost (s : DataStore) (d : Draw)
    (title content category : string) (tags : list string) (ipHash : string)
  : DataStore * JsObj :=
  let post := newPost s d title content category tags ipHash in
  let unshifted := post :: posts s in
  let kept :=
    if bool_decide (maxPosts s < length unshifted)%nat
    then slice 0 (Z.of_nat (maxPosts s)) unshifted
    else unshifted in
  (setPosts kept s, sanitizePost post).

(** One call of [createPost]: what is drawn and what is passed. *)
Record CreateCall : Type := mkCreateCall {
  callDraw : Draw;
  callTitle : string;
  callContent : string;
  callCategory : string;
  callTags : list string;
  callIpHash : string
}.

Definition createdPost (s : DataStore) (c : CreateCall) : Post :=
  newPost s (callDraw c) (callTitle c) (callContent c) (callCategory c)
    (callTags c) (callIpHash c).

Definition createPostCall (s : DataStore) (c : CreateCall) : DataStore :=
  fst (createPost s (callDraw c) (callTitle c) (callContent c)
         (callCategory c) (callTags c) (callIpHash c)).

(** A run of [createPost] calls, the first call first. *)
Definition createPosts (s : DataStore) (calls : list CreateCall)
  : DataStore :=
  foldl createPostCall s calls.

(** ** [getPosts] *)

Record Pagination : Type := mkPagination {
  current : Z;
  total : Z;
  hasNext : bool;
  hasPrev : bool;
  totalPosts : Z
}.

Record PostsPage : Type := mkPostsPage {
  pagePosts : list JsObj;
  pagination : Pagination
}.

(** The callback of the filter of [getPosts]; an absent or empty
    [category] is falsy and filters nothing. *)
Definition keepPost (now : Z) (category' : option string) (post : Post)
  : bool :=
  if bool_decide (expiresAt post < now) then false
  else
    match category' with
    | Some c =>
        if bool_decide (c ≠ "") && bool_decide (category post ≠ c)
        then false else true
    | None => true
    end.

Definition sortComparator (sort : string) (a b : Post) : Z :=
  if bool_decide (sort = "likes") then likes b - likes a
  else if bool_decide (sort = "comments")
  then Z.of_nat (length (comments b)) - Z.of_nat (length (comments a))
  else timestamp b - timestamp a.

(** The filtered and sorted array, before pagination. *)
Definition filteredSorted (s : DataStore) (now : Z)
    (category' : option string) (sort : string) : list Post :=
  arraySort (sortComparator sort)
    (List.filter (keepPost now category') (posts s)).

Definition getPosts (s : DataStore) (now : Z) (category' : option string)
    (page limit : Z) (sort : string) : PostsPage :=
  let filtered := filteredSorted s now category' sort in
  let total := Z.of_nat (length filtered) in
  let totalPages := ceilDiv total limit in
  let offset := (page - 1) * limit in
  let paginatedPosts := slice offset (offset + limit) filtered in
  {| pagePosts := sanitizePost <$> paginatedPosts;
     pagination :=
       {| current := page;
          total := totalPages;
          hasNext := bool_decide (page < totalPages);
          hasPrev := bool_decide (page > 1);
          totalPosts := total |} |}.

(** ** [getPost], [createComment], [getComments] *)

(** [this.posts.find(p => p.id === postId)], with the index of the hit. *)
Definition findPost (postId : string) (s : DataStore) : option (nat * Post) :=
  list_find (λ p, id p = postId) (posts s).

Definition getPost (s : DataStore) (now : Z) (postId : string)
  : option JsObj :=
  match findPost postId s with
  | None => None
  | Some (_, post) =>
      if bool_decide (expiresAt post < now) then None
      else Some (sanitizePost post)
  end.

Inductive CommentResult : Type :=
| CommentCreated (comment : JsObj)
| CommentFailed (message : string).

Definition pushComment (comment : Comment) (post : Post) : Post :=
  {| id := id post; anonId := anonId post; title := title post;
     content := content post; category := category post; tags := tags post;
     timestamp := timestamp post; likes := likes post;
     comments := comments post ++ [comment];
     ipHash := ipHash post; expiresAt := expiresAt post |}.

Definition createComment (s : DataStore) (d : Draw) (postId : string)
    (content ipHash : string) : DataStore * CommentResult :=
  match findPost postId s with
  | None => (s, CommentFailed "Post not found")
  | Some (i, post) =>
      if bool_decide (expiresAt post < dateNow d)
      then (s, CommentFailed "Post not found")
      else
        let comment :=
          {| c_id := freshId d;
             c_anonId := generateAnonId (randPrefix d) (randNumber d);
             c_content := content;
             c_timestamp := dateNow d;
             c_ipHash := ipHash |} in
        (setPosts (<[i := pushComment comment post]> (posts s)) s,
         CommentCreated (sanitizeComment comment))
  end.

Definition getComments (s : DataStore) (now : Z) (postId : string)
  : list JsObj :=
  match findPost postId s with
  | None => []
  | Some (_, post) =>
      if bool_decide (expiresAt post < now) then []
      else sanitizeComment <$> comments post
  end.

(** ** [getStats], [getTrendingTags], [cleanup] : the posts they keep *)

(** [this.posts.filter(post => post.expiresAt > now)], the first statement
    of [getStats] and of [getTrendingTags] and the assignment of
    [cleanup]. *)
Definition validPosts (s : DataStore) (now : Z) : list Post :=
  List.filter (λ post, bool_decide (expiresAt post > now)) (posts s).

(** The loop of [cleanupLikedPosts] over the entries of the ledger: the
    inner loop deletes from the set every id that is not a stored post's,
    then an emptied set loses its entry. *)
Definition cleanupEntry (validPostIds : gset string) (ipHash : string)
    (likedSet : gset string) (m : gmap string (gset string))
  : gmap string (gset string) :=
  let likedSet' := filter (λ postId, postId ∈ validPostIds) likedSet in
  if bool_decide (size likedSet' = 0%nat) then delete ipHash m
  else <[ipHash := likedSet']> m.

Definition cleanupLikedPosts (s : DataStore) : DataStore :=
  let validPostIds : gset string := list_to_set (id <$> posts s) in
  setLikedPosts
    (map_fold (cleanupEntry validPostIds) (likedPosts s) (likedPosts s)) s.

Definition cleanup (s : DataStore) (now : Z) : DataStore * Z :=
  let initialLength := Z.of_nat (length (posts s)) in
  let s1 := setPosts (validPosts s now) s in
  let s2 := cleanupLikedPosts s1 in
  let removedCount := initialLength - Z.of_nat (length (posts s2)) in
  (s2, removedCount).

(** ** Operations that hash the caller's address *)

Inductive LikeResult : Type :=
| LikeAccepted (likes' : Z)
| LikeRejected (message : string).

Definition incrementLikes (post : Post) : Post :=
  {| id := id post; anonId := anonId post; title := title post;
     content := content post; category := category post; tags := tags post;
     timestamp := timestamp post; likes := likes post + 1;
     comments := comments post;
     ipHash := ipHash post; expiresAt := expiresAt post |}.

Record RateData : Type := mkRateData {
  count : Z;
  resetTime : Z
}.

(** What a middleware does with a request: hand it on with [next()], or
    answer it with a status, an error text and, from the limiter, the
    seconds to wait. *)
Inductive Outcome : Type :=
| Next
| Respond (status : Z) (error : string) (retryAfter : option Z).

(** The first loop of the limiter: entries whose window has run out are
    deleted while the map is iterated. *)
Definition cleanOldEntry (windowMs now : Z) (ip : string) (data : RateData)
    (requests : gmap string RateData) : gmap string RateData :=
  if bool_decide (now - resetTime data > windowMs) then delete ip requests
  else requests.

Section Hashing.

(** [hashIP]: SHA-256 of the address and the salt, in hexadecimal. The
    digest is kept abstract. *)
Variable hashIP : string → string.

Definition likePost (s : DataStore) (now : Z) (postId userIP : string)
  : DataStore * LikeResult :=
  match findPost postId s with
  | None => (s, LikeRejected "Post not found")
  | Some (i, post) =>
      if bool_decide (expiresAt post < now)
      then (s, LikeRejected "Post not found")
      else
        let ipHash := hashIP userIP in
        let liked :=
          match likedPosts s !! ipHash with
          | None => <[ipHash := ∅]> (likedPosts s)
          | Some _ => likedPosts s
          end in
        let userLikes := default ∅ (liked !! ipHash) in
        if bool_decide (postId ∈ userLikes)
        then (setLikedPosts liked s, LikeRejected "Already liked")
        else
          let post' := incrementLikes post in
          (setLikedPosts (<[ipHash := {[postId]} ∪ userLikes]> liked)
             (setPosts (<[i := post']> (posts s)) s),
           LikeAccepted (likes post'))
  end.

(** The middleware [createRateLimit(windowMs, max, message)] returns;
    its private map [requests] is threaded through. *)
Definition createRateLimit (windowMs max : Z) (message : string)
    (requests : gmap string RateData) (ip : string) (now : Z)
  : gmap string RateData * Outcome :=
  let key := hashIP ip in
  let requests1 := map_fold (cleanOldEntry windowMs now) requests requests in
  match requests1 !! key with
  | None => (<[key := {| count := 1; resetTime := now |}]> requests1, Next)
  | Some data =>
      if bool_decide (now - resetTime data > windowMs)
      then (<[key := {| count := 1; resetTime := now |}]> requests1, Next)
      else if bool_decide (count data >= max)
      then (requests1,
            Respond 429 message
              (Some (ceilDiv (windowMs - (now - resetTime data)) 1000)))
      else (<[key := {| count := count data + 1;
                        resetTime := resetTime data |}]> requests1, Next)
  end.

End Hashing.

(** ** Regular expressions of the content filter

    Strings are sequences of code units below 256. The matcher is the
    backtracking one of the language: a pattern is tried at every start
    position, a quantifier tries its body again before it gives up, and a
    backreference compares with what the group last captured. Every
    pattern of the filter has one capturing group. *)

Inductive Regex : Type :=
| REmpty
| RChar (c : ascii)
| RClass (f : ascii → bool)
| RSeq (r1 r2 : Regex)
| RAlt (r1 r2 : Regex)
| RRep (lo : nat) (hi : option nat) (r : Regex)
| RGroup (r : Regex)
| RBackref
| RWordBoundary.

Record MatchState : Type := mkMatchState {
  prev : option ascii;
  rest : list ascii;
  capture : option (list ascii)
}.

Definition codeUnit (c : ascii) : Z := Z.of_N (N_of_ascii c).

(** Line terminators, which [.] refuses. *)
Definition isLineTerminator (c : ascii) : bool :=
  bool_decide (codeUnit c = 10) || bool_decide (codeUnit c = 13).

(** [\s]. *)
Definition isWhiteSpace (c : ascii) : bool :=
  bool_decide (9 ≤ codeUnit c ≤ 13) || bool_decide (codeUnit c = 32)
  || bool_decide (codeUnit c = 160).

(** [[A-Z]]. *)
Definition isUpperAZ (c : ascii) : bool := bool_decide (65 ≤ codeUnit c ≤ 90).

(** [\w]. *)
Definition isWordChar (c : ascii) : bool :=
  isUpperAZ c || bool_decide (97 ≤ codeUnit c ≤ 122)
  || bool_decide (48 ≤ codeUnit c ≤ 57) || bool_decide (codeUnit c = 95).

(** Canonicalisation under the [i] flag: the upper-case code unit. *)
Definition canonicalize (ignoreCase : bool) (c : ascii) : ascii :=
  if ignoreCase
     && (bool_decide (97 ≤ codeUnit c ≤ 122)
         || (bool_decide (224 ≤ codeUnit c ≤ 254)
             && negb (bool_decide (codeUnit c = 247))))
  then ascii_of_N (N_of_ascii c - 32)
  else c.

Definition sameChar (ignoreCase : bool) (a b : ascii) : bool :=
  bool_decide (canonicalize ignoreCase a = canonicalize ignoreCase b).

(** Consume [w] from the front of the input, or fail. *)
Fixpoint matchWord (ignoreCase : bool) (w : list ascii) (st : MatchState)
  : option MatchState :=
  match w with
  | [] => Some st
  | c :: w' =>
      match rest st with
      | x :: xs =>
          if sameChar ignoreCase x c
          then matchWord ignoreCase w'
                 {| prev := Some x; rest := xs; capture := capture st |}
          else None
      | [] => None
      end
  end.

(** A quantifier [{lo,hi}]: [lo] iterations are owed; after them a further
    iteration must consume input. The counter [fuel] starts above
    [lo + length (rest st)] and so outlasts every run. *)
Fixpoint repeatMatch (step : MatchState → (MatchState → bool) → bool)
    (fuel lo : nat) (hi : option nat) (st : MatchState)
    (k : MatchState → bool) : bool :=
  match fuel with
  | O => false
  | S fuel' =>
      match lo with
      | S lo' =>
          step st (λ st', repeatMatch step fuel' lo' (Nat.pred <$> hi) st' k)
      | O =>
          (if bool_decide (hi = Some 0%nat) then false
           else
             step st (λ st',
               bool_decide (length (rest st') < length (rest st))%nat
               && repeatMatch step fuel' 0 (Nat.pred <$> hi) st' k))
          || k st
      end
  end.

Fixpoint matchRegex (ignoreCase : bool) (r : Regex) (st : MatchState)
    (k : MatchState → bool) : bool :=
  match r with
  | REmpty => k st
  | RChar c =>
      match rest st with
      | x :: xs =>
          sameChar ignoreCase x c
          && k {| prev := Some x; rest := xs; capture := capture st |}
      | [] => false
      end
  | RClass f =>
      match rest st with
      | x :: xs =>
          f x && k {| prev := Some x; rest := xs; capture := capture st |}
      | [] => false
      end
  | RSeq r1 r2 =>
      matchRegex ignoreCase r1 st (λ st1, matchRegex ignoreCase r2 st1 k)
  | RAlt r1 r2 =>
      matchRegex ignoreCase r1 st k || matchRegex ignoreCase r2 st k
  | RRep lo hi r' =>
      repeatMatch (matchRegex ignoreCase r')
        (S (lo + length (rest st))) lo hi st k
  | RGroup r' =>
      matchRegex ignoreCase r' st (λ st',
        k {| prev := prev st'; rest := rest st';
             capture :=
               Some (take (length (rest st) - length (rest st')) (rest st)) |})
  | RBackref =>
      match capture st with
      | None => k st
      | Some w =>
          match matchWord ignoreCase w st with
          | Some st' => k st'
          | None => false
          end
      end
  | RWordBoundary =>
      let before := from_option isWordChar false (prev st) in
      let after := from_option isWordChar false (head (rest st)) in
      xorb before after && k st
  end.

(** A matcher step is local when it asks its continuation only about
    states with no more input left than the state it started from. *)
Definition localStep (step : MatchState → (MatchState → bool) → bool) : Prop :=
  ∀ st k k',
    (∀ st', (length (rest st') ≤ length (rest st))%nat → k st' = k' st') →
    step st k = step st k'.

(** [pattern.test(text)] on a pattern whose [lastIndex] is 0: is there a
    match starting anywhere. *)
Fixpoint searchFrom (ignoreCase : bool) (r : Regex) (before : option ascii)
    (input : list ascii) : bool :=
  matchRegex ignoreCase r
    {| prev := before; rest := input; capture := None |} (λ _, true)
  || match input with
     | [] => false
     | x :: xs => searchFrom ignoreCase r (Some x) xs
     end.

Record Pattern : Type := mkPattern {
  body : Regex;
  ignoreCase : bool
}.

Definition test (p : Pattern) (text : string) : bool :=
  searchFrom (ignoreCase p) (body p) None (list_ascii_of_string text).

(** A literal run of characters. *)
Fixpoint literalChars (l : list ascii) : Regex :=
  match l with
  | [] => REmpty
  | [c] => RChar c
  | c :: l' => RSeq (RChar c) (literalChars l')
  end.

Definition literal (s : string) : Regex :=
  literalChars (list_ascii_of_string s).

Fixpoint alternatives (l : list string) : Regex :=
  match l with
  | [] => REmpty
  | [s] => literal s
  | s :: l' => RAlt (literal s) (alternatives l')
  end.

Definition anyChar : Regex := RClass (λ c, negb (isLineTerminator c)).

(** [https?:\/\/[^\s]+] *)
Definition urlRegex : Regex :=
  RSeq (literal "http")
    (RSeq (RRep 0 (Some 1%nat) (RChar "s"))
       (RSeq (literal "://")
          (RRep 1 None (RClass (λ c, negb (isWhiteSpace c)))))).

Definition spamPatterns : list Pattern :=
  [ (* /(.)\1{10,}/ *)
    {| body := RSeq (RGroup anyChar) (RRep 10 None RBackref);
       ignoreCase := false |};
    (* /(https?:\/\/[^\s]+){3,}/ *)
    {| body := RRep 3 None (RGroup urlRegex); ignoreCase := false |};
    (* /[A-Z]{20,}/ *)
    {| body := RRep 20 None (RClass isUpperAZ); ignoreCase := false |};
    (* /(.{1,20})\1{3,}/ *)
    {| body := RSeq (RGroup (RRep 1 (Some 20%nat) anyChar))
                 (RRep 3 None RBackref);
       ignoreCase := false |};
    (* /(buy now|click here|urgent|limited time)/gi *)
    {| body := RGroup (alternatives
                 ["buy now"; "click here"; "urgent"; "limited time"]);
       ignoreCase := true |};
    (* /\b(viagra|casino|lottery|winner)\b/gi *)
    {| body := RSeq RWordBoundary
                 (RSeq (RGroup (alternatives
                          ["viagra"; "casino"; "lottery"; "winner"]))
                    RWordBoundary);
       ignoreCase := true |} ].

(** [checkSpam]: a missing or empty text is not spam. *)
Definition checkSpam (text : option string) : bool :=
  match text with
  | None => false
  | Some t =>
      if bool_decide (t = "") then false
      else existsb (λ pattern, test pattern t) spamPatterns
  end.

(** [contentFilter] on the [title] and [content] of the request body. *)
Definition contentFilter (title content : option string) : Outcome :=
  if checkSpam title || checkSpam content
  then Respond 400
         "Content appears to be spam or violates community guidelines" None
  else Next.

(** Following the spec's words "at least 3 URLs present": the number of
    places of a text where a URL of the filter's own shape starts. *)
Fixpoint urlStarts (before : option ascii) (input : list ascii) : nat :=
  (if matchRegex false urlRegex
        {| prev := before; rest := input; capture := None |} (λ _, true)
   then 1 else 0)%nat
  + match input with
    | [] => 0%nat
    | x :: xs => urlStarts (Some x) xs
    end.

Definition specUrlCount (text : string) : nat :=
  urlStarts None (list_ascii_of_string text).

(** ** [String.prototype.trim] *)

Fixpoint trimStart (l : list ascii) : list ascii :=
  match l with
  | [] => []
  | c :: l' => if isWhiteSpace c then trimStart l' else l
  end.

Definition trim (s : string) : string :=
  string_of_list_ascii
    (rev (trimStart (rev (trimStart (list_ascii_of_string s))))).

(** ** What a view shows *)

Definition hasField (k : string) (o : JsObj) : bool :=
  bool_decide (is_Some (field k o)).

(** The elements of the [comments] array of a view. *)
Definition commentsOf (view : JsObj) : list JsVal :=
  match field "comments" view with
  | Some (JArr cs) => cs
  | _ => []
  end.

(** Neither the view nor any of the comments nested in it has an
    [ipHash] property. *)
Definition hidesIpHash (view : JsObj) : bool :=
  negb (hasField "ipHash" view)
  && forallb (λ c, match c with
                   | JObj o => negb (hasField "ipHash" o)
                   | _ => true
                   end) (commentsOf view).

(** ** Sample inputs *)

Definition sampleDraw (n : Z) (i : string) : Draw :=
  {| dateNow := n; dateNowExpiry := n; freshId := i;
     randPrefix := 0; randNumber := 0 |}.

(** A draw in which the clock moves on by 2 ms between the reading for
    [timestamp] and the reading for [expiresAt]. *)
Definition tickingDraw : Draw :=
  {| dateNow := 100; dateNowExpiry := 102; freshId := "t";
     randPrefix := 0; randNumber := 0 |}.

Definition callA : CreateCall :=
  mkCreateCall (sampleDraw 1 "a") "Post A" "first body" "general" [] "h".
Definition callB : CreateCall :=
  mkCreateCall (sampleDraw 2 "b") "Post B" "second body" "tech" [] "h".
Definition callC : CreateCall :=
  mkCreateCall (sampleDraw 3 "c") "Post C" "third body" "random" [] "h".

Definition storeOfTwo : DataStore :=
  {| posts := []; likedPosts := ∅; maxPosts := 2;
     maxAge := maxAge constructor |}.

Definition paddedCall : CreateCall :=
  mkCreateCall (sampleDraw 0 "x") " hi " " 0123456789 " "general"
    ["t1"; "t2"; "t3"; "t4"; "t5"; "t6"] "h".

(** A post whose [expiresAt] is the instant 1000, alone in a store. *)
Definition duePost : Post :=
  {| id := "p1"; anonId := "Anon1000"; title := "Due";
     content := "expires at 1000"; category := "general"; tags := ["t"];
     timestamp := 0; likes := 0;
     comments := [mkComment "k0" "Void1000" "first" 5 "h0"]; ipHash := "h";
     expiresAt := 1000 |}.

Definition dueStore : DataStore := setPosts [duePost] constructor.

(** A stand-in digest for sample runs: it keeps distinct addresses
    distinct. *)
Definition sampleHash (ip : string) : string := "#" +:+ ip.

(** The likes of the post [findPost] reaches, if any. *)
Definition likesOf (postId : string) (s : DataStore) : option Z :=
  (λ hit, likes hit.2) <$> findPost postId s.

(** Three posts, the newest first, the middle one expiring at 500. *)
Definition postC : Post :=
  {| id := "c"; anonId := "Zen1003"; title := "Post C"; content := "third body";
     category := "tech"; tags := ["x"; "y"]; timestamp := 30; likes := 1;
     comments := [mkComment "k1" "Echo1004" "hello" 40 "h2"]; ipHash := "h1";
     expiresAt := 2000 |}.
Definition postB : Post :=
  {| id := "b"; anonId := "Nova1002"; title := "Post B";
     content := "second body"; category := "general"; tags := [];
     timestamp := 20; likes := 5; comments := []; ipHash := "h2";
     expiresAt := 500 |}.
Definition postA : Post :=
  {| id := "a"; anonId := "Sage1001"; title := "Post A"; content := "first body";
     category := "tech"; tags := ["x"]; timestamp := 10; likes := 3;
     comments := []; ipHash := "h1"; expiresAt := 1000 |}.

(** The ledger says: [#X] liked a and b, [#Y] liked b only. *)
Definition sampleStore : DataStore :=
  {| posts := [postC; postB; postA];
     likedPosts := {[ "#X" := {[ "a"; "b" ]}; "#Y" := {[ "b" ]} ]};
     maxPosts := 500; maxAge := maxAge constructor |}.

(** ** Runs of the limiter *)

(** The same address sending one request at each of the given instants:
    the map after the run and the outcomes in order. *)
Fixpoint rateRun (hashIP : string → string) (windowMs max : Z)
    (message : string) (requests : gmap string RateData) (ip : string)
    (times : list Z) : gmap string RateData * list Outcome :=
  match times with
  | [] => (requests, [])
  | now :: times' =>
      let step := createRateLimit hashIP windowMs max message requests ip now in
      let run := rateRun hashIP windowMs max message step.1 ip times' in
      (run.1, step.2 :: run.2)
  end.

(** The limiter of post creation: 3 requests in 5 minutes. *)
Definition postWindowMs : Z := 5 * 60 * 1000.
Definition postMax : Z := 3.
Definition postMessage : string := "Too many posts, please slow down.".

(** Three links, one blank between each two, and the same links with
    nothing between them. *)
Definition spacedLinks : string := "http://a.com http://b.com http://c.com".
Definition gluedLinks : string := "http://a.comhttp://b.comhttp://c.com".

(** ** Observations used in the properties of the store *)


(** ** The like ledger against the like counters *)

(** The number of identities whose set in the ledger holds [postId]. *)
Definition likers (postId : string) (m : gmap string (gset string)) : nat :=
  size (dom (filter (λ entry : string * gset string, postId ∈ entry.2) m)).

(** The ids of the stored posts are distinct and the [likes] of every
    stored post is the number of identities that have it in the ledger. *)
Definition ledgerConsistent (s : DataStore) : Prop :=
  NoDup (id <$> posts s)
  ∧ (∀ post, post ∈ posts s →
       likes post = Z.of_nat (likers (id post) (likedPosts s))).

(** An id that no stored post has and no set of the ledger holds. *)
Definition idUnused (postId : string) (s : DataStore) : Prop :=
  (postId ∉ (id <$> posts s)) ∧ likers postId (likedPosts s) = 0%nat.

(** The stores that the operations of [DataStore] build from a store
    without posts and likes, [generateId] never repeating an id. *)
Inductive Reachable (hashIP : string → string) : DataStore → Prop :=
| ReachableNew (s : DataStore) :
    posts s = [] → likedPosts s = ∅ → Reachable hashIP s
| ReachableCreatePost (s : DataStore) (d : Draw)
    (title' content' category' : string) (tags' : list string)
    (ipHash' : string) :
    Reachable hashIP s → idUnused (freshId d) s →
    Reachable hashIP
      (createPost s d title' content' category' tags' ipHash').1
| ReachableLikePost (s : DataStore) (now : Z) (postId userIP : string) :
    Reachable hashIP s →
    Reachable hashIP (likePost hashIP s now postId userIP).1
| ReachableCreateComment (s : DataStore) (d : Draw)
    (postId content' ipHash' : string) :
    Reachable hashIP s →
    Reachable hashIP (createComment s d postId content' ipHash').1
| ReachableCleanup (s : DataStore) (now : Z) :
    Reachable hashIP s → Reachable hashIP (cleanup s now).1.

(** ** Observations used in the properties of the content filter *)

(** Two runs of characters that differ at most in the case of letters. *)
Definition sameLetters (a b : list ascii) : Prop :=
  Forall2 (λ x c, sameChar true x c = true) a b.

(** The character before a position: the last of the characters read so
    far, or the one before them. *)
Definition lastRead (before : option ascii) (read : list ascii)
  : option ascii :=
  match last read with
  | Some c => Some c
  | None => before
  end.

(** ** Request bodies

    What [express.json()] hands to the middleware: a JSON value. Numbers
    matter to the code below only through being zero or not; they are kept
    as integers. [None] for a field stands for [undefined]. *)

Inductive Json : Type :=
| JsonNull
| JsonBool (b : bool)
| JsonNum (z : Z)
| JsonStr (s : string)
| JsonArr (items : list Json)
| JsonObj (fields : list (string * Json)).

(** [body.k] on the fields of an object. *)
Fixpoint jsonField (k : string) (fields : list (string * Json))
  : option Json :=
  match fields with
  | [] => None
  | (k', v) :: fields' =>
      if bool_decide (k' = k) then Some v else jsonField k fields'
  end.

(** [delete body.k]. *)
Fixpoint jsonDelete (k : string) (fields : list (string * Json))
  : list (string * Json) :=
  match fields with
  | [] => []
  | (k', v) :: fields' =>
      if bool_decide (k' = k) then jsonDelete k fields'
      else (k', v) :: jsonDelete k fields'
  end.

(** Truthiness of a value read from a body. *)
Definition jsonTruthy (v : option Json) : bool :=
  match v with
  | None | Some JsonNull => false
  | Some (JsonBool b) => b
  | Some (JsonNum z) => bool_decide (z ≠ 0)
  | Some (JsonStr s) => bool_decide (s ≠ "")
  | Some (JsonArr _) | Some (JsonObj _) => true
  end.

(** ** String methods *)

(** [String.prototype.toLowerCase] on code units below 256: the capital
    letters A to Z and the accented capitals from 192 to 222 other than
    the multiplication sign have their small letter 32 code units up. *)
Definition lowerChar (c : ascii) : ascii :=
  if bool_decide (65 ≤ codeUnit c ≤ 90)
     || (bool_decide (192 ≤ codeUnit c ≤ 222)
         && negb (bool_decide (codeUnit c = 215)))
  then ascii_of_N (N_of_ascii c + 32)
  else c.

Definition toLowerCase (s : string) : string :=
  string_of_list_ascii (lowerChar <$> list_ascii_of_string s).

(** [s.split(sep)] for a separator of one character. *)
Fixpoint splitChars (sep : ascii) (l : list ascii) : list (list ascii) :=
  match l with
  | [] => [[]]
  | c :: l' =>
      if bool_decide (c = sep) then [] :: splitChars sep l'
      else
        match splitChars sep l' with
        | first :: others => (c :: first) :: others
        | [] => [[c]]
        end
  end.

Definition split (sep : ascii) (s : string) : list string :=
  string_of_list_ascii <$> splitChars sep (list_ascii_of_string s).

(** ** [APIClient.parseTags] of the browser client

    [None] stands for an input that is not a string. *)
Definition parseTags (tagsInput : option string) : list string :=
  match tagsInput with
  | None => []
  | Some input =>
      if bool_decide (input = "") then []
      else
        slice 0 5
          (List.filter
             (λ tag, bool_decide (0 < String.length tag)%nat
                     && bool_decide (String.length tag ≤ 50)%nat)
             ((λ tag, toLowerCase (trim tag)) <$> split "," input))
  end.

(** ** [validatePostData] and [validateCommentData] *)

Inductive Validation : Type :=
| ValidationNext
| ValidationFailed (status : Z) (error : string) (details : list string).

Definition validCategories : list string :=
  [ "general"; "tech"; "crypto"; "society"; "confession"; "question";
    "random" ].

(** The title block of [validatePostData]. *)
Definition titleErrors (title : option Json) : list string :=
  match title with
  | Some (JsonStr t) =>
      if bool_decide (t = "") then ["Title is required"]
      else if bool_decide (String.length (trim t) < 3)%nat
      then ["Title must be at least 3 characters"]
      else if bool_decide (200 < String.length (trim t))%nat
      then ["Title cannot exceed 200 characters"]
      else []
  | _ => ["Title is required"]
  end.

(** The content block. *)
Definition contentErrors (content : option Json) : list string :=
  match content with
  | Some (JsonStr c) =>
      if bool_decide (c = "") then ["Content is required"]
      else if bool_decide (String.length (trim c) < 10)%nat
      then ["Content must be at least 10 characters"]
      else if bool_decide (2000 < String.length (trim c))%nat
      then ["Content cannot exceed 2000 characters"]
      else []
  | _ => ["Content is required"]
  end.

(** The category block. *)
Definition categoryErrors (category : option Json) : list string :=
  match category with
  | Some (JsonStr c) =>
      if bool_decide (c ≠ "") && bool_decide (c ∈ validCategories) then []
      else ["Valid category is required"]
  | _ => ["Valid category is required"]
  end.

(** The test of the loop over the tags. *)
Definition badTag (tag : Json) : bool :=
  match tag with
  | JsonStr t => bool_decide (50 < String.length t)%nat
  | _ => true
  end.

(** The tags block: only an array is looked at; the loop stops at the
    first bad tag. *)
Definition tagErrors (tags : option Json) : list string :=
  match tags with
  | Some (JsonArr items) =>
      (if bool_decide (5 < length items)%nat
       then ["Maximum 5 tags allowed"] else [])
      ++ (if existsb badTag items
          then ["Each tag must be a string with maximum 50 characters"]
          else [])
  | _ => []
  end.

Definition validatePostData (body : list (string * Json)) : Validation :=
  let errors :=
    (titleErrors (jsonField "title" body)
     ++ contentErrors (jsonField "content" body)
     ++ categoryErrors (jsonField "category" body)
     ++ tagErrors (jsonField "tags" body))%list in
  if bool_decide (0 < length errors)%nat
  then ValidationFailed 400 "Validation failed" errors
  else ValidationNext.

Definition validateCommentData (body : list (string * Json)) : Validation :=
  let errors :=
    match jsonField "content" body with
    | Some (JsonStr c) =>
        if bool_decide (c = "") then ["Comment content is required"]
        else if bool_decide (String.length (trim c) < 1)%nat
        then ["Comment cannot be empty"]
        else if bool_decide (1000 < String.length (trim c))%nat
        then ["Comment cannot exceed 1000 characters"]
        else []
    | _ => ["Comment content is required"]
    end in
  if bool_decide (0 < length errors)%nat
  then ValidationFailed 400 "Validation failed" errors
  else ValidationNext.

(** ** [honeypotTrap] *)

Inductive HoneypotOutcome : Type :=
| HoneypotNext (body : list (string * Json))
| HoneypotForbidden (status : Z) (error : string)
| HoneypotTypeError.

(** A truthy [honeypot] that is not a string has no [trim] to call: the
    middleware throws. *)
Definition honeypotTrap (body : list (string * Json)) : HoneypotOutcome :=
  let honeypot := jsonField "honeypot" body in
  if jsonTruthy honeypot
  then
    match honeypot with
    | Some (JsonStr h) =>
        if bool_decide (trim h ≠ "") then HoneypotForbidden 403 "Forbidden"
        else HoneypotNext (jsonDelete "honeypot" body)
    | _ => HoneypotTypeError
    end
  else HoneypotNext (jsonDelete "honeypot" body).

(** ** Observations used in the properties of the validators *)

(** [trim] on the characters of a string. *)
Definition trimChars (l : list ascii) : list ascii :=
  rev (trimStart (rev (trimStart l))).

(** A tag as [validatePostData] and the store accept it: a string of at
    most 50 characters. *)
Definition tagAccepted (tag : Json) : Prop :=
  ∃ t, tag = JsonStr t ∧ (String.length t ≤ 50)%nat.

(** ** [validateInput] *)

(** [\s+] and [\s*]. *)
Definition whiteSpaces (atLeast : nat) : Regex :=
  RRep atLeast None (RClass isWhiteSpace).

(** Two words with white space between them, as in [/union\s+select/gi]. *)
Definition twoWords (first second : string) : Pattern :=
  {| body := RSeq (literal first) (RSeq (whiteSpaces 1) (literal second));
     ignoreCase := true |}.

(** A name, white space or none, and an opening bracket, as in
    [/eval\s*\(/gi]. *)
Definition callOf (name : string) : Pattern :=
  {| body := RSeq (literal name) (RSeq (whiteSpaces 0) (RChar "("));
     ignoreCase := true |}.

(** An opening tag, as in [/<iframe/gi]. *)
Definition opening (tag : string) : Pattern :=
  {| body := literal tag; ignoreCase := true |}.

Definition suspiciousPatterns : list Pattern :=
  [ twoWords "union" "select"; twoWords "drop" "table";
    twoWords "insert" "into"; twoWords "delete" "from";
    opening "<iframe"; opening "<object"; opening "<embed";
    callOf "eval"; callOf "setTimeout"; callOf "setInterval" ].

Definition suspiciousText (text : string) : bool :=
  existsb (λ pattern, test pattern text) suspiciousPatterns.

(** [checkSuspicious]: the loop over the keys of an object or the indices
    of an array tests the strings and descends into the arrays and
    objects; any other value has nothing to loop over. *)
Fixpoint checkSuspicious (obj : Json) : bool :=
  let inspect (value : Json) : bool :=
    match value with
    | JsonStr text => suspiciousText text
    | JsonArr _ | JsonObj _ => checkSuspicious value
    | _ => false
    end in
  match obj with
  | JsonObj fields => existsb (λ entry, inspect entry.2) fields
  | JsonArr items => existsb inspect items
  | _ => false
  end.

(** [validateInput] on the body and the query of a request. *)
Definition validateInput (body query : Json) : Outcome :=
  if checkSuspicious body || checkSuspicious query
  then Respond 403 "Suspicious activity detected" None
  else Next.

(** ** Observations used in the properties of [validateInput] *)

(** A string that stands somewhere inside an object or an array, at any
    depth. *)
Inductive StringIn (text : string) : Json → Prop :=
| StringInField (fields : list (string * Json)) (k : string) :
    (k, JsonStr text) ∈ fields → StringIn text (JsonObj fields)
| StringInItem (items : list Json) :
    JsonStr text ∈ items → StringIn text (JsonArr items)
| StringBelowField (fields : list (string * Json)) (k : string) (v : Json) :
    (k, v) ∈ fields → StringIn text v → StringIn text (JsonObj fields)
| StringBelowItem (items : list Json) (v : Json) :
    v ∈ items → StringIn text v → StringIn text (JsonArr items).

(** The runs of characters the patterns of [validateInput] are made for,
    letters in any case. *)
Inductive AttackSignature : list ascii → Prop :=
| SignatureTag (run : list ascii) (tag : string) :
    tag ∈ ["<iframe"; "<object"; "<embed"] →
    sameLetters run (list_ascii_of_string tag) →
    AttackSignature run
| SignatureSql (first gap second : list ascii) (a b : string) :
    (a, b) ∈ [("union", "select"); ("drop", "table"); ("insert", "into");
              ("delete", "from")] →
    sameLetters first (list_ascii_of_string a) →
    gap ≠ [] → Forall (λ c, isWhiteSpace c = true) gap →
    sameLetters second (list_ascii_of_string b) →
    AttackSignature (first ++ gap ++ second)
| SignatureCall (name gap : list ascii) (f : string) :
    f ∈ ["eval"; "setTimeout"; "setInterval"] →
    sameLetters name (list_ascii_of_string f) →
    Forall (λ c, isWhiteSpace c = true) gap →
    AttackSignature (name ++ gap ++ ["("%char]).

(** The test the loop of [checkSuspicious] applies to one value. *)
Definition inspectValue (value : Json) : bool :=
  match value with
  | JsonStr text => suspiciousText text
  | JsonArr _ | JsonObj _ => checkSuspicious value
  | _ => false
  end.

(** ** [searchPosts] *)

(** Does [l] start with [sub]. *)
Fixpoint startsWith (sub l : list ascii) : bool :=
  match sub, l with
  | [], _ => true
  | c :: sub', x :: l' => bool_decide (x = c) && startsWith sub' l'
  | _ :: _, [] => false
  end.

Fixpoint includesChars (l sub : list ascii) : bool :=
  startsWith sub l
  || match l with
     | [] => false
     | _ :: l' => includesChars l' sub
     end.

(** [s.includes(sub)]. *)
Definition includes (s sub : string) : bool :=
  includesChars (list_ascii_of_string s) (list_ascii_of_string sub).

(** The callback of the filter of [searchPosts]. *)
Definition searchMatch (now : Z) (searchTerm : string) (post : Post) : bool :=
  if bool_decide (expiresAt post < now) then false
  else
    includes (toLowerCase (title post)) searchTerm
    || includes (toLowerCase (content post)) searchTerm
    || existsb (λ tag, includes (toLowerCase tag) searchTerm) (tags post).

Definition searchPosts (s : DataStore) (now : Z) (query : string) (limit : Z)
  : list JsObj :=
  if bool_decide (query = "")
     || bool_decide (String.length (trim query) < 2)%nat
  then []
  else
    let searchTerm := trim (toLowerCase query) in
    sanitizePost
      <$> slice 0 limit (List.filter (searchMatch now searchTerm) (posts s)).

(** ** The route [POST /api/posts/:id/comments] *)


Section Routes.

Variable hashIP : string → string.


End Routes.

(** ** [getStats] and [getCategoryStats] *)

(** A value held by the object [stats] of [getCategoryStats]: a count, or
    the text that [+ 1] makes of a property the empty object literal
    inherits. *)
Inductive Tally : Type :=
| TallyNumber (n : Z)
| TallyText (text : string).

(** The object under [memoryUsage]; its fields [posts] and [maxPosts]
    carry the prefix [usage] here. *)
Record MemoryUsage : Type := mkMemoryUsage {
  usagePosts : Z;
  usageMaxPosts : Z;
  usage : Z
}.

(** The object [getStats] returns; its field [totalPosts] is
    [statsTotalPosts] here. *)
Record Stats : Type := mkStats {
  statsTotalPosts : Z;
  totalComments : Z;
  totalLikes : Z;
  postsToday : Z;
  commentsToday : Z;
  categories : gmap string Tally;
  memoryUsage : MemoryUsage
}.

Definition setTotalLikes (n : Z) (stats : Stats) : Stats :=
  {| statsTotalPosts := statsTotalPosts stats;
     totalComments := totalComments stats; totalLikes := n;
     postsToday := postsToday stats; commentsToday := commentsToday stats;
     categories := categories stats; memoryUsage := memoryUsage stats |}.

Definition setComments (total today : Z) (stats : Stats) : Stats :=
  {| statsTotalPosts := statsTotalPosts stats;
     totalComments := total; totalLikes := totalLikes stats;
     postsToday := postsToday stats; commentsToday := today;
     categories := categories stats; memoryUsage := memoryUsage stats |}.

Definition setMemoryUsage (m : MemoryUsage) (stats : Stats) : Stats :=
  {| statsTotalPosts := statsTotalPosts stats;
     totalComments := totalComments stats; totalLikes := totalLikes stats;
     postsToday := postsToday stats; commentsToday := commentsToday stats;
     categories := categories stats; memoryUsage := m |}.

(** [24 * 60 * 60 * 1000] *)
Definition oneDay : Z := 24 * 60 * 60 * 1000.

(** [x + 1] on a value of [stats]: addition on a number, concatenation
    on a text. *)
Definition plusOne (tally : Tally) : Tally :=
  match tally with
  | TallyNumber n => TallyNumber (n + 1)
  | TallyText text => TallyText (text +:+ "1")
  end.

(** [x || 0] on what [stats[key]] reads. *)
Definition orZero (read : option Tally) : Tally :=
  match read with
  | None => TallyNumber 0
  | Some (TallyNumber 0) => TallyNumber 0
  | Some (TallyText "") => TallyNumber 0
  | Some tally => tally
  end.

Section Statistics.

(** What a key reads on the empty object literal [{}]: [None] for
    [undefined]; for a key [Object.prototype] defines, such as
    [constructor] or [toString], the text its value turns into under
    [+ 1]. The texts are the engine's and are kept abstract. *)
Variable inherited : string → option string.

(** [Math.round((a / b) * 100)] in double arithmetic, kept abstract. *)
Variable roundedPercent : Z → Z → Z.

(** [stats[key]]: the own property, else the inherited one. *)
Definition readStats (stats : gmap string Tally) (key : string)
  : option Tally :=
  match stats !! key with
  | Some tally => Some tally
  | None => TallyText <$> inherited key
  end.

(** The body of the [forEach]:
    [stats[post.category] = (stats[post.category] || 0) + 1]. Assigning a
    number or a text to [__proto__] creates no property. *)
Definition countCategory (stats : gmap string Tally) (post : Post)
  : gmap string Tally :=
  let value := plusOne (orZero (readStats stats (category post))) in
  if bool_decide (category post = "__proto__") then stats
  else <[category post := value]> stats.

(** [getCategoryStats(posts = null)]; [None] is the call without an
    argument. An array, even an empty one, is truthy and is used as it
    is. *)
Definition getCategoryStats (s : DataStore) (now : Z)
    (posts' : option (list Post)) : gmap string Tally :=
  let validPosts' :=
    match posts' with
    | Some given => given
    | None => List.filter (λ post, bool_decide (expiresAt post > now)) (posts s)
    end in
  foldl countCategory ∅ validPosts'.

Definition getStats (s : DataStore) (now : Z) : Stats :=
  let validPosts' := validPosts s now in
  let totalComments' :=
    foldl (λ sum post, sum + Z.of_nat (length (comments post))) 0
      validPosts' in
  let totalLikes' := foldl (λ sum post, sum + likes post) 0 validPosts' in
  let oneDayAgo := now - oneDay in
  let recentPosts :=
    List.filter (λ post, bool_decide (timestamp post > oneDayAgo))
      validPosts' in
  let recentComments :=
    foldl (λ count' post,
             count'
             + Z.of_nat
                 (length
                    (List.filter
                       (λ comment, bool_decide (c_timestamp comment > oneDayAgo))
                       (comments post))))
      0 validPosts' in
  {| statsTotalPosts := Z.of_nat (length validPosts');
     totalComments := totalComments';
     totalLikes := totalLikes';
     postsToday := Z.of_nat (length recentPosts);
     commentsToday := recentComments;
     categories := getCategoryStats s now (Some validPosts');
     memoryUsage :=
       {| usagePosts := Z.of_nat (length (posts s));
          usageMaxPosts := Z.of_nat (maxPosts s);
          usage :=
            roundedPercent (Z.of_nat (length (posts s)))
              (Z.of_nat (maxPosts s)) |} |}.

End Statistics.

(** A reading of [Object.prototype] for sample runs. *)
Definition sampleInherited (key : string) : option string :=
  if bool_decide (key = "constructor")
  then Some "function Object() { [native code] }"
  else if bool_decide (key = "__proto__") then Some "[object Object]"
  else None.

(** A percentage for sample runs, exact on the samples. *)
Definition samplePercent (a b : Z) : Z := (200 * a + b) / (2 * b).

(** ** The client: [getBaseURL] and [requestWithRetry] of [APIClient] *)

(** The fields of [window.location] that [getBaseURL] reads. *)
Record Location : Type := mkLocation {
  hostname : string;
  protocol : string;
  port : string
}.

Definition getBaseURL (location : Location) : string :=
  if includes (hostname location) "vercel.app"
     || includes (hostname location) "netlify.app"
     || includes (hostname location) "railway.app"
     || includes (hostname location) "render.com"
     || includes (hostname location) "heroku.com"
  then protocol location +:+ "//" +:+ hostname location
  else if bool_decide (hostname location = "localhost")
          || bool_decide (hostname location = "127.0.0.1")
  then
    let backendPort :=
      if bool_decide (port location = "3000") then "3001" else "3000" in
    protocol location +:+ "//" +:+ hostname location +:+ ":" +:+ backendPort
  else "".

(** How a call of [this.request] settles: with the parsed body, or with
    an [Error], of which only the message is read. *)
Inductive RequestOutcome : Type :=
| Resolved (data : Json)
| Rejected (message : string).

(** How [requestWithRetry] settles; [lastError] is [undefined] while no
    request has failed. *)
Inductive RetryOutcome : Type :=
| RetryReturned (data : Json)
| RetryThrown (lastError : option string).

(** The test on [error.message] that stops the retries. *)
Definition clientError (message : string) : bool :=
  includes message "400" || includes message "401"
  || includes message "403" || includes message "404".

(** [Math.min(1000 * Math.pow(2, attempt - 1), 5000)] *)
Definition retryDelay (attempt : Z) : Z :=
  Z.min (1000 * 2 ^ (attempt - 1)) 5000.

(** The [for] loop with [rounds] iterations left. [request] gives the
    outcome of the call made in each attempt; the delays waited so far
    are collected in order. *)
Fixpoint retryLoop (request : Z → RequestOutcome) (maxRetries : Z)
    (rounds : nat) (attempt : Z) (lastError : option string)
    (delays : list Z) : RetryOutcome * list Z :=
  match rounds with
  | O => (RetryThrown lastError, delays)
  | S rounds' =>
      match request attempt with
      | Resolved data => (RetryReturned data, delays)
      | Rejected message =>
          if clientError message then (RetryThrown (Some message), delays)
          else
            let delays' :=
              if bool_decide (attempt < maxRetries)
              then (delays ++ [retryDelay attempt])%list
              else delays in
            retryLoop request maxRetries rounds' (attempt + 1) (Some message)
              delays'
      end
  end.

(** [requestWithRetry(endpoint, options, maxRetries)] for an integer
    [maxRetries]: the loop runs for [attempt] from 1 to [maxRetries]. *)
Definition requestWithRetry (request : Z → RequestOutcome) (maxRetries : Z)
  : RetryOutcome * list Z :=
  retryLoop request maxRetries (Z.to_nat maxRetries) 1 None [].

(** A server that answers 503 twice and then serves. *)
Definition flakyRequest (attempt : Z) : RequestOutcome :=
  if bool_decide (attempt < 3) then Rejected "HTTP 503: Service Unavailable"
  else Resolved (JsonObj [("status", JsonStr "ok")]).

Definition localPage : Location :=
  {| hostname := "localhost"; protocol := "http:"; port := "3000" |}.

(** The rational a finite float of the Standard Library's specification
    of IEEE 754 arithmetic stands for, and the positive finite floats of
    binary64. *)
Definition specValue (x : spec_float) : option Q :=
  match x with
  | S754_zero _ => Some 0%Q
  | S754_finite sign m e =>
      Some ((if sign then -1 else 1) * inject_Z (Zpos m) * 2 ^ e)%Q
  | _ => None
  end.

Definition binary64 (m : positive) (e : Z) : spec_float :=
  S754_finite false m e.

(** Two doubles [Math.random()] can return, the first just below 5/13 and
    the second just below 75/9999: their products with 13 and with 9999
    round up to 5 and to 75. *)
Definition nearFiveThirteenths : Q := 866076851417403 # 2251799813685248.
Definition nearSeventyFive : Q := 33780375242803 # 4503599627370496.

(** * Properties *)

(** ** Arrays *)

Lemma sliceIndex_nonneg (len : nat) (i : Z) :
  0 ≤ i → sliceIndex len i = (Z.to_nat i `min` len)%nat.
Proof.
  intros Hi. unfold sliceIndex.
  rewrite bool_decide_eq_false_2 by lia. lia.
Qed.

Lemma slice_nonneg {A : Type} (start stop : Z) (l : list A) :
  0 ≤ start → 0 ≤ stop →
  slice start stop l
  = take (Z.to_nat stop - Z.to_nat start) (drop (Z.to_nat start) l).
Proof.
  intros Hs He. unfold slice. rewrite !sliceIndex_nonneg by done.
  destruct (decide (Z.to_nat start ≤ length l)%nat) as [Hle|Hgt].
  - rewrite (Nat.min_l (Z.to_nat start)) by done.
    destruct (decide (Z.to_nat stop ≤ length l)%nat).
    + by rewrite (Nat.min_l (Z.to_nat stop)).
    + rewrite (Nat.min_r (Z.to_nat stop)) by lia.
      rewrite !take_ge; [done | rewrite length_drop; lia ..].
  - rewrite (Nat.min_r (Z.to_nat start)) by lia.
    rewrite !drop_ge by lia. by rewrite !take_nil.
Qed.

Lemma slice_0 {A : Type} (n : Z) (l : list A) :
  0 ≤ n → slice 0 n l = take (Z.to_nat n) l.
Proof.
  intros Hn. rewrite slice_nonneg by lia.
  change (Z.to_nat 0) with 0%nat. by rewrite Nat.sub_0_r, drop_0.
Qed.

Lemma take_app_take {A : Type} (m : nat) (xs ys : list A) :
  take m (xs ++ take m ys) = take m (xs ++ ys).
Proof.
  rewrite !take_app, take_take. f_equal. f_equal. lia.
Qed.

(** ** Capacity of the store *)

Lemma createPost_posts s d t c cat tg h :
  posts (createPost s d t c cat tg h).1
  = take (maxPosts s) (newPost s d t c cat tg h :: posts s).
Proof.
  unfold createPost. cbn [fst setPosts posts]. case_bool_decide as Hlen.
  - rewrite slice_0 by lia. by rewrite Nat2Z.id.
  - rewrite take_ge; [done | lia].
Qed.

Lemma createPostCall_posts s c :
  posts (createPostCall s c) = take (maxPosts s) (createdPost s c :: posts s).
Proof. apply createPost_posts. Qed.

Lemma createPostCall_maxPosts s c : maxPosts (createPostCall s c) = maxPosts s.
Proof. reflexivity. Qed.

Lemma createPostCall_maxAge s c : maxAge (createPostCall s c) = maxAge s.
Proof. reflexivity. Qed.

Lemma createdPost_maxAge s s' c :
  maxAge s' = maxAge s → createdPost s' c = createdPost s c.
Proof. intros H. unfold createdPost, newPost. by rewrite H. Qed.

Lemma createPosts_maxPosts s calls :
  maxPosts (createPosts s calls) = maxPosts s.
Proof.
  revert s. induction calls as [|c calls IH]; intros s; [done|].
  cbn. unfold createPosts in IH. by rewrite IH.
Qed.

(** After a run of calls the array is the newest [maxPosts] of the
    created posts followed by the old ones. *)
Lemma createPosts_posts s calls :
  (length (posts s) ≤ maxPosts s)%nat →
  posts (createPosts s calls)
  = take (maxPosts s) (reverse (createdPost s <$> calls) ++ posts s).
Proof.
  revert s. induction calls as [|c calls IH]; intros s Hlen.
  - cbn. by rewrite take_ge.
  - change (createPosts s (c :: calls))
      with (createPosts (createPostCall s c) calls).
    rewrite IH.
    + rewrite createPostCall_maxPosts, createPostCall_posts, take_app_take.
      rewrite fmap_cons, reverse_cons, <- app_assoc. cbn [app].
      assert (Hext : createdPost (createPostCall s c) <$> calls
                     = createdPost s <$> calls).
      { apply list_fmap_ext. intros _ c' _.
        apply createdPost_maxAge, createPostCall_maxAge. }
      by rewrite Hext.
    + rewrite createPostCall_maxPosts, createPostCall_posts, length_take. lia.
Qed.

(** C2. Starting from a store within its capacity (the store the
    constructor builds has no posts), after every run of [createPost]
    calls the array holds at most [maxPosts] posts: the created posts with
    the newest in front, then the old ones, cut at [maxPosts]. Once at
    least [maxPosts] posts were created, and from the empty store always,
    it holds exactly the newest created ones, the oldest having been
    dropped, and none of the old. *)
Theorem createPosts_keeps_newest (s : DataStore) (calls : list CreateCall) :
  (length (posts s) ≤ maxPosts s)%nat →
  let created := createdPost s <$> calls in
  let stored := posts (createPosts s calls) in
  (length stored ≤ maxPosts s)%nat
  ∧ stored = take (maxPosts s) (reverse created ++ posts s)
  ∧ (posts s = [] → stored = take (maxPosts s) (reverse created))
  ∧ ((maxPosts s ≤ length calls)%nat →
       length stored = maxPosts s
       ∧ stored = take (maxPosts s) (reverse created)
       ∧ stored = reverse (drop (length calls - maxPosts s) created)).
Proof.
  intros Hcap created stored.
  assert (Hstored : stored = take (maxPosts s) (reverse created ++ posts s))
    by (by apply createPosts_posts).
  assert (Hlen : length created = length calls)
    by (unfold created; apply length_fmap).
  split_and!.
  - rewrite Hstored, length_take. lia.
  - done.
  - intros Hempty. by rewrite Hstored, Hempty, app_nil_r.
  - intros Hmore.
    assert (Hnew : stored = take (maxPosts s) (reverse created)).
    { rewrite Hstored. apply take_app_le. rewrite length_reverse. lia. }
    split_and!.
    + rewrite Hnew, length_take, length_reverse. lia.
    + done.
    + by rewrite Hnew, take_reverse, Hlen.
Qed.

(** Posts A, B, C created in this order with [maxPosts = 2] leave C, B. *)
Lemma createPosts_keeps_newest_witness :
  (length (posts storeOfTwo) ≤ maxPosts storeOfTwo)%nat
  ∧ posts (createPosts storeOfTwo [callA; callB; callC])
    = [createdPost storeOfTwo callC; createdPost storeOfTwo callB].
Proof.
  assert (Hcap : (length (posts storeOfTwo) ≤ maxPosts storeOfTwo)%nat)
    by (vm_compute; lia).
  split; [exact Hcap|].
  destruct (createPosts_keeps_newest storeOfTwo [callA; callB; callC] Hcap)
    as (_ & _ & _ & H).
  destruct H as (_ & _ & H); [vm_compute; lia|].
  rewrite H. reflexivity.
Defined.

(** ** Views *)

Lemma field_omit k o : field k (omit k o) = None.
Proof.
  induction o as [|[k' v] o IH]; [done|].
  cbn. case_bool_decide as Hk; [done|].
  cbn. by rewrite bool_decide_eq_false_2.
Qed.

Lemma field_spreadSet_eq k v o : field k (spreadSet k v o) = Some v.
Proof.
  induction o as [|[k' v'] o IH]; cbn.
  - by rewrite bool_decide_eq_true_2.
  - case_bool_decide as Hk; cbn.
    + by rewrite bool_decide_eq_true_2.
    + by rewrite bool_decide_eq_false_2.
Qed.

Lemma field_spreadSet_ne k k' v o :
  k ≠ k' → field k (spreadSet k' v o) = field k o.
Proof.
  intros Hne. induction o as [|[k'' v''] o IH]; cbn.
  - rewrite bool_decide_eq_false_2; [done | congruence].
  - case_bool_decide as Hk; cbn.
    + subst k''. by rewrite !bool_decide_eq_false_2 by congruence.
    + by rewrite IH.
Qed.

Lemma sanitizeComment_hides comment :
  hasField "ipHash" (sanitizeComment comment) = false.
Proof.
  unfold hasField, sanitizeComment. rewrite field_omit.
  apply bool_decide_eq_false_2. by intros [? ?].
Qed.

Lemma commentsOf_sanitizePost post :
  commentsOf (sanitizePost post)
  = (λ comment, JObj (sanitizeComment comment)) <$> comments post.
Proof.
  unfold commentsOf, sanitizePost. by rewrite field_spreadSet_eq.
Qed.

Lemma sanitizePost_hides post : hidesIpHash (sanitizePost post) = true.
Proof.
  unfold hidesIpHash. apply andb_true_intro. split.
  - unfold hasField, sanitizePost.
    rewrite field_spreadSet_ne by done. rewrite field_omit.
    apply negb_true_iff, bool_decide_eq_false_2. by intros [? ?].
  - rewrite commentsOf_sanitizePost.
    induction (comments post) as [|c cs IH]; [done|].
    rewrite fmap_cons. cbn [forallb]. by rewrite sanitizeComment_hides, IH.
Qed.

(** C6. No view handed back by [createPost], [getPosts], [getPost],
    [createComment] or [getComments] has an [ipHash] property, on the
    post or on a comment nested in it, whatever the store and the
    arguments. *)
Theorem views_hide_ipHash (s : DataStore) (d : Draw) (now : Z)
    (title content category : string) (tags : list string) (ipHash : string)
    (category' : option string) (page limit : Z) (sort postId : string) :
  hidesIpHash (createPost s d title content category tags ipHash).2 = true
  ∧ forallb hidesIpHash
      (pagePosts (getPosts s now category' page limit sort)) = true
  ∧ from_option hidesIpHash true (getPost s now postId) = true
  ∧ match (createComment s d postId content ipHash).2 with
    | CommentCreated view => hasField "ipHash" view = false
    | CommentFailed _ => True
    end
  ∧ forallb (λ view, negb (hasField "ipHash" view))
      (getComments s now postId) = true.
Proof.
  split_and!.
  - apply sanitizePost_hides.
  - unfold getPosts. cbn [pagePosts].
    apply forallb_forall. intros view Hin.
    apply list_elem_of_In, list_elem_of_fmap in Hin as (post & -> & _).
    apply sanitizePost_hides.
  - unfold getPost. destruct (findPost postId s) as [[i post]|]; [|done].
    case_bool_decide; [done|]. apply sanitizePost_hides.
  - unfold createComment. destruct (findPost postId s) as [[i post]|]; [|done].
    case_bool_decide; [done|]. cbn [snd]. apply sanitizeComment_hides.
  - unfold getComments. destruct (findPost postId s) as [[i post]|]; [|done].
    case_bool_decide; [done|].
    apply forallb_forall. intros view Hin.
    apply list_elem_of_In, list_elem_of_fmap in Hin as (comment & -> & _).
    by rewrite sanitizeComment_hides.
Qed.

(** ** What [createPost] keeps of its arguments *)

(** C9, as the code has it. The post [createPost] builds, stores and
    hands back carries [title] and [content] exactly as they were passed
    (the store does not trim), and its [tags] are the first five of the
    tags passed. *)
Theorem createPost_keeps_text_truncates_tags (s : DataStore) (d : Draw)
    (title' content' category' : string) (tags' : list string)
    (ipHash' : string) :
  let post := newPost s d title' content' category' tags' ipHash' in
  let view := (createPost s d title' content' category' tags' ipHash').2 in
  title post = title' ∧ content post = content'
  ∧ tags post = take 5 tags' ∧ (length (tags post) ≤ 5)%nat
  ∧ field "title" view = Some (JStr title')
  ∧ field "content" view = Some (JStr content')
  ∧ field "tags" view = Some (JArr (JStr <$> take 5 tags'))
  ∧ posts (createPost s d title' content' category' tags' ipHash').1
    = take (maxPosts s) (post :: posts s).
Proof.
  intros post view.
  assert (Htags : tags post = take 5 tags').
  { unfold post, newPost. cbn [tags]. by rewrite slice_0. }
  split_and!; try done.
  - rewrite Htags, length_take. lia.
  - unfold view, createPost. cbn [snd]. fold post.
    unfold sanitizePost. rewrite field_spreadSet_ne by done.
    by rewrite <- Htags.
  - apply createPost_posts.
Qed.

(** C9 as stated fails: a title with blanks around it comes back with
    the blanks, although [trim] would remove them. *)
Lemma createPost_trims_counterexample :
  let view :=
    (createPost constructor (callDraw paddedCall) (callTitle paddedCall)
       (callContent paddedCall) (callCategory paddedCall)
       (callTags paddedCall) (callIpHash paddedCall)).2 in
  trim (callTitle paddedCall) = "hi"
  ∧ field "title" view = Some (JStr " hi ")
  ∧ field "title" view ≠ Some (JStr (trim (callTitle paddedCall)))
  ∧ field "content" view ≠ Some (JStr (trim (callContent paddedCall))).
Proof.
  cbv zeta. split_and!; [by vm_compute | by vm_compute | |];
    vm_compute; intros H; discriminate H.
Qed.

(** ** Aliases *)

(** C10 fails on the code: [Math.random()] returning 15/16 gives the
    number 10374, which has five digits and lies outside 1000..9999. *)
Theorem generateAnonId_five_digits :
  (0 <= 15 # 16)%Q ∧ (15 # 16 < 1)%Q
  ∧ anonNumber (15 # 16) = 10374
  ∧ ¬ (1000 ≤ anonNumber (15 # 16) ≤ 9999)
  ∧ generateAnonId 0 (15 # 16) = "Anon10374".
Proof.
  split_and!; [by vm_compute | by vm_compute | by vm_compute | | by vm_compute].
  vm_compute. intros [_ H]. by apply H.
Qed.

(** ** Expiry on the read paths *)






Lemma keepPost_expiry now category' post :
  keepPost now category' post = true → now ≤ expiresAt post.
Proof.
  unfold keepPost. case_bool_decide; [done | lia].
Qed.

(** The posts [getStats], [getTrendingTags] and [cleanup] keep expire
    strictly after [now]. *)
Lemma validPosts_spec s now post :
  post ∈ validPosts s now ↔ post ∈ posts s ∧ now < expiresAt post.
Proof.
  unfold validPosts. rewrite !list_elem_of_In, filter_In.
  rewrite bool_decide_eq_true. split; intros [? ?]; split; [done|lia|done|lia].
Qed.

(** C1 fails on the code: at the instant [now = expiresAt] the post is
    listed by [getPosts], served by [getPost] and [getComments], liked and
    commented on, while [getStats], [getTrendingTags] and [cleanup] already
    treat it as expired. *)
Theorem post_read_at_its_expiry_instant :
  expiresAt duePost ≤ 1000
  ∧ pagePosts (getPosts dueStore 1000 None 1 20 "timestamp")
    = [sanitizePost duePost]
  ∧ getPost dueStore 1000 "p1" = Some (sanitizePost duePost)
  ∧ getComments dueStore 1000 "p1" = sanitizeComment <$> comments duePost
  ∧ (likePost sampleHash dueStore 1000 "p1" "10.0.0.1").2 = LikeAccepted 1
  ∧ (∃ view,
       (createComment dueStore (sampleDraw 1000 "c1") "p1" "late" "h").2
       = CommentCreated view)
  ∧ validPosts dueStore 1000 = []
  ∧ posts (cleanup dueStore 1000).1 = [].
Proof.
  split_and!; try by vm_compute.
  eexists. by vm_compute.
Qed.

(** ** Likes *)

Lemma setLikedPosts_same s : setLikedPosts (likedPosts s) s = s.
Proof. by destruct s. Qed.

Lemma findPost_setLikedPosts postId m s :
  findPost postId (setLikedPosts m s) = findPost postId s.
Proof. reflexivity. Qed.

(** Replacing the post [findPost] reaches by one with the same [id]
    leaves it the post [findPost] reaches. *)
Lemma findPost_insert postId s i p p' :
  findPost postId s = Some (i, p) → id p' = postId →
  findPost postId (setPosts (<[i := p']> (posts s)) s) = Some (i, p').
Proof.
  unfold findPost. cbn [posts setPosts].
  rewrite !list_find_Some. intros (Hi & Hp & Hfirst) Hid.
  split_and!.
  - apply list_lookup_insert_eq. by eapply lookup_lt_Some.
  - done.
  - intros j y Hj Hlt. rewrite list_lookup_insert_ne in Hj by lia.
    by eapply Hfirst.
Qed.

Section Likes.

Variable hashIP : string → string.

Lemma likePost_fresh s now postId userIP i p :
  findPost postId s = Some (i, p) → now ≤ expiresAt p →
  postId ∉ default ∅ (likedPosts s !! hashIP userIP) →
  likePost hashIP s now postId userIP
  = (setLikedPosts
       (<[hashIP userIP :=
            {[postId]} ∪ default ∅ (likedPosts s !! hashIP userIP)]>
          (likedPosts s))
       (setPosts (<[i := incrementLikes p]> (posts s)) s),
     LikeAccepted (likes p + 1)).
Proof.
  intros Hfind Hnow Hnew. unfold likePost. rewrite Hfind.
  rewrite bool_decide_eq_false_2 by lia.
  destruct (likedPosts s !! hashIP userIP) as [liked|] eqn:Hliked; cbn in Hnew.
  - rewrite Hliked. cbn [default]. by rewrite bool_decide_eq_false_2.
  - rewrite lookup_insert_eq. cbn [default].
    rewrite bool_decide_eq_false_2 by done.
    by rewrite insert_insert_eq.
Qed.

Lemma likePost_repeated s now postId userIP i p :
  findPost postId s = Some (i, p) → now ≤ expiresAt p →
  postId ∈ default ∅ (likedPosts s !! hashIP userIP) →
  likePost hashIP s now postId userIP = (s, LikeRejected "Already liked").
Proof.
  intros Hfind Hnow Hold. unfold likePost. rewrite Hfind.
  rewrite bool_decide_eq_false_2 by lia.
  destruct (likedPosts s !! hashIP userIP) as [liked|] eqn:Hliked;
    cbn in Hold; [|set_solver].
  rewrite Hliked. cbn [default]. rewrite bool_decide_eq_true_2 by done.
  by rewrite setLikedPosts_same.
Qed.

(** C3. Let [postId] reach a stored post that is not expired, and let
    the identities of [x] and [y] differ, neither having liked the post.
    The first like of [x] is accepted and raises [likes] by one; a second
    like of [x] is rejected as already liked and leaves the whole store
    as it was; a like of [y] is then accepted and raises [likes] again. *)
Theorem likePost_once_per_identity (s : DataStore) (now1 now2 now3 : Z)
    (postId x y : string) (i : nat) (p : Post) :
  findPost postId s = Some (i, p) →
  now1 < expiresAt p → now2 < expiresAt p → now3 < expiresAt p →
  postId ∉ default ∅ (likedPosts s !! hashIP x) →
  postId ∉ default ∅ (likedPosts s !! hashIP y) →
  hashIP x ≠ hashIP y →
  let first := likePost hashIP s now1 postId x in
  let second := likePost hashIP first.1 now2 postId x in
  let third := likePost hashIP second.1 now3 postId y in
  first.2 = LikeAccepted (likes p + 1)
  ∧ likesOf postId first.1 = Some (likes p + 1)
  ∧ second.2 = LikeRejected "Already liked"
  ∧ second.1 = first.1
  ∧ likesOf postId second.1 = Some (likes p + 1)
  ∧ third.2 = LikeAccepted (likes p + 2)
  ∧ likesOf postId third.1 = Some (likes p + 2).
Proof.
  intros Hfind H1 H2 H3 Hx Hy Hxy first second third.
  assert (Hid : id p = postId).
  { unfold findPost in Hfind. apply list_find_Some in Hfind. tauto. }
  assert (Hfirst : first
    = (setLikedPosts
         (<[hashIP x := {[postId]} ∪ default ∅ (likedPosts s !! hashIP x)]>
            (likedPosts s))
         (setPosts (<[i := incrementLikes p]> (posts s)) s),
       LikeAccepted (likes p + 1))).
  { unfold first. apply likePost_fresh; [done | lia | done]. }
  assert (Hfind1 : findPost postId first.1 = Some (i, incrementLikes p)).
  { rewrite Hfirst. cbn [fst].
    apply (findPost_insert postId s i p (incrementLikes p)); done. }
  assert (Hsecond : second = (first.1, LikeRejected "Already liked")).
  { unfold second.
    apply (likePost_repeated _ _ _ _ i (incrementLikes p));
      [done | cbn; lia |].
    rewrite Hfirst. cbn [fst likedPosts setLikedPosts].
    rewrite lookup_insert_eq. cbn [default]. set_solver. }
  assert (Hthird : third.2 = LikeAccepted (likes p + 2)
                   ∧ likesOf postId third.1 = Some (likes p + 2)).
  { unfold third. rewrite Hsecond. cbn [fst].
    rewrite (likePost_fresh first.1 now3 postId y i (incrementLikes p));
      [| done | cbn; lia |].
    - cbn [fst snd]. split; [cbn; f_equal; lia|].
      unfold likesOf. rewrite findPost_setLikedPosts.
      rewrite (findPost_insert postId first.1 i (incrementLikes p)
                 (incrementLikes (incrementLikes p))) by done.
      cbn. f_equal. lia.
    - rewrite Hfirst. cbn [fst likedPosts setLikedPosts].
      by rewrite lookup_insert_ne. }
  split_and!.
  - by rewrite Hfirst.
  - unfold likesOf. by rewrite Hfind1.
  - by rewrite Hsecond.
  - by rewrite Hsecond.
  - rewrite Hsecond. cbn [fst]. unfold likesOf. by rewrite Hfind1.
  - apply Hthird.
  - apply Hthird.
Qed.

End Likes.

(** The sample run: X likes the post, X likes it again, Y likes it. *)
Lemma likePost_once_per_identity_witness :
  let first := likePost sampleHash dueStore 10 "p1" "X" in
  let second := likePost sampleHash first.1 20 "p1" "X" in
  let third := likePost sampleHash second.1 30 "p1" "Y" in
  first.2 = LikeAccepted 1
  ∧ second.2 = LikeRejected "Already liked" ∧ second.1 = first.1
  ∧ third.2 = LikeAccepted 2.
Proof.
  destruct (likePost_once_per_identity sampleHash dueStore 10 20 30
              "p1" "X" "Y" 0 duePost) as (H1 & _ & H2 & H3 & _ & H4 & _);
    [reflexivity | reflexivity | reflexivity | reflexivity
    | vm_compute; set_solver | vm_compute; set_solver
    | vm_compute; discriminate |].
  cbv zeta. split_and!; [exact H1 | exact H2 | exact H3 | exact H4].
Defined.

(** ** Pagination *)

(** [ceilDiv a b] is the least integer whose product with a positive [b]
    reaches [a]. *)
Lemma ceilDiv_spec (a b : Z) :
  0 < b → (ceilDiv a b - 1) * b < a ≤ ceilDiv a b * b.
Proof.
  intros Hb. unfold ceilDiv.
  pose proof (Z.mul_div_le (- a) b Hb).
  pose proof (Z.mul_succ_div_gt (- a) b Hb).
  nia.
Qed.

Lemma concat_chunks {A B : Type} (f : A → B) (n : nat) (l : list A) (m : nat) :
  concat ((λ k, f <$> take n (drop (k * n) l)) <$> seq 0 m)
  = f <$> take (m * n) l.
Proof.
  induction m as [|m IH]; [done|].
  rewrite seq_S, fmap_app, concat_app, IH. cbn [plus fmap list_fmap concat].
  rewrite app_nil_r, <- fmap_app, take_take_drop.
  do 2 f_equal. lia.
Qed.

(** Page [k + 1] of size [limit] is the [k]-th chunk of the filtered and
    sorted posts. *)
Lemma getPosts_page s now category' sort (k : nat) (limit : Z) :
  1 ≤ limit →
  pagePosts (getPosts s now category' (Z.of_nat (S k)) limit sort)
  = sanitizePost
      <$> take (Z.to_nat limit)
            (drop (k * Z.to_nat limit) (filteredSorted s now category' sort)).
Proof.
  intros Hlimit. unfold getPosts. cbn [pagePosts].
  rewrite slice_nonneg by nia.
  do 2 f_equal; [nia | f_equal; nia].
Qed.

(** C4. For a page number of at least 1 and a page size of at least 1
    (so also for every size from 1 to 50), [getPosts] hands back at most
    [limit] posts, reports the number of matching posts, reports as number
    of pages the ceiling of that number over [limit], sets [hasNext]
    exactly when posts remain after the page and [hasPrev] exactly when
    the page is not the first, and the pages 1 to [total] laid end to end
    are the views of the filtered and sorted posts, each once and in
    order. *)
Theorem getPosts_pagination (s : DataStore) (now : Z)
    (category' : option string) (sort : string) (page limit : Z) :
  1 ≤ page → 1 ≤ limit →
  let all := filteredSorted s now category' sort in
  let result := getPosts s now category' page limit sort in
  let pages := total (pagination result) in
  Z.of_nat (length (pagePosts result)) ≤ limit
  ∧ totalPosts (pagination result) = Z.of_nat (length all)
  ∧ pages = ceilDiv (Z.of_nat (length all)) limit
  ∧ (pages - 1) * limit < Z.of_nat (length all) ≤ pages * limit
  ∧ hasNext (pagination result) = bool_decide (page < pages)
  ∧ (hasNext (pagination result) = true
     ↔ page * limit < Z.of_nat (length all))
  ∧ (hasPrev (pagination result) = true ↔ 1 < page)
  ∧ current (pagination result) = page
  ∧ concat ((λ n : nat,
               pagePosts (getPosts s now category' (Z.of_nat n) limit sort))
              <$> seq 1 (Z.to_nat pages))
    = sanitizePost <$> all.
Proof.
  intros Hpage Hlimit all result pages.
  assert (Hpages : pages = ceilDiv (Z.of_nat (length all)) limit) by done.
  pose proof (ceilDiv_spec (Z.of_nat (length all)) limit ltac:(lia)) as Hceil.
  rewrite <- Hpages in Hceil.
  split_and!; try done; try (clear - Hceil; lia).
  - unfold result.
    replace page with (Z.of_nat (S (Z.to_nat (page - 1)))) by lia.
    rewrite getPosts_page by done.
    rewrite length_fmap, length_take. lia.
  - unfold result, getPosts. cbn [pagination hasNext]. fold all. fold pages.
    rewrite bool_decide_eq_true. nia.
  - unfold result, getPosts. cbn [pagination hasPrev].
    rewrite bool_decide_eq_true. lia.
  - rewrite <- fmap_S_seq, <- list_fmap_compose.
    erewrite list_fmap_ext; last first.
    { intros _ k _. cbn [compose]. by apply getPosts_page. }
    fold all. rewrite concat_chunks. f_equal.
    apply take_ge. nia.
Qed.

(** A concrete run: three posts by likes, two to a page. *)
Lemma getPosts_pagination_witness :
  1 ≤ 2 ∧ 1 ≤ 2
  ∧ total (pagination (getPosts sampleStore 5 None 2 2 "likes")) = 2
  ∧ concat ((λ n : nat,
               pagePosts (getPosts sampleStore 5 None (Z.of_nat n) 2 "likes"))
              <$> seq 1 2)
    = sanitizePost <$> [postB; postA; postC].
Proof.
  split; [lia|]. split; [lia|].
  destruct (getPosts_pagination sampleStore 5 None "likes" 2 2)
    as (_ & _ & Hpages & _ & _ & _ & _ & _ & Hconcat); [lia | lia |].
  split; [rewrite Hpages; reflexivity|].
  exact Hconcat.
Defined.

(** ** Cleanup *)

Lemma filter_length_split {A : Type} (f : A → bool) (l : list A) :
  (length (List.filter f l) + length (List.filter (λ x, negb (f x)) l)
   = length l)%nat.
Proof.
  induction l as [|x l IH]; [done|].
  cbn. destruct (f x); cbn; lia.
Qed.

(** What the loop of [cleanupLikedPosts] leaves under a key: for a key of
    the iterated map the pruned set, unless that is empty; for any other
    key whatever the updated map had. *)
Lemma map_fold_cleanupEntry (valid : gset string)
    (m0 m : gmap string (gset string)) (k : string) :
  map_fold (cleanupEntry valid) m0 m !! k
  = match m !! k with
    | Some likedSet =>
        let likedSet' := filter (λ postId, postId ∈ valid) likedSet in
        if bool_decide (size likedSet' = 0%nat) then None else Some likedSet'
    | None => m0 !! k
    end.
Proof.
  revert k.
  apply (map_fold_weak_ind
           (λ r (m : gmap string (gset string)), ∀ k,
              r !! k
              = match m !! k with
                | Some likedSet =>
                    let likedSet' :=
                      filter (λ postId, postId ∈ valid) likedSet in
                    if bool_decide (size likedSet' = 0%nat) then None
                    else Some likedSet'
                | None => m0 !! k
                end)).
  - intros k. by rewrite lookup_empty.
  - intros i x m' r Hfresh IH k. unfold cleanupEntry.
    destruct (decide (i = k)) as [->|Hne].
    + rewrite lookup_insert_eq. cbv zeta.
      case_bool_decide.
      * by rewrite lookup_delete_eq.
      * by rewrite lookup_insert_eq.
    + rewrite (lookup_insert_ne m') by done. rewrite <- IH.
      case_bool_decide.
      * by rewrite lookup_delete_ne.
      * by rewrite lookup_insert_ne.
Qed.

(** C5. [cleanup] keeps, in their order, exactly the posts whose
    [expiresAt] is not at or before [now], removes all the others and
    hands back how many those are; afterwards every set of the like ledger
    is non-empty and holds only ids of posts still stored. *)
Theorem cleanup_removes_expired (s : DataStore) (now : Z) :
  let s' := (cleanup s now).1 in
  let removedCount := (cleanup s now).2 in
  posts s'
  = List.filter (λ post, negb (bool_decide (expiresAt post ≤ now))) (posts s)
  ∧ (∀ post, post ∈ posts s' ↔ post ∈ posts s ∧ ¬ expiresAt post ≤ now)
  ∧ removedCount
    = Z.of_nat (length (List.filter
                          (λ post, bool_decide (expiresAt post ≤ now))
                          (posts s)))
  ∧ (∀ ipHash' likedSet,
       likedPosts s' !! ipHash' = Some likedSet →
       likedSet ≠ ∅
       ∧ ∀ postId, postId ∈ likedSet →
           ∃ post, post ∈ posts s' ∧ id post = postId).
Proof.
  intros s' removedCount.
  assert (Hkept : posts s' = validPosts s now) by reflexivity.
  assert (Hposts : posts s'
    = List.filter (λ post, negb (bool_decide (expiresAt post ≤ now)))
        (posts s)).
  { unfold s', cleanup, cleanupLikedPosts, validPosts.
    cbn [fst posts setLikedPosts setPosts].
    apply filter_ext. intros post.
    destruct (decide (expiresAt post ≤ now)).
    - rewrite bool_decide_eq_false_2 by lia.
      by rewrite bool_decide_eq_true_2.
    - rewrite bool_decide_eq_true_2 by lia.
      by rewrite bool_decide_eq_false_2. }
  split_and!.
  - done.
  - intros post. rewrite Hposts, !list_elem_of_In, filter_In.
    by rewrite negb_true_iff, bool_decide_eq_false.
  - change removedCount
      with (Z.of_nat (length (posts s)) - Z.of_nat (length (posts s'))).
    rewrite Hposts.
    pose proof (filter_length_split
                  (λ post, bool_decide (expiresAt post ≤ now)) (posts s)).
    lia.
  - intros ipHash' likedSet.
    unfold s' at 1, cleanup, cleanupLikedPosts.
    cbn [fst likedPosts setLikedPosts setPosts].
    rewrite map_fold_cleanupEntry.
    destruct (likedPosts s !! ipHash') as [old|]; [|done].
    cbv zeta. case_bool_decide as Hsize; [done|].
    cbn [posts setPosts] in Hsize.
    intros [= <-]. split.
    + intros Hempty. apply Hsize. rewrite Hempty. apply size_empty.
    + intros postId Hin.
      apply elem_of_filter in Hin as [Hvalid _].
      apply elem_of_list_to_set, list_elem_of_fmap in Hvalid
        as (post & -> & Hpost).
      exists post. split; [|done].
      rewrite Hkept. exact Hpost.
Qed.

Example cleanup_sample :
  posts (cleanup sampleStore 500).1 = [postC; postA]
  ∧ (cleanup sampleStore 500).2 = 1
  ∧ likedPosts (cleanup sampleStore 500).1 = {[ "#X" := {[ "a" ]} ]}.
Proof. by vm_compute. Qed.

(** ** The rate limiter *)

(** What the cleaning loop leaves under a key: nothing where the iterated
    map had an entry whose window has run out, else what the updated map
    had. *)
Lemma map_fold_cleanOldEntry (windowMs now : Z)
    (m0 m : gmap string RateData) (k : string) :
  map_fold (cleanOldEntry windowMs now) m0 m !! k
  = match m !! k with
    | Some data =>
        if bool_decide (now - resetTime data > windowMs) then None
        else m0 !! k
    | None => m0 !! k
    end.
Proof.
  revert k.
  apply (map_fold_weak_ind
           (λ r (m : gmap string RateData), ∀ k,
              r !! k
              = match m !! k with
                | Some data =>
                    if bool_decide (now - resetTime data > windowMs) then None
                    else m0 !! k
                | None => m0 !! k
                end)).
  - intros k. by rewrite lookup_empty.
  - intros i x m' r Hfresh IH k. unfold cleanOldEntry.
    destruct (decide (i = k)) as [->|Hne].
    + rewrite lookup_insert_eq. specialize (IH k). rewrite Hfresh in IH.
      case_bool_decide; [by rewrite lookup_delete_eq | done].
    + rewrite (lookup_insert_ne m') by done. rewrite <- IH.
      case_bool_decide; [by rewrite lookup_delete_ne | done].
Qed.

Lemma ceilDiv_pos (a b : Z) : 0 < b → 0 < a → 0 < ceilDiv a b.
Proof.
  intros Hb Ha. pose proof (ceilDiv_spec a b Hb). nia.
Qed.

Section RateLimit.

Variable hashIP : string → string.
Variables windowMs max : Z.
Variable message : string.

(** The cleaning loop drops the entry of an address whose window has
    run out and keeps the entry of a live window. *)
Lemma cleaned_lookup (requests : gmap string RateData) now key :
  map_fold (cleanOldEntry windowMs now) requests requests !! key
  = match requests !! key with
    | Some data =>
        if bool_decide (now - resetTime data > windowMs) then None
        else Some data
    | None => None
    end.
Proof.
  rewrite map_fold_cleanOldEntry.
  destruct (requests !! key) as [data|]; [|done].
  by case_bool_decide.
Qed.

(** No live window for the address: the request passes and opens a
    window of its own with the counter at 1. *)
Lemma createRateLimit_opens requests ip now :
  match requests !! hashIP ip with
  | None => True
  | Some data => now - resetTime data > windowMs
  end →
  (createRateLimit hashIP windowMs max message requests ip now).2 = Next
  ∧ (createRateLimit hashIP windowMs max message requests ip now).1
      !! hashIP ip
    = Some {| count := 1; resetTime := now |}.
Proof.
  intros Hstale. unfold createRateLimit. cbv zeta.
  rewrite cleaned_lookup.
  destruct (requests !! hashIP ip) as [data|].
  - rewrite bool_decide_eq_true_2 by done. cbn [fst snd].
    by rewrite lookup_insert_eq.
  - cbn [fst snd]. by rewrite lookup_insert_eq.
Qed.

(** A live window below the cap: the request passes and is counted. *)
Lemma createRateLimit_counts requests ip now data :
  requests !! hashIP ip = Some data →
  now - resetTime data ≤ windowMs → count data < max →
  (createRateLimit hashIP windowMs max message requests ip now).2 = Next
  ∧ (createRateLimit hashIP windowMs max message requests ip now).1
      !! hashIP ip
    = Some {| count := count data + 1; resetTime := resetTime data |}.
Proof.
  intros Hdata Hlive Hbelow. unfold createRateLimit. cbv zeta.
  rewrite cleaned_lookup, Hdata.
  repeat (case_bool_decide; try lia).
  cbn [fst snd]. by rewrite lookup_insert_eq.
Qed.

(** A live window at the cap: the request is answered 429 with the
    seconds left of the window, rounded up, and is not counted. *)
Lemma createRateLimit_rejects requests ip now data :
  requests !! hashIP ip = Some data →
  now - resetTime data ≤ windowMs → max ≤ count data →
  (createRateLimit hashIP windowMs max message requests ip now).2
  = Respond 429 message
      (Some (ceilDiv (windowMs - (now - resetTime data)) 1000))
  ∧ (createRateLimit hashIP windowMs max message requests ip now).1
      !! hashIP ip
    = Some data.
Proof.
  intros Hdata Hlive Hcap. unfold createRateLimit. cbv zeta.
  rewrite cleaned_lookup, Hdata.
  repeat (case_bool_decide; try lia).
  cbn [fst snd]. rewrite cleaned_lookup, Hdata.
  by rewrite bool_decide_eq_false_2 by lia.
Qed.

End RateLimit.

(** C7, amended. The limiter keeps one fixed window per hashed address. A
    request that finds no entry, or an entry whose window started more
    than [windowMs] ago, passes and starts a window at [now] with the
    counter at 1. A window lasts up to and including the instant
    [windowMs] after its start. Within it a request below the cap passes
    and is counted; a request at the cap is answered 429 with the seconds
    left until the window ends, rounded up: never a negative number,
    positive while the window has time left and 0 at its last instant.
    With 3 posts per 5 minutes, four requests of one address inside a
    window give three passes and then a rejection, whose number of seconds
    is positive exactly when the fourth request comes before the last
    instant of the window. *)
Theorem createRateLimit_fixed_window (hashIP : string → string)
    (windowMs max : Z) (message : string) (requests : gmap string RateData)
    (ip : string) (now : Z) :
  let key := hashIP ip in
  let result := createRateLimit hashIP windowMs max message requests ip now in
  match requests !! key with
  | None =>
      result.2 = Next
      ∧ result.1 !! key = Some {| count := 1; resetTime := now |}
  | Some data =>
      if bool_decide (windowMs < now - resetTime data)
      then result.2 = Next
           ∧ result.1 !! key = Some {| count := 1; resetTime := now |}
      else if bool_decide (count data < max)
      then result.2 = Next
           ∧ result.1 !! key
             = Some {| count := count data + 1; resetTime := resetTime data |}
      else ∃ seconds,
             result.2 = Respond 429 message (Some seconds)
             ∧ result.1 !! key = Some data
             ∧ (seconds - 1) * 1000
               < windowMs - (now - resetTime data) ≤ seconds * 1000
             ∧ 0 ≤ seconds
             ∧ (0 < seconds ↔ now - resetTime data < windowMs)
  end
  ∧ ∀ t1 t2 t3 t4 : Z,
      match requests !! key with
      | None => True
      | Some data => postWindowMs < t1 - resetTime data
      end →
      t1 ≤ t2 → t2 ≤ t3 → t3 ≤ t4 → t4 ≤ t1 + postWindowMs →
      ∃ seconds,
        (rateRun hashIP postWindowMs postMax postMessage requests ip
           [t1; t2; t3; t4]).2
        = [Next; Next; Next; Respond 429 postMessage (Some seconds)]
        ∧ 0 ≤ seconds
        ∧ (0 < seconds ↔ t4 < t1 + postWindowMs).
Proof.
  intros key result. split.
  - destruct (requests !! key) as [data|] eqn:Hdata.
    + case_bool_decide as Hstale.
      { apply createRateLimit_opens. fold key. rewrite Hdata. lia. }
      case_bool_decide as Hbelow.
      { apply createRateLimit_counts; [done | lia | done]. }
      destruct (createRateLimit_rejects hashIP windowMs max message
                  requests ip now data Hdata) as [Hout Hkeep]; [lia | lia |].
      exists (ceilDiv (windowMs - (now - resetTime data)) 1000).
      pose proof (ceilDiv_spec (windowMs - (now - resetTime data)) 1000
                    ltac:(lia)).
      split_and!; [done | done | lia | lia | lia |].
      split; [lia|]. intros Hleft. apply ceilDiv_pos; lia.
    + apply createRateLimit_opens. fold key. by rewrite Hdata.
  - intros t1 t2 t3 t4 Hfresh H12 H23 H34 H41.
    cbn [rateRun fst snd].
    set (r1 := createRateLimit hashIP postWindowMs postMax postMessage
                 requests ip t1).
    set (r2 := createRateLimit hashIP postWindowMs postMax postMessage
                 r1.1 ip t2).
    set (r3 := createRateLimit hashIP postWindowMs postMax postMessage
                 r2.1 ip t3).
    set (r4 := createRateLimit hashIP postWindowMs postMax postMessage
                 r3.1 ip t4).
    destruct (createRateLimit_opens hashIP postWindowMs postMax postMessage
                requests ip t1) as [Ho1 Hl1].
    { fold key. destruct (requests !! key); [lia | done]. }
    destruct (createRateLimit_counts hashIP postWindowMs postMax postMessage
                r1.1 ip t2 _ Hl1) as [Ho2 Hl2];
      [cbn; lia | by cbn |].
    destruct (createRateLimit_counts hashIP postWindowMs postMax postMessage
                r2.1 ip t3 _ Hl2) as [Ho3 Hl3];
      [cbn; lia | by cbn |].
    destruct (createRateLimit_rejects hashIP postWindowMs postMax postMessage
                r3.1 ip t4 _ Hl3) as [Ho4 _];
      [cbn; lia | by cbn |].
    fold r1 in Ho1. fold r2 in Ho2. fold r3 in Ho3. fold r4 in Ho4.
    rewrite Ho1, Ho2, Ho3, Ho4. cbn [count resetTime].
    eexists. split; [reflexivity|].
    pose proof (ceilDiv_spec (postWindowMs - (t4 - t1)) 1000 ltac:(lia)).
    split; [lia|]. split; [lia|].
    intros Hleft. apply ceilDiv_pos; lia.
Qed.

(** A run of the post limiter on an empty map: requests at 0, 1, 2 and 3
    seconds. *)
Lemma createRateLimit_fixed_window_witness :
  ∃ seconds,
    (rateRun sampleHash postWindowMs postMax postMessage ∅ "10.0.0.1"
       [0; 1000; 2000; 3000]).2
    = [Next; Next; Next; Respond 429 postMessage (Some seconds)]
    ∧ 0 ≤ seconds
    ∧ (0 < seconds ↔ 3000 < 0 + postWindowMs).
Proof.
  destruct (createRateLimit_fixed_window sampleHash postWindowMs postMax
              postMessage ∅ "10.0.0.1" 0) as [_ Hrun].
  apply (Hrun 0 1000 2000 3000); [exact I | lia | lia | lia | by vm_compute].
Defined.

(** C7 as stated fails: the fourth request of a window, arriving exactly
    five minutes after the first, is still inside the window for the
    limiter and is rejected, but the seconds it carries are 0, not a
    positive number. *)
Lemma createRateLimit_fixed_window_counterexample :
  let outcomes :=
    (rateRun sampleHash postWindowMs postMax postMessage ∅ "10.0.0.1"
       [0; 1000; 2000; 300000]).2 in
  postWindowMs = 5 * 60 * 1000 ∧ postMax = 3
  ∧ 300000 ≤ 0 + postWindowMs
  ∧ outcomes = [Next; Next; Next; Respond 429 postMessage (Some 0)]
  ∧ ¬ ∃ seconds,
        outcomes = [Next; Next; Next; Respond 429 postMessage (Some seconds)]
        ∧ 0 < seconds.
Proof.
  cbv zeta. split_and!; [done | done | by vm_compute | by vm_compute |].
  intros (seconds & Hrun & Hpos). vm_compute in Hrun.
  injection Hrun as <-. lia.
Qed.

(** At the last millisecond of the window the rejection carries 0
    seconds; one millisecond later the request opens a new window. *)
Example createRateLimit_window_end :
  (rateRun sampleHash postWindowMs postMax postMessage ∅ "10.0.0.1"
     [0; 1; 2; 300000; 300001]).2
  = [Next; Next; Next; Respond 429 postMessage (Some 0); Next].
Proof. by vm_compute. Qed.

(** ** The matcher does not depend on its counter *)

Lemma matchWord_length ic w st st' :
  matchWord ic w st = Some st' → (length (rest st') ≤ length (rest st))%nat.
Proof.
  revert st. induction w as [|c w IH]; intros st; cbn.
  - by intros [= ->].
  - destruct (rest st) as [|x xs] eqn:Hrest; [done|].
    destruct (sameChar ic x c); [|done].
    intros Hw. apply IH in Hw. cbn in Hw. cbn [length]. lia.
Qed.

Lemma repeatMatch_free step fuel hi st k :
  repeatMatch step (S fuel) 0 hi st k
  = (if bool_decide (hi = Some 0%nat) then false
     else
       step st (λ st',
         bool_decide (length (rest st') < length (rest st))%nat
         && repeatMatch step fuel 0 (Nat.pred <$> hi) st' k))
    || k st.
Proof. reflexivity. Qed.

Lemma repeatMatch_owed step fuel lo hi st k :
  repeatMatch step (S fuel) (S lo) hi st k
  = step st (λ st', repeatMatch step fuel lo (Nat.pred <$> hi) st' k).
Proof. reflexivity. Qed.

Lemma repeatMatch_local step fuel lo hi :
  localStep step → localStep (repeatMatch step fuel lo hi).
Proof.
  intros Hstep. revert lo hi.
  induction fuel as [|fuel IH]; intros lo hi st k k' Hk; [done|].
  destruct lo as [|lo].
  - rewrite !repeatMatch_free. f_equal; [|apply Hk; lia].
    case_bool_decide; [done|].
    apply Hstep. intros st' Hst'. f_equal.
    apply IH. intros st'' Hst''. apply Hk. lia.
  - rewrite !repeatMatch_owed. apply Hstep. intros st' Hst'.
    apply IH. intros st'' Hst''. apply Hk. lia.
Qed.

Lemma matchRegex_local ic r : localStep (matchRegex ic r).
Proof.
  induction r as [|c|f|r1 IH1 r2 IH2|r1 IH1 r2 IH2|lo hi r IH|r IH| |];
    intros st k k' Hk; cbn [matchRegex].
  - apply Hk. lia.
  - destruct (rest st) as [|x xs] eqn:Hrest; [done|].
    f_equal. apply Hk. cbn. lia.
  - destruct (rest st) as [|x xs] eqn:Hrest; [done|].
    f_equal. apply Hk. cbn. lia.
  - apply IH1. intros st1 Hst1. apply IH2. intros st2 Hst2. apply Hk. lia.
  - f_equal; [by apply IH1 | by apply IH2].
  - by apply repeatMatch_local.
  - apply IH. intros st' Hst'. apply Hk. cbn. lia.
  - destruct (capture st) as [w|]; [|apply Hk; lia].
    destruct (matchWord ic w st) as [st'|] eqn:Hw; [|done].
    apply Hk. by eapply matchWord_length.
  - f_equal. apply Hk. lia.
Qed.

(** Any counter above [lo + length (rest st)] gives the same answer: the
    counter [matchRegex] starts a quantifier with is never used up. *)
Lemma repeatMatch_fuel step fuel fuel' lo hi st k :
  localStep step →
  (lo + length (rest st) < fuel)%nat → (lo + length (rest st) < fuel')%nat →
  repeatMatch step fuel lo hi st k = repeatMatch step fuel' lo hi st k.
Proof.
  intros Hstep. revert fuel' lo hi st k.
  induction fuel as [|fuel IH]; intros fuel' lo hi st k Hf Hf'; [lia|].
  destruct fuel' as [|fuel']; [lia|].
  destruct lo as [|lo].
  - rewrite !repeatMatch_free. f_equal. case_bool_decide; [done|].
    apply Hstep. intros st' Hst'.
    case_bool_decide; [|done]. cbn [andb]. apply IH; lia.
  - rewrite !repeatMatch_owed. apply Hstep. intros st' Hst'. apply IH; lia.
Qed.

(** The unfolding of a quantifier with no upper bound, as the language
    defines it: once nothing is owed, either one more iteration that
    consumes input and then the quantifier again, or the rest of the
    pattern. *)
Lemma matchRegex_star ic r st k :
  matchRegex ic (RRep 0 None r) st k
  = matchRegex ic r st (λ st',
      bool_decide (length (rest st') < length (rest st))%nat
      && matchRegex ic (RRep 0 None r) st' k)
    || k st.
Proof.
  cbn [matchRegex]. rewrite repeatMatch_free.
  rewrite bool_decide_eq_false_2 by done.
  f_equal. apply matchRegex_local. intros st' Hst'.
  case_bool_decide; [|done]. cbn [andb].
  apply repeatMatch_fuel; [apply matchRegex_local | cbn; lia | cbn; lia].
Qed.

(** An owed iteration is the body followed by the quantifier with one
    iteration less owed. *)
Lemma matchRegex_owed ic r lo st k :
  matchRegex ic (RRep (S lo) None r) st k
  = matchRegex ic r st (λ st', matchRegex ic (RRep lo None r) st' k).
Proof.
  cbn [matchRegex]. rewrite repeatMatch_owed.
  apply matchRegex_local. intros st' Hst'.
  apply repeatMatch_fuel; [apply matchRegex_local | cbn; lia | cbn; lia].
Qed.

(** ** The content filter *)

Example checkSpam_samples :
  checkSpam <$> (Some
    <$> [ "aaaaaaaaaaa"; gluedLinks; "ABCDEFGHIJKLMNOPQRST"; "abcabcabcabc";
          "Click HERE please"; "a Winner!"; "the winners";
          "ABCDEFGHIJKLMNOPQRS"; "abcabcabc"; "" ])
  = [ true; true; true; true; true; true; false; false; false; false ].
Proof. by vm_compute. Qed.

(** C8 fails on the code: a text with three URLs that are separated by
    blanks passes [contentFilter], because the pattern for several URLs
    only matches URLs that follow each other with nothing in between. *)
Theorem contentFilter_passes_spaced_urls :
  specUrlCount spacedLinks = 3%nat
  ∧ checkSpam (Some spacedLinks) = false
  ∧ contentFilter (Some "Useful links") (Some spacedLinks) = Next
  ∧ specUrlCount gluedLinks = 3%nat
  ∧ contentFilter (Some "Useful links") (Some gluedLinks)
    = Respond 400
        "Content appears to be spam or violates community guidelines" None.
Proof. by vm_compute. Qed.

(** * Further properties of the store *)

(** ** A created post and its comments can be read back *)

Lemma store_eq (s1 s2 : DataStore) :
  posts s1 = posts s2 → likedPosts s1 = likedPosts s2 →
  maxPosts s1 = maxPosts s2 → maxAge s1 = maxAge s2 → s1 = s2.
Proof. destruct s1, s2. cbn. by intros -> -> -> ->. Qed.

Lemma list_find_cons {A : Type} (P : A → Prop) `{!∀ x, Decision (P x)}
    (x : A) (l : list A) :
  list_find P (x :: l)
  = if decide (P x) then Some (0%nat, x)
    else prod_map S Datatypes.id <$> list_find P l.
Proof. reflexivity. Qed.

(** Replacing an element that fails the test by another that fails it
    does not change what [find] finds. *)
Lemma list_find_insert_failing {A : Type} (P : A → Prop)
    `{!∀ x, Decision (P x)} (l : list A) (i : nat) (x y : A) :
  l !! i = Some x → ¬ P x → ¬ P y →
  list_find P (<[i := y]> l) = list_find P l.
Proof.
  revert i. induction l as [|a l IH]; intros i Hi Hx Hy; [done|].
  destruct i as [|i]; cbn [lookup list_lookup] in Hi;
    cbn [insert list_insert]; rewrite !list_find_cons.
  - injection Hi as ->. by rewrite !decide_False.
  - destruct (decide (P a)); [done|]. f_equal. by apply IH.
Qed.

Lemma findPost_insert_other postId other s i p p' :
  findPost postId s = Some (i, p) → id p' = postId → other ≠ postId →
  findPost other (setPosts (<[i := p']> (posts s)) s) = findPost other s.
Proof.
  unfold findPost. cbn [posts setPosts].
  rewrite list_find_Some. intros (Hi & Hp & _) Hp' Hother.
  apply (list_find_insert_failing _ _ _ p); [done | |]; congruence.
Qed.

(** The post [createPost] has just stored is the one [getPost] serves
    under its id, up to and including the instant it expires at and not
    after it. That instant is [maxAge] after the reading of the clock that
    [createPost] takes for [expiresAt], which is not the reading it takes
    for [timestamp]: the two may differ. If the clock has not gone back
    between the two readings, the post is served at least until [maxAge]
    after its [timestamp]. *)
Theorem createPost_then_getPost (s : DataStore) (d : Draw)
    (title' content' category' : string) (tags' : list string)
    (ipHash' : string) (now' : Z) :
  (1 ≤ maxPosts s)%nat →
  let created := createPost s d title' content' category' tags' ipHash' in
  getPost created.1 now' (freshId d)
  = (if bool_decide (dateNowExpiry d + maxAge s < now') then None
     else Some created.2)
  ∧ (dateNow d ≤ dateNowExpiry d → now' ≤ dateNow d + maxAge s →
     getPost created.1 now' (freshId d) = Some created.2)
  ∧ field "timestamp" created.2 = Some (JNum (dateNow d))
  ∧ field "expiresAt" created.2 = Some (JNum (dateNowExpiry d + maxAge s))
  ∧ field "likes" created.2 = Some (JNum 0)
  ∧ field "comments" created.2 = Some (JArr []).
Proof.
  intros Hroom created.
  assert (Hserved :
            getPost created.1 now' (freshId d)
            = (if bool_decide (dateNowExpiry d + maxAge s < now') then None
               else Some created.2)).
  { unfold getPost, findPost. unfold created. rewrite createPost_posts.
    destruct (maxPosts s) as [|m]; [lia|].
    cbn [take]. rewrite list_find_cons, decide_True by reflexivity.
    reflexivity. }
  split; [exact Hserved|]. split; [|by vm_compute].
  intros Hclock Hsoon. rewrite Hserved.
  by rewrite bool_decide_eq_false_2 by lia.
Qed.

(** A post created while the clock ticks from 100 to 102 between the two
    readings is still served at [102 + maxAge], after [timestamp + maxAge]. *)
Lemma createPost_then_getPost_witness :
  (1 ≤ maxPosts storeOfTwo)%nat
  ∧ getPost (createPost storeOfTwo tickingDraw "Due" "0123456789" "general"
               [] "h").1
      (102 + maxAge storeOfTwo) "t"
    = Some (createPost storeOfTwo tickingDraw "Due" "0123456789" "general"
              [] "h").2
  ∧ getPost (createPost storeOfTwo tickingDraw "Due" "0123456789" "general"
               [] "h").1
      (103 + maxAge storeOfTwo) "t"
    = None.
Proof.
  assert (Hroom : (1 ≤ maxPosts storeOfTwo)%nat) by (vm_compute; lia).
  split; [exact Hroom|]. split.
  - destruct (createPost_then_getPost storeOfTwo tickingDraw "Due"
                "0123456789" "general" [] "h" (102 + maxAge storeOfTwo) Hroom)
      as [H _].
    exact H.
  - destruct (createPost_then_getPost storeOfTwo tickingDraw "Due"
                "0123456789" "general" [] "h" (103 + maxAge storeOfTwo) Hroom)
      as [H _].
    exact H.
Defined.

(** A comment [createComment] accepts is the last one [getComments] hands
    back for that post afterwards; the comments of posts with another id,
    the number of posts and the like ledger stay as they were. *)
Theorem createComment_then_getComments (s : DataStore) (d : Draw)
    (postId content' ipHash' : string) (now' : Z) (i : nat) (p : Post) :
  findPost postId s = Some (i, p) →
  dateNow d ≤ expiresAt p → now' ≤ expiresAt p →
  let result := createComment s d postId content' ipHash' in
  let comment :=
    {| c_id := freshId d;
       c_anonId := generateAnonId (randPrefix d) (randNumber d);
       c_content := content'; c_timestamp := dateNow d;
       c_ipHash := ipHash' |} in
  result.2 = CommentCreated (sanitizeComment comment)
  ∧ field "content" (sanitizeComment comment) = Some (JStr content')
  ∧ getComments result.1 now' postId
    = (getComments s now' postId ++ [sanitizeComment comment])%list
  ∧ (∀ other, other ≠ postId →
       getComments result.1 now' other = getComments s now' other)
  ∧ length (posts result.1) = length (posts s)
  ∧ likedPosts result.1 = likedPosts s.
Proof.
  intros Hfind Hd Hnow result comment.
  assert (Hid : id p = postId).
  { unfold findPost in Hfind. apply list_find_Some in Hfind. tauto. }
  assert (Hresult : result
    = (setPosts (<[i := pushComment comment p]> (posts s)) s,
       CommentCreated (sanitizeComment comment))).
  { unfold result, createComment. rewrite Hfind.
    by rewrite bool_decide_eq_false_2 by lia. }
  rewrite Hresult. cbn [fst snd]. split_and!.
  - done.
  - done.
  - unfold getComments.
    rewrite (findPost_insert postId s i p (pushComment comment p)) by done.
    rewrite Hfind. cbn [expiresAt pushComment comments].
    rewrite bool_decide_eq_false_2 by lia.
    by rewrite fmap_app.
  - intros other Hother. unfold getComments.
    by rewrite (findPost_insert_other postId other s i p) by done.
  - cbn [posts setPosts]. apply length_insert.
  - done.
Qed.

Lemma createComment_then_getComments_witness :
  getComments
    (createComment dueStore (sampleDraw 7 "k1") "p1" "second" "h1").1 8 "p1"
  = (getComments dueStore 8 "p1"
     ++ [sanitizeComment
           (mkComment "k1" (generateAnonId 0 0) "second" 7 "h1")])%list.
Proof.
  destruct (createComment_then_getComments dueStore (sampleDraw 7 "k1")
              "p1" "second" "h1" 8 0 duePost)
    as (_ & _ & H & _); [reflexivity | by vm_compute | by vm_compute |].
  exact H.
Defined.

(** ** Cleanup and the reads after it *)

Lemma filter_filter_weaker {A : Type} (f g : A → bool) (l : list A) :
  (∀ x, f x = true → g x = true) →
  List.filter f (List.filter g l) = List.filter f l.
Proof.
  intros Hfg. induction l as [|x l IH]; [done|].
  cbn. destruct (g x) eqn:Hg; cbn.
  - by rewrite IH.
  - destruct (f x) eqn:Hf; [|done].
    apply Hfg in Hf. congruence.
Qed.

Lemma validPosts_validPosts s now1 now2 :
  now1 ≤ now2 →
  validPosts (setPosts (validPosts s now1) s) now2 = validPosts s now2.
Proof.
  intros Hle. unfold validPosts. cbn [posts setPosts].
  apply filter_filter_weaker. intros post.
  rewrite !bool_decide_eq_true. lia.
Qed.

(** The set [cleanupLikedPosts] leaves for an identity, if any. *)
Lemma cleanup_ledger_lookup s now k :
  likedPosts (cleanup s now).1 !! k
  = match likedPosts s !! k with
    | Some likedSet =>
        let likedSet' :=
          filter (λ postId, postId ∈ (list_to_set (id <$> validPosts s now)
                                        : gset string)) likedSet in
        if bool_decide (size likedSet' = 0%nat) then None else Some likedSet'
    | None => None
    end.
Proof.
  unfold cleanup, cleanupLikedPosts.
  cbn [fst likedPosts setLikedPosts setPosts posts].
  rewrite map_fold_cleanupEntry.
  by destruct (likedPosts s !! k).
Qed.

(** Cleaning up at an instant and again at a later one leaves the store
    that one cleanup at the later instant leaves, and the two counts add up
    to its count; cleaning up twice at one instant removes nothing the
    second time. *)
Theorem cleanup_twice (s : DataStore) (now1 now2 : Z) :
  now1 ≤ now2 →
  let first := cleanup s now1 in
  let second := cleanup first.1 now2 in
  second.1 = (cleanup s now2).1
  ∧ first.2 + second.2 = (cleanup s now2).2
  ∧ (now1 = now2 → second = (first.1, 0)).
Proof.
  intros Hle first second.
  assert (Hposts : posts second.1 = posts (cleanup s now2).1)
    by apply (validPosts_validPosts s now1 now2 Hle).
  assert (Hstore : second.1 = (cleanup s now2).1).
  { apply store_eq; [done | | done | done].
    apply map_eq. intros k. unfold second.
    rewrite !cleanup_ledger_lookup.
    change (validPosts first.1 now2)
      with (validPosts (setPosts (validPosts s now1) s) now2).
    rewrite validPosts_validPosts by done.
    unfold first. rewrite cleanup_ledger_lookup.
    destruct (likedPosts s !! k) as [likedSet|]; [|done].
    cbv zeta.
    set (valid1 := list_to_set (id <$> validPosts s now1) : gset string).
    set (valid2 := list_to_set (id <$> validPosts s now2) : gset string).
    assert (Hsub : ∀ x, x ∈ valid2 → x ∈ valid1).
    { intros x. unfold valid1, valid2.
      rewrite !elem_of_list_to_set, !list_elem_of_fmap.
      intros (post & -> & Hpost). exists post. split; [done|].
      apply validPosts_spec in Hpost as [? ?].
      apply validPosts_spec. split; [done | lia]. }
    assert (Hfilter :
      filter (λ x, x ∈ valid2) (filter (λ x, x ∈ valid1) likedSet)
      = filter (λ x, x ∈ valid2) likedSet).
    { apply set_eq. intros x. rewrite !elem_of_filter.
      split; [tauto|]. intros [? ?]. auto. }
    case_bool_decide as Hempty1.
    - rewrite bool_decide_eq_true_2; [done|].
      apply size_empty_iff, elem_of_equiv_empty.
      apply size_empty_iff in Hempty1.
      intros x. rewrite elem_of_filter. intros [Hx2 Hx].
      apply (proj1 (elem_of_equiv_empty _) Hempty1 x).
      apply elem_of_filter. auto.
    - by rewrite Hfilter. }
  split_and!.
  - done.
  - unfold second, first, cleanup in *. cbn [fst snd] in *.
    rewrite Hposts. cbn [posts cleanupLikedPosts setLikedPosts setPosts]. lia.
  - intros <-.
    assert (H0 : second.2 = 0).
    { unfold second, cleanup. cbn [snd].
      change (posts (cleanupLikedPosts
                       (setPosts (validPosts first.1 now1) first.1)))
        with (validPosts (setPosts (validPosts s now1) s) now1).
      rewrite validPosts_validPosts by done.
      change (posts first.1) with (validPosts s now1). lia. }
    rewrite (surjective_pairing second). by rewrite Hstore, H0.
Qed.

Lemma cleanup_twice_witness :
  (cleanup (cleanup sampleStore 500).1 1000).1 = (cleanup sampleStore 1000).1
  ∧ (cleanup sampleStore 500).2 + (cleanup (cleanup sampleStore 500).1 1000).2
    = (cleanup sampleStore 1000).2.
Proof.
  destruct (cleanup_twice sampleStore 500 1000) as (H1 & H2 & _); [lia|].
  split; [exact H1 | exact H2].
Defined.

(** What [getPosts] hands back at an instant is the same whether or not
    the store was cleaned up at an earlier instant. *)
Theorem cleanup_then_getPosts (s : DataStore) (now now' : Z)
    (category' : option string) (page limit : Z) (sort : string) :
  now < now' →
  getPosts (cleanup s now).1 now' category' page limit sort
  = getPosts s now' category' page limit sort.
Proof.
  intros Hlt. unfold getPosts, filteredSorted.
  change (posts (cleanup s now).1) with (validPosts s now).
  unfold validPosts. rewrite filter_filter_weaker; [done|].
  intros post Hkeep. apply keepPost_expiry in Hkeep.
  apply bool_decide_eq_true. lia.
Qed.

Lemma cleanup_then_getPosts_witness :
  getPosts (cleanup sampleStore 500).1 501 None 1 20 "likes"
  = getPosts sampleStore 501 None 1 20 "likes".
Proof.
  apply (cleanup_then_getPosts sampleStore 500 501 None 1 20 "likes"). lia.
Defined.

(** ** The order of the posts [getPosts] pages over *)






(** A page after the last one is empty and has no next page. *)
Theorem getPosts_past_last_page (s : DataStore) (now : Z)
    (category' : option string) (sort : string) (page limit : Z) :
  1 ≤ limit →
  let result := getPosts s now category' page limit sort in
  total (pagination result) < page →
  pagePosts result = [] ∧ hasNext (pagination result) = false.
Proof.
  intros Hlimit result Hpast.
  set (all := filteredSorted s now category' sort).
  assert (Htotal : total (pagination result)
                   = ceilDiv (Z.of_nat (length all)) limit) by done.
  pose proof (ceilDiv_spec (Z.of_nat (length all)) limit ltac:(lia)) as Hceil.
  rewrite <- Htotal in Hceil.
  split.
  - unfold result.
    replace page with (Z.of_nat (S (Z.to_nat (page - 1)))) by nia.
    rewrite getPosts_page by done. fold all.
    rewrite drop_ge by nia. by rewrite take_nil.
  - unfold result, getPosts. cbn [pagination hasNext].
    apply bool_decide_eq_false_2. fold all. rewrite <- Htotal. lia.
Qed.

Lemma getPosts_past_last_page_witness :
  pagePosts (getPosts sampleStore 5 None 3 2 "likes") = []
  ∧ hasNext (pagination (getPosts sampleStore 5 None 3 2 "likes")) = false.
Proof.
  apply (getPosts_past_last_page sampleStore 5 None "likes" 3 2);
    [lia | by vm_compute].
Defined.

(** ** The like counters agree with the ledger *)

Lemma elem_of_likers_dom postId (m : gmap string (gset string)) k :
  k ∈ dom (filter (λ entry : string * gset string, postId ∈ entry.2) m)
  ↔ ∃ likedSet, m !! k = Some likedSet ∧ postId ∈ likedSet.
Proof.
  rewrite elem_of_dom. unfold is_Some.
  setoid_rewrite map_lookup_filter_Some. cbn. naive_solver.
Qed.

Lemma likers_ext postId postId' (m m' : gmap string (gset string)) :
  (∀ k, (∃ likedSet, m !! k = Some likedSet ∧ postId ∈ likedSet)
        ↔ (∃ likedSet, m' !! k = Some likedSet ∧ postId' ∈ likedSet)) →
  likers postId m = likers postId' m'.
Proof.
  intros Hext. unfold likers. f_equal. apply set_eq. intros k.
  rewrite !elem_of_likers_dom. apply Hext.
Qed.

Lemma likers_empty postId : likers postId ∅ = 0%nat.
Proof.
  unfold likers. rewrite map_filter_empty, dom_empty_L. apply size_empty.
Qed.

(** A first like of [postId] by [h] adds one identity to its likers. *)
Lemma likers_insert_new postId h (m : gmap string (gset string)) :
  postId ∉ default ∅ (m !! h) →
  likers postId (<[h := {[postId]} ∪ default ∅ (m !! h)]> m)
  = S (likers postId m).
Proof.
  intros Hnew. unfold likers.
  assert (Hdom :
    dom (filter (λ entry : string * gset string, postId ∈ entry.2)
           (<[h := {[postId]} ∪ default ∅ (m !! h)]> m))
    = {[h]} ∪ dom (filter (λ entry : string * gset string, postId ∈ entry.2)
                     m)).
  { apply set_eq. intros k.
    rewrite elem_of_union, elem_of_singleton, !elem_of_likers_dom.
    destruct (decide (k = h)) as [->|Hne].
    - rewrite lookup_insert_eq. split; [by left|].
      intros _. eexists. split; [done|]. set_solver.
    - rewrite lookup_insert_ne by done. naive_solver. }
  rewrite Hdom, size_union, size_singleton; [done|].
  apply disjoint_singleton_l. rewrite elem_of_likers_dom.
  intros (likedSet & Hh & Hin). rewrite Hh in Hnew. by cbn in Hnew.
Qed.

(** It leaves the likers of every other id as they were. *)
Lemma likers_insert_other postId other h (m : gmap string (gset string)) :
  other ≠ postId →
  likers other (<[h := {[postId]} ∪ default ∅ (m !! h)]> m) = likers other m.
Proof.
  intros Hne. apply likers_ext. intros k.
  destruct (decide (k = h)) as [->|Hk].
  - rewrite lookup_insert_eq. split.
    + intros (likedSet & [= <-] & Hin).
      destruct (m !! h) as [old|]; cbn in *; [|set_solver].
      exists old. split; [done | set_solver].
    + intros (likedSet & Hh & Hin). rewrite Hh. cbn.
      eexists. split; [done | set_solver].
  - by rewrite lookup_insert_ne.
Qed.

Lemma filter_sublist_of {A : Type} (f : A → bool) (l : list A) :
  List.filter f l `sublist_of` l.
Proof.
  induction l as [|x l IH]; [done|].
  cbn. destruct (f x); by constructor.
Qed.

(** [cleanup] leaves the likers of the ids of the posts it keeps. *)
Lemma likers_cleanup s now postId :
  postId ∈ (id <$> validPosts s now) →
  likers postId (likedPosts (cleanup s now).1) = likers postId (likedPosts s).
Proof.
  intros Hvalid. apply likers_ext. intros k.
  rewrite cleanup_ledger_lookup.
  destruct (likedPosts s !! k) as [likedSet|]; [|naive_solver].
  cbv zeta. case_bool_decide as Hsize.
  - split; [naive_solver|]. intros (? & [= <-] & Hin). exfalso.
    apply size_empty_iff in Hsize.
    apply (proj1 (elem_of_equiv_empty _) Hsize postId).
    apply elem_of_filter. split; [|done]. by apply elem_of_list_to_set.
  - split.
    + intros (? & [= <-] & Hin). apply elem_of_filter in Hin as [_ Hin].
      eauto.
    + intros (? & [= <-] & Hin). eexists. split; [done|].
      apply elem_of_filter. split; [|done]. by apply elem_of_list_to_set.
Qed.

Section Ledger.

Variable hashIP : string → string.

Lemma ledgerConsistent_createPost s d t c cat tg h :
  ledgerConsistent s → idUnused (freshId d) s →
  ledgerConsistent (createPost s d t c cat tg h).1.
Proof.
  intros [Hnodup Hlikes] [Hfresh Hnone]. unfold ledgerConsistent.
  rewrite createPost_posts.
  change (likedPosts (createPost s d t c cat tg h).1) with (likedPosts s).
  set (post := newPost s d t c cat tg h).
  split.
  - apply (sublist_NoDup _ (id <$> post :: posts s));
      [|apply fmap_sublist, sublist_take].
    rewrite fmap_cons. by apply NoDup_cons.
  - intros q Hq. apply (subseteq_take (maxPosts s)) in Hq.
    apply elem_of_cons in Hq as [->|Hq]; [|by apply Hlikes].
    unfold post at 2. cbn [newPost id]. rewrite Hnone. done.
Qed.

Lemma ledgerConsistent_likePost s now postId userIP :
  ledgerConsistent s →
  ledgerConsistent (likePost hashIP s now postId userIP).1.
Proof.
  intros [Hnodup Hlikes].
  destruct (findPost postId s) as [[i p]|] eqn:Hfind;
    [|unfold likePost; by rewrite Hfind].
  destruct (decide (expiresAt p < now)) as [Hexp|Hlive].
  { unfold likePost. rewrite Hfind. by rewrite bool_decide_eq_true_2. }
  destruct (decide (postId ∈ default ∅ (likedPosts s !! hashIP userIP)))
    as [Hold|Hnew].
  { rewrite (likePost_repeated hashIP s now postId userIP i p);
      [done | done | lia | done]. }
  rewrite (likePost_fresh hashIP s now postId userIP i p);
    [| done | lia | done].
  cbn [fst].
  pose proof Hfind as Hfound. unfold findPost in Hfound.
  apply list_find_Some in Hfound as (Hi & Hid & _).
  unfold ledgerConsistent. cbn [posts likedPosts setLikedPosts setPosts].
  split.
  - rewrite list_fmap_insert. rewrite list_insert_id; [done|].
    rewrite list_lookup_fmap, Hi. done.
  - intros q Hq. apply list_elem_of_lookup in Hq as [j Hj].
    destruct (decide (j = i)) as [->|Hji].
    + rewrite list_lookup_insert_eq in Hj by (by eapply lookup_lt_Some).
      injection Hj as <-. cbn [likes id incrementLikes]. rewrite Hid.
      rewrite likers_insert_new by done.
      rewrite (Hlikes p) by (by eapply list_elem_of_lookup_2).
      rewrite Hid. lia.
    + rewrite list_lookup_insert_ne in Hj by done.
      rewrite likers_insert_other.
      * apply Hlikes. by eapply list_elem_of_lookup_2.
      * intros Heq. apply Hji.
        eapply NoDup_lookup; [exact Hnodup | |].
        -- rewrite list_lookup_fmap, Hj. done.
        -- rewrite list_lookup_fmap, Hi. cbn. congruence.
Qed.

Lemma ledgerConsistent_createComment s d postId c h :
  ledgerConsistent s → ledgerConsistent (createComment s d postId c h).1.
Proof.
  intros [Hnodup Hlikes]. unfold createComment.
  destruct (findPost postId s) as [[i p]|] eqn:Hfind; [|done].
  case_bool_decide; [done|]. cbn [fst].
  apply list_find_Some in Hfind as (Hi & Hid & _).
  unfold ledgerConsistent. cbn [posts likedPosts setPosts].
  split.
  - rewrite list_fmap_insert. rewrite list_insert_id; [done|].
    rewrite list_lookup_fmap, Hi. done.
  - intros q Hq. apply list_elem_of_lookup in Hq as [j Hj].
    destruct (decide (j = i)) as [->|Hji].
    + rewrite list_lookup_insert_eq in Hj by (by eapply lookup_lt_Some).
      injection Hj as <-. cbn [likes id pushComment].
      apply Hlikes. by eapply list_elem_of_lookup_2.
    + rewrite list_lookup_insert_ne in Hj by done.
      apply Hlikes. by eapply list_elem_of_lookup_2.
Qed.

Lemma ledgerConsistent_cleanup s now :
  ledgerConsistent s → ledgerConsistent (cleanup s now).1.
Proof.
  intros [Hnodup Hlikes]. unfold ledgerConsistent.
  change (posts (cleanup s now).1) with (validPosts s now).
  split.
  - eapply sublist_NoDup; [exact Hnodup|].
    apply fmap_sublist, filter_sublist_of.
  - intros q Hq. rewrite likers_cleanup.
    + apply Hlikes. by apply validPosts_spec in Hq as [? _].
    + apply list_elem_of_fmap. eauto.
Qed.

(** In every store built by [createPost], [likePost], [createComment] and
    [cleanup] from a store without posts and likes, with ids that are not
    used twice, the stored posts have distinct ids and the [likes] of each
    is the number of identities that hold its id in the ledger. *)
Theorem reachable_ledgerConsistent (s : DataStore) :
  Reachable hashIP s → ledgerConsistent s.
Proof.
  induction 1 as [s Hposts Hledger| | | |].
  - unfold ledgerConsistent. rewrite Hposts. split; [constructor|].
    intros post Hin. by apply not_elem_of_nil in Hin.
  - by apply ledgerConsistent_createPost.
  - by apply ledgerConsistent_likePost.
  - by apply ledgerConsistent_createComment.
  - by apply ledgerConsistent_cleanup.
Qed.

End Ledger.

(** Post A created in an empty store and liked once by X. *)
Lemma reachable_ledgerConsistent_witness :
  ledgerConsistent
    (likePost sampleHash
       (createPost storeOfTwo (callDraw callA) (callTitle callA)
          (callContent callA) (callCategory callA) (callTags callA)
          (callIpHash callA)).1 2 "a" "X").1.
Proof.
  apply (reachable_ledgerConsistent sampleHash).
  apply ReachableLikePost, ReachableCreatePost.
  - by apply ReachableNew.
  - split; [apply not_elem_of_nil | apply likers_empty].
Defined.

(** * Further properties of the rate limiter *)

Section RateLimitRuns.

Variable hashIP : string → string.
Variables windowMs max : Z.
Variable message : string.

(** The outcome of a request and the entry it leaves for its own address
    depend on the map only through the entry of that address. *)
Lemma createRateLimit_own requests ip now :
  createRateLimit hashIP windowMs max message requests ip now
  = let requests1 :=
      map_fold (cleanOldEntry windowMs now) requests requests in
    let opened :=
      (<[hashIP ip := {| count := 1; resetTime := now |}]> requests1, Next) in
    match requests !! hashIP ip with
    | None => opened
    | Some data =>
        if bool_decide (now - resetTime data > windowMs) then opened
        else if bool_decide (count data >= max)
        then (requests1,
              Respond 429 message
                (Some (ceilDiv (windowMs - (now - resetTime data)) 1000)))
        else (<[hashIP ip := {| count := count data + 1;
                                resetTime := resetTime data |}]> requests1,
              Next)
    end.
Proof.
  unfold createRateLimit. cbv zeta. rewrite cleaned_lookup.
  destruct (requests !! hashIP ip) as [data|]; [|done].
  case_bool_decide as Hstale; [done|].
  by rewrite (bool_decide_eq_false_2 _ Hstale).
Qed.

(** The entries of the other addresses after a request: gone when their
    window had run out, untouched otherwise. *)
Lemma createRateLimit_other requests ip now k :
  k ≠ hashIP ip →
  (createRateLimit hashIP windowMs max message requests ip now).1 !! k
  = match requests !! k with
    | Some data =>
        if bool_decide (now - resetTime data > windowMs) then None
        else Some data
    | None => None
    end.
Proof.
  intros Hk. rewrite createRateLimit_own. cbv zeta.
  rewrite <- (cleaned_lookup windowMs requests now k).
  destruct (requests !! hashIP ip) as [data|];
    repeat case_bool_decide; cbn [fst]; by rewrite ?lookup_insert_ne.
Qed.

(** A run inside a live window: request [j] of the run passes exactly
    when the counter it finds is below the cap. *)
Lemma rateRun_live requests ip data times :
  requests !! hashIP ip = Some data →
  Forall (λ t, t - resetTime data ≤ windowMs) times →
  ∀ (j : nat) (outcome : Outcome),
    (rateRun hashIP windowMs max message requests ip times).2 !! j
    = Some outcome →
    outcome = Next ↔ count data + Z.of_nat j < max.
Proof.
  intros Hdata Hlive. revert requests data Hdata Hlive.
  induction times as [|t times IH]; intros requests data Hdata Hlive j outcome;
    [done|].
  apply Forall_cons in Hlive as [Ht Hlive].
  cbn [rateRun fst snd].
  destruct (decide (count data < max)) as [Hbelow|Hcap].
  - destruct (createRateLimit_counts hashIP windowMs max message
                requests ip t data Hdata Ht Hbelow) as [Hout Hentry].
    destruct j as [|j]; cbn [lookup list_lookup].
    + rewrite Hout. intros [= <-]. split; [lia | done].
    + intros Hj. rewrite (IH _ _ Hentry Hlive j outcome Hj). cbn. lia.
  - destruct (createRateLimit_rejects hashIP windowMs max message
                requests ip t data Hdata Ht ltac:(lia)) as [Hout Hentry].
    destruct j as [|j]; cbn [lookup list_lookup].
    + rewrite Hout. intros [= <-]. split; [done | lia].
    + intros Hj. rewrite (IH _ _ Hentry Hlive j outcome Hj). lia.
Qed.

(** For an address without a live window, the request that opens the
    window always passes, whatever the cap; of the requests that follow
    inside the window (none later than [windowMs] after the first), in any
    order of arrival, exactly those pass that bring the number of passed
    requests to at most [max]. So request number [i], counted from 0,
    passes exactly when [i] is below the greater of 1 and [max]. *)
Theorem rateRun_cap (requests : gmap string RateData) (ip : string)
    (t1 : Z) (times : list Z) :
  match requests !! hashIP ip with
  | None => True
  | Some data => t1 - resetTime data > windowMs
  end →
  Forall (λ t, t - t1 ≤ windowMs) times →
  ∀ (i : nat) (outcome : Outcome),
    (rateRun hashIP windowMs max message requests ip (t1 :: times)).2 !! i
    = Some outcome →
    outcome = Next ↔ Z.of_nat i < Z.max 1 max.
Proof.
  intros Hfresh Hlive i outcome.
  cbn [rateRun fst snd].
  destruct (createRateLimit_opens hashIP windowMs max message
              requests ip t1 Hfresh) as [Hout Hentry].
  destruct i as [|i]; cbn [lookup list_lookup].
  - rewrite Hout. intros [= <-]. split; [lia | done].
  - intros Hi.
    rewrite (rateRun_live _ ip _ times Hentry Hlive i outcome Hi).
    cbn [count]. lia.
Qed.

(** A request of one address neither changes what a later request of
    another address is answered nor the entry that request leaves, the
    clock not running backwards. *)
Theorem createRateLimit_independent (requests : gmap string RateData)
    (ip1 ip2 : string) (t1 t2 : Z) :
  hashIP ip1 ≠ hashIP ip2 → t1 ≤ t2 →
  let between :=
    (createRateLimit hashIP windowMs max message requests ip1 t1).1 in
  (createRateLimit hashIP windowMs max message between ip2 t2).2
  = (createRateLimit hashIP windowMs max message requests ip2 t2).2
  ∧ (createRateLimit hashIP windowMs max message between ip2 t2).1
      !! hashIP ip2
    = (createRateLimit hashIP windowMs max message requests ip2 t2).1
        !! hashIP ip2.
Proof.
  intros Hne Hclock between.
  assert (Hbetween : between !! hashIP ip2
    = match requests !! hashIP ip2 with
      | Some data =>
          if bool_decide (t1 - resetTime data > windowMs) then None
          else Some data
      | None => None
      end).
  { unfold between. by apply createRateLimit_other. }
  rewrite !(createRateLimit_own _ ip2 t2). cbv zeta. rewrite Hbetween.
  destruct (requests !! hashIP ip2) as [data|] eqn:Hreq;
    [|cbn; by rewrite !lookup_insert_eq].
  case_bool_decide as Hstale1.
  - rewrite (bool_decide_eq_true_2 (t2 - resetTime data > windowMs)) by lia.
    cbn. by rewrite !lookup_insert_eq.
  - repeat case_bool_decide; cbn [fst snd];
      rewrite ?lookup_insert_eq; try done.
    split; [done|]. by rewrite !cleaned_lookup, Hbetween, Hreq.
Qed.

(** After a request no entry of the limiter is older than the window, and
    the entries of the other addresses that are not older are the ones
    there were before. *)
Theorem createRateLimit_evicts (requests : gmap string RateData)
    (ip : string) (now : Z) :
  0 ≤ windowMs →
  let after :=
    (createRateLimit hashIP windowMs max message requests ip now).1 in
  (∀ k data, after !! k = Some data → now - resetTime data ≤ windowMs)
  ∧ (∀ k data, k ≠ hashIP ip → requests !! k = Some data →
       after !! k
       = if bool_decide (now - resetTime data > windowMs) then None
         else Some data).
Proof.
  intros Hwindow after. split.
  - intros k data. destruct (decide (k = hashIP ip)) as [->|Hk].
    + unfold after. rewrite createRateLimit_own. cbv zeta.
      destruct (requests !! hashIP ip) as [old|] eqn:Hold;
        repeat case_bool_decide; cbn [fst];
        rewrite ?lookup_insert_eq, ?cleaned_lookup, ?Hold;
        try (intros [= <-]; cbn; lia).
      rewrite bool_decide_eq_false_2 by done. intros [= <-]. lia.
    + unfold after. rewrite createRateLimit_other by done.
      destruct (requests !! k) as [old|]; [|done].
      case_bool_decide; [done|]. intros [= <-]. lia.
  - intros k data Hk Hdata. unfold after.
    rewrite createRateLimit_other by done. by rewrite Hdata.
Qed.

End RateLimitRuns.

(** Five requests inside one window under the cap of three. *)
Lemma rateRun_cap_witness :
  (rateRun sampleHash postWindowMs postMax postMessage ∅ "10.0.0.1"
     [0; 1000; 500; 2000; 300000]).2 !! 2%nat = Some Next
  ∧ (Next = Next ↔ Z.of_nat 2 < Z.max 1 postMax).
Proof.
  assert (H : (rateRun sampleHash postWindowMs postMax postMessage ∅
                 "10.0.0.1" [0; 1000; 500; 2000; 300000]).2 !! 2%nat
              = Some Next) by (by vm_compute).
  split; [exact H|].
  apply (rateRun_cap sampleHash postWindowMs postMax postMessage ∅
           "10.0.0.1" 0 [1000; 500; 2000; 300000]);
    [exact I | | exact H].
  repeat constructor; by vm_compute.
Defined.

Lemma createRateLimit_independent_witness :
  (createRateLimit sampleHash postWindowMs postMax postMessage
     (createRateLimit sampleHash postWindowMs postMax postMessage ∅
        "10.0.0.1" 0).1 "10.0.0.2" 5).2
  = (createRateLimit sampleHash postWindowMs postMax postMessage ∅
       "10.0.0.2" 5).2.
Proof.
  destruct (createRateLimit_independent sampleHash postWindowMs postMax
              postMessage ∅ "10.0.0.1" "10.0.0.2" 0 5) as [H _];
    [by vm_compute | lia |].
  exact H.
Defined.

Lemma createRateLimit_evicts_witness :
  0 ≤ postWindowMs
  ∧ (createRateLimit sampleHash postWindowMs postMax postMessage
       {[ "#10.0.0.9" := {| count := 2; resetTime := 0 |} ]}
       "10.0.0.1" 400000).1 !! "#10.0.0.9" = None.
Proof.
  assert (Hwindow : 0 ≤ postWindowMs) by (by vm_compute).
  split; [exact Hwindow|].
  destruct (createRateLimit_evicts sampleHash postWindowMs postMax
              postMessage {[ "#10.0.0.9" := {| count := 2; resetTime := 0 |} ]}
              "10.0.0.1" 400000 Hwindow) as [_ H].
  rewrite (H "#10.0.0.9" {| count := 2; resetTime := 0 |});
    [reflexivity | by vm_compute | by vm_compute].
Defined.

(** * Further properties of the content filter *)

Lemma lastRead_cons before x read :
  lastRead before (x :: read) = lastRead (Some x) read.
Proof. unfold lastRead. rewrite last_cons. by destruct (last read). Qed.

Lemma sameChar_refl ic c : sameChar ic c c = true.
Proof. unfold sameChar. by apply bool_decide_eq_true_2. Qed.

(** A match at some start position is found by the search. *)
Lemma searchFrom_found ic r before pre input :
  matchRegex ic r
    {| prev := lastRead before pre; rest := input; capture := None |}
    (λ _, true) = true →
  searchFrom ic r before (pre ++ input) = true.
Proof.
  revert before. induction pre as [|x pre IH]; intros before Hmatch.
  - change (lastRead before []) with before in Hmatch.
    cbn [app]. destruct input; cbn [searchFrom]; by rewrite Hmatch.
  - cbn [app searchFrom]. rewrite lastRead_cons in Hmatch.
    rewrite (IH (Some x) Hmatch). apply orb_true_r.
Qed.

(** A quantified character class reads any run of characters of the
    class whose length the bounds allow. *)
Lemma repeatMatch_class ic f run tail fuel lo hi before cap k :
  Forall (λ c, f c = true) run →
  (lo ≤ length run)%nat →
  (∀ n, hi = Some n → (length run ≤ n)%nat) →
  (length run < fuel)%nat →
  k {| prev := lastRead before run; rest := tail; capture := cap |} = true →
  repeatMatch (matchRegex ic (RClass f)) fuel lo hi
    {| prev := before; rest := run ++ tail; capture := cap |} k = true.
Proof.
  intros Hrun. revert fuel lo hi before.
  induction Hrun as [|x run Hx Hrun IH]; intros fuel lo hi before Hlo Hhi Hfuel Hk.
  - destruct fuel as [|fuel]; [cbn in Hfuel; lia|].
    destruct lo as [|lo]; [|cbn in Hlo; lia].
    rewrite repeatMatch_free. cbn [app]. unfold lastRead in Hk. cbn in Hk.
    rewrite Hk. apply orb_true_r.
  - destruct fuel as [|fuel]; [cbn in Hfuel; lia|].
    rewrite lastRead_cons in Hk. cbn [length] in *.
    assert (Hnext :
      ∀ lo', (lo' ≤ length run)%nat →
        repeatMatch (matchRegex ic (RClass f)) fuel lo' (Nat.pred <$> hi)
          {| prev := Some x; rest := run ++ tail; capture := cap |} k = true).
    { intros lo' Hlo'. apply IH; [done | | lia | done].
      intros n Hn. destruct hi as [m|]; [|done].
      injection Hn as <-. specialize (Hhi m eq_refl). lia. }
    destruct lo as [|lo].
    + rewrite repeatMatch_free.
      rewrite bool_decide_eq_false_2.
      * cbn [matchRegex rest app]. rewrite Hx. cbn [andb capture].
        rewrite bool_decide_eq_true_2 by (cbn; lia).
        cbn [andb]. by rewrite Hnext by lia.
      * intros ->. specialize (Hhi 0%nat eq_refl). lia.
    + rewrite repeatMatch_owed. cbn [matchRegex rest app]. rewrite Hx.
      cbn [andb capture]. apply Hnext. lia.
Qed.

(** A backreference reads a copy of the captured run. *)
Lemma matchWord_copy ic word tail before cap :
  matchWord ic word
    {| prev := before; rest := word ++ tail; capture := cap |}
  = Some {| prev := lastRead before word; rest := tail; capture := cap |}.
Proof.
  revert before. induction word as [|c word IH]; intros before; [done|].
  cbn [matchWord rest app]. rewrite sameChar_refl. cbn [capture].
  rewrite IH. by rewrite lastRead_cons.
Qed.

Lemma matchRegex_backref ic st k :
  matchRegex ic RBackref st k
  = match capture st with
    | None => k st
    | Some w =>
        match matchWord ic w st with
        | Some st' => k st'
        | None => false
        end
    end.
Proof. reflexivity. Qed.

(** An owed backreference reads one copy of the captured run. *)
Lemma matchRegex_owed_backref ic lo word tail before k :
  matchRegex ic (RRep (S lo) None RBackref)
    {| prev := before; rest := word ++ tail; capture := Some word |} k
  = matchRegex ic (RRep lo None RBackref)
      {| prev := lastRead before word; rest := tail; capture := Some word |} k.
Proof.
  rewrite matchRegex_owed, matchRegex_backref. cbn [capture].
  by rewrite matchWord_copy.
Qed.

(** A literal reads any run that differs from it at most in the case of
    letters, when the pattern ignores case. *)
Lemma matchRegex_literal word run tail before cap k :
  sameLetters run word →
  k {| prev := lastRead before run; rest := tail; capture := cap |} = true →
  matchRegex true (literalChars word)
    {| prev := before; rest := run ++ tail; capture := cap |} k = true.
Proof.
  intros Hsame. revert before.
  induction Hsame as [|x c run word Hxc Hsame IH]; intros before Hk.
  - done.
  - rewrite lastRead_cons in Hk. specialize (IH (Some x) Hk).
    destruct word as [|c' word].
    + apply Forall2_nil_inv_r in Hsame as ->.
      cbn [literalChars matchRegex rest app]. rewrite Hxc. exact Hk.
    + cbn [literalChars]. cbn [matchRegex rest app]. rewrite Hxc.
      cbn [andb capture]. exact IH.
Qed.

Lemma matchRegex_alternatives phrases phrase st k :
  phrase ∈ phrases →
  matchRegex true (literal phrase) st k = true →
  matchRegex true (alternatives phrases) st k = true.
Proof.
  intros Hin Hmatch.
  induction phrases as [|s phrases IH]; [by apply not_elem_of_nil in Hin|].
  destruct phrases as [|s' phrases].
  - apply list_elem_of_singleton in Hin as ->. exact Hmatch.
  - change (alternatives (s :: s' :: phrases))
      with (RAlt (literal s) (alternatives (s' :: phrases))).
    cbn [matchRegex].
    apply elem_of_cons in Hin as [->|Hin].
    + by rewrite Hmatch.
    + rewrite IH by done. apply orb_true_r.
Qed.

Lemma checkSpam_pattern pattern chars :
  pattern ∈ spamPatterns → chars ≠ [] →
  searchFrom (ignoreCase pattern) (body pattern) None chars = true →
  checkSpam (Some (string_of_list_ascii chars)) = true.
Proof.
  intros Hin Hchars Hsearch. unfold checkSpam.
  rewrite bool_decide_eq_false_2.
  - apply existsb_exists. exists pattern.
    split; [by apply list_elem_of_In|].
    unfold test. by rewrite list_ascii_of_string_of_list_ascii.
  - intros Hempty. apply Hchars.
    rewrite <- (list_ascii_of_string_of_list_ascii chars). by rewrite Hempty.
Qed.

(** A text in which a run of 1 to 20 characters, none of them a line
    terminator, stands four times in a row is spam. Four equal characters
    in a row are the shortest case. *)
Theorem checkSpam_repeated_run (pre run post : list ascii) :
  (1 ≤ length run ≤ 20)%nat →
  Forall (λ c, isLineTerminator c = false) run →
  checkSpam
    (Some (string_of_list_ascii (pre ++ run ++ run ++ run ++ run ++ post)))
  = true.
Proof.
  intros Hlen Hrun.
  apply (checkSpam_pattern
           {| body := RSeq (RGroup (RRep 1 (Some 20%nat) anyChar))
                        (RRep 3 None RBackref);
              ignoreCase := false |}).
  - unfold spamPatterns.
    repeat first [apply list_elem_of_here | apply list_elem_of_further].
  - destruct run; [cbn in Hlen; lia|]. by destruct pre.
  - cbn [body ignoreCase]. apply searchFrom_found.
    set (tail := (run ++ run ++ run ++ post)%list).
    set (copies := RRep 3 None RBackref).
    cbn [matchRegex rest]. unfold anyChar.
    apply (repeatMatch_class false).
    + eapply Forall_impl; [exact Hrun|]. intros c Hc. cbn. by rewrite Hc.
    + lia.
    + intros n [= <-]. lia.
    + rewrite length_app. lia.
    + cbn [prev rest capture].
      rewrite length_app, Nat.add_sub, take_app_length.
      unfold tail, copies.
      rewrite !matchRegex_owed_backref.
      rewrite matchRegex_star. apply orb_true_r.
Qed.

Lemma checkSpam_repeated_run_witness :
  checkSpam (Some "well, hahahaha then") = true.
Proof.
  apply (checkSpam_repeated_run
           (list_ascii_of_string "well, ") (list_ascii_of_string "ha")
           (list_ascii_of_string " then")).
  - cbn. lia.
  - repeat constructor.
Defined.

(** A text in which twenty or more capital letters A to Z stand in a row
    is spam. *)
Theorem checkSpam_capitals (pre run post : list ascii) :
  (20 ≤ length run)%nat →
  Forall (λ c, isUpperAZ c = true) run →
  checkSpam (Some (string_of_list_ascii (pre ++ run ++ post))) = true.
Proof.
  intros Hlen Hrun.
  apply (checkSpam_pattern
           {| body := RRep 20 None (RClass isUpperAZ); ignoreCase := false |}).
  - unfold spamPatterns.
    repeat first [apply list_elem_of_here | apply list_elem_of_further].
  - destruct run; [cbn in Hlen; lia|]. by destruct pre.
  - cbn [body ignoreCase]. apply searchFrom_found.
    cbn [matchRegex rest].
    apply (repeatMatch_class false); [done | lia | done | | done].
    rewrite length_app. lia.
Qed.

Lemma checkSpam_capitals_witness :
  checkSpam (Some "see ABCDEFGHIJKLMNOPQRSTUVWXYZ!") = true.
Proof.
  apply (checkSpam_capitals
           (list_ascii_of_string "see ")
           (list_ascii_of_string "ABCDEFGHIJKLMNOPQRSTUVWXYZ")
           (list_ascii_of_string "!")).
  - cbn. lia.
  - repeat constructor.
Defined.

(** A text that holds one of the phrases "buy now", "click here",
    "urgent", "limited time" anywhere, in any mix of capital and small
    letters and also inside a longer word, is spam. *)
Theorem checkSpam_phrase (pre run post : list ascii) (phrase : string) :
  phrase ∈ ["buy now"; "click here"; "urgent"; "limited time"] →
  sameLetters run (list_ascii_of_string phrase) →
  checkSpam (Some (string_of_list_ascii (pre ++ run ++ post))) = true.
Proof.
  intros Hphrase Hsame.
  apply (checkSpam_pattern
           {| body := RGroup (alternatives
                        ["buy now"; "click here"; "urgent"; "limited time"]);
              ignoreCase := true |}).
  - unfold spamPatterns.
    repeat first [apply list_elem_of_here | apply list_elem_of_further].
  - assert (Hlen : length run = length (list_ascii_of_string phrase))
      by (by eapply Forall2_length).
    destruct run as [|x run]; [|by destruct pre].
    exfalso. cbn in Hlen.
    repeat (apply elem_of_cons in Hphrase as [->|Hphrase]; [by cbn in Hlen|]).
    by apply not_elem_of_nil in Hphrase.
  - cbn [body ignoreCase]. apply searchFrom_found.
    cbn [matchRegex].
    apply (matchRegex_alternatives _ phrase); [done|].
    unfold literal. by apply matchRegex_literal.
Qed.

Lemma checkSpam_phrase_witness :
  checkSpam (Some "the insURGENT news") = true.
Proof.
  apply (checkSpam_phrase
           (list_ascii_of_string "the ins") (list_ascii_of_string "URGENT")
           (list_ascii_of_string " news") "urgent").
  - repeat first [apply list_elem_of_here | apply list_elem_of_further].
  - repeat constructor.
Defined.

(** A character that differs from a small letter a to z at most in case is
    a letter a to z itself, small or capital. *)
Lemma sameChar_small_letter x c :
  sameChar true x c = true → 97 ≤ codeUnit c ≤ 122 → isWordChar x = true.
Proof.
  unfold sameChar, canonicalize, isWordChar, isUpperAZ.
  rewrite bool_decide_eq_true. cbn [andb]. intros Hsame Hc.
  rewrite (bool_decide_eq_true_2 (97 ≤ codeUnit c ≤ 122)) in Hsame by done.
  cbn [orb] in Hsame.
  assert (Hcode : codeUnit (ascii_of_N (N_of_ascii c - 32)) = codeUnit c - 32).
  { unfold codeUnit in *. rewrite N_ascii_embedding.
    - lia.
    - pose proof (N_ascii_bounded c). lia. }
  destruct (bool_decide (97 ≤ codeUnit x ≤ 122)) eqn:Hsmall.
  { by rewrite orb_true_r. }
  cbn [orb] in Hsame.
  destruct (bool_decide (224 ≤ codeUnit x ≤ 254)
            && negb (bool_decide (codeUnit x = 247))) eqn:Hhigh.
  - exfalso. apply andb_true_iff in Hhigh as [Hhigh _].
    apply bool_decide_eq_true in Hhigh.
    assert (Hx : codeUnit (ascii_of_N (N_of_ascii x - 32)) = codeUnit x - 32).
    { unfold codeUnit in *. rewrite N_ascii_embedding.
      - lia.
      - pose proof (N_ascii_bounded x). lia. }
    rewrite Hsame in Hx. lia.
  - rewrite Hsame, (bool_decide_eq_true_2 (65 ≤ _ ≤ 90)); [done|].
    rewrite Hcode. lia.
Qed.

Lemma sameLetters_word run word :
  sameLetters run word →
  Forall (λ c, 97 ≤ codeUnit c ≤ 122) word →
  Forall (λ x, isWordChar x = true) run.
Proof.
  intros Hsame. induction Hsame as [|x c run word Hxc Hsame IH]; [done|].
  intros Hword. apply Forall_cons in Hword as [Hc Hword].
  constructor; [by eapply sameChar_small_letter | by apply IH].
Qed.

(** A text that holds one of the words "viagra", "casino", "lottery",
    "winner" in any mix of capital and small letters, with no letter,
    digit or underscore directly before or after it, is spam. *)
Theorem checkSpam_keyword (pre run post : list ascii) (keyword : string) :
  keyword ∈ ["viagra"; "casino"; "lottery"; "winner"] →
  sameLetters run (list_ascii_of_string keyword) →
  from_option isWordChar false (last pre) = false →
  from_option isWordChar false (head post) = false →
  checkSpam (Some (string_of_list_ascii (pre ++ run ++ post))) = true.
Proof.
  intros Hkeyword Hsame Hpre Hpost.
  assert (Hsmall :
    Forall (λ c, 97 ≤ codeUnit c ≤ 122) (list_ascii_of_string keyword)).
  { repeat (apply elem_of_cons in Hkeyword as [->|Hkeyword];
            [repeat constructor; by vm_compute|]).
    by apply not_elem_of_nil in Hkeyword. }
  pose proof (sameLetters_word _ _ Hsame Hsmall) as Hword.
  assert (Hlen : length run = length (list_ascii_of_string keyword))
    by (by eapply Forall2_length).
  destruct run as [|x run].
  { exfalso. cbn in Hlen.
    repeat (apply elem_of_cons in Hkeyword as [->|Hkeyword];
            [by cbn in Hlen|]).
    by apply not_elem_of_nil in Hkeyword. }
  apply (checkSpam_pattern
           {| body := RSeq RWordBoundary
                        (RSeq (RGroup (alternatives
                                 ["viagra"; "casino"; "lottery"; "winner"]))
                           RWordBoundary);
              ignoreCase := true |}).
  - unfold spamPatterns.
    repeat first [apply list_elem_of_here | apply list_elem_of_further].
  - by destruct pre.
  - cbn [body ignoreCase]. apply searchFrom_found.
    set (words := alternatives ["viagra"; "casino"; "lottery"; "winner"]).
    cbn [matchRegex prev rest].
    assert (Hbefore : lastRead None pre = last pre)
      by (unfold lastRead; by destruct (last pre)).
    rewrite Hbefore, Hpre. cbn [app head from_option].
    apply Forall_cons in Hword as Hx. destruct Hx as [Hx _].
    rewrite Hx. cbn [xorb andb].
    change (x :: (run ++ post)%list) with ((x :: run) ++ post)%list.
    apply (matchRegex_alternatives _ keyword); [done|].
    unfold literal. apply matchRegex_literal; [done|].
    cbn [prev rest]. rewrite Hpost.
    assert (Hlast : from_option isWordChar false
                      (lastRead (last pre) (x :: run)) = true).
    { unfold lastRead.
      destruct (last (x :: run)) as [y|] eqn:Hy; [|by rewrite last_cons in Hy; destruct (last run)].
      cbn. apply last_Some_elem_of in Hy.
      by apply (proj1 (Forall_forall _ _) Hword). }
    by rewrite Hlast.
Qed.

Lemma checkSpam_keyword_witness :
  checkSpam (Some "big CASINO!") = true.
Proof.
  apply (checkSpam_keyword
           (list_ascii_of_string "big ") (list_ascii_of_string "CASINO")
           (list_ascii_of_string "!") "casino").
  - repeat first [apply list_elem_of_here | apply list_elem_of_further].
  - repeat constructor.
  - reflexivity.
  - reflexivity.
Defined.

(** * Further properties of the aliases *)

(** ** Rounding to the nearest double *)

Lemma two_pos (e : Z) : (0 < 2 ^ e)%Q.
Proof. by apply Qpower_0_lt. Qed.

Lemma two_plus (a b : Z) : (2 ^ (a + b) == 2 ^ a * 2 ^ b)%Q.
Proof. by apply Qpower_plus. Qed.

Lemma two_cancel (e : Z) : (2 ^ (- e) * 2 ^ e == 1)%Q.
Proof. rewrite <- two_plus. by replace (- e + e) with 0 by lia. Qed.

Lemma two_le (a b : Z) : a ≤ b → (2 ^ a <= 2 ^ b)%Q.
Proof. intros H. by apply Qpower_le_compat_l. Qed.

Lemma two_lt_inv (a b : Z) : (2 ^ a < 2 ^ b)%Q → a < b.
Proof. intros H. by apply (Qpower_lt_compat_l_inv 2). Qed.

Lemma two_inject (k : Z) : 0 ≤ k → (inject_Z (2 ^ k) == 2 ^ k)%Q.
Proof. intros H. by apply Zpower_Qpower. Qed.

Lemma log2_bounds (a : Z) :
  0 < a → (2 ^ Z.log2 a <= inject_Z a)%Q ∧ (inject_Z a < 2 ^ (Z.log2 a + 1))%Q.
Proof.
  intros Ha. pose proof (Z.log2_spec a Ha) as [Hlo Hhi].
  pose proof (Z.log2_nonneg a) as Hnn.
  rewrite <- !two_inject by lia. split.
  - by rewrite <- Zle_Qle.
  - rewrite <- Zlt_Qlt. by replace (Z.log2 a + 1) with (Z.succ (Z.log2 a)) by lia.
Qed.

Lemma fraction_bounds (v : Q) :
  (0 < v)%Q →
  let c := Z.log2 (Qnum v) - Z.log2 (Zpos (Qden v)) in
  (2 ^ (c - 1) < v)%Q ∧ (v < 2 ^ (c + 1))%Q.
Proof.
  intros Hv c.
  assert (Hnum : 0 < Qnum v).
  { destruct v as [a b]. unfold Qlt in Hv. cbn in *. lia. }
  assert (Hfrac : (inject_Z (Qnum v) == v * inject_Z (Zpos (Qden v)))%Q).
  { destruct v as [a b]. unfold Qeq. cbn. lia. }
  destruct (log2_bounds (Qnum v) Hnum) as [Hlo Hhi].
  destruct (log2_bounds (Zpos (Qden v)) ltac:(lia)) as [Hlo' Hhi'].
  set (la := Z.log2 (Qnum v)) in *. set (lb := Z.log2 (Zpos (Qden v))) in *.
  assert (Hden : (0 < inject_Z (Zpos (Qden v)))%Q) by (unfold Qlt; cbn; lia).
  split.
  - apply (Qmult_lt_r _ _ _ Hden). rewrite <- Hfrac.
    eapply Qlt_le_trans; [|exact Hlo].
    replace la with ((c - 1) + (lb + 1)) by (unfold c; lia).
    rewrite two_plus. apply Qmult_lt_l; [apply two_pos | exact Hhi'].
  - apply (Qmult_lt_r _ _ _ Hden). rewrite <- Hfrac.
    eapply Qlt_le_trans; [exact Hhi|].
    replace (la + 1) with ((c + 1) + lb) by (unfold c; lia).
    rewrite two_plus. apply Qmult_le_l; [apply two_pos | exact Hlo'].
Qed.

(** The binade of a positive rational holds it. *)
Lemma binade_spec (v : Q) :
  (0 < v)%Q → (2 ^ binade v <= v)%Q ∧ (v < 2 ^ (binade v + 1))%Q.
Proof.
  intros Hv. destruct (fraction_bounds v Hv) as [Hlo Hhi].
  unfold binade.
  set (c := Z.log2 (Qnum v) - Z.log2 (Zpos (Qden v))) in *.
  destruct (Qle_bool (2 ^ c) v) eqn:Hc.
  - split; [by apply Qle_bool_iff | exact Hhi].
  - split; [by apply Qlt_le_weak|].
    replace (c - 1 + 1) with c by lia.
    apply Qnot_le_lt. intros Hle. apply Qle_bool_iff in Hle. congruence.
Qed.

Lemma binade_below (v : Q) (k : Z) :
  (0 < v)%Q → (v < 2 ^ k)%Q → binade v < k.
Proof.
  intros Hv Hk. destruct (binade_spec v Hv) as [Hlo _].
  apply two_lt_inv. by eapply Qle_lt_trans.
Qed.

Lemma two_half (e : Z) : (2 ^ (e - 1) == (1 # 2) * 2 ^ e)%Q.
Proof.
  replace (e - 1) with (-1 + e) by lia. rewrite two_plus. reflexivity.
Qed.

(** Rounding a rational that is not negative gives a multiple of its last
    place, not negative either and at most half a place above it. *)
Lemma roundPositive_spec (v : Q) :
  (0 <= v)%Q →
  ∃ k : Z,
    0 ≤ k
    ∧ roundPositive v = (inject_Z k * 2 ^ lastPlace v)%Q
    ∧ (inject_Z k * 2 ^ lastPlace v <= v + 2 ^ (lastPlace v - 1))%Q.
Proof.
  intros Hv. unfold roundPositive. cbv zeta.
  set (e := lastPlace v).
  set (scaled := (v * 2 ^ (- e))%Q).
  set (q := Qfloor scaled).
  assert (Hscaled : (0 <= scaled)%Q).
  { apply Qmult_le_0_compat; [done | apply Qlt_le_weak, two_pos]. }
  assert (Hq : 0 ≤ q).
  { change 0 with (Qfloor 0). by apply Qfloor_resp_le. }
  pose proof (Qfloor_le scaled) as Hfloor. fold q in Hfloor.
  assert (Hback : (scaled * 2 ^ e == v)%Q).
  { unfold scaled. rewrite <- Qmult_assoc, two_cancel. ring. }
  assert (Hnear :
    (inject_Z (if match (scaled - inject_Z q ?= 1 # 2)%Q with
                  | Lt => false
                  | Gt => true
                  | Eq => Z.odd q
                  end then q + 1 else q)
     <= scaled + (1 # 2))%Q).
  { destruct (scaled - inject_Z q ?= 1 # 2)%Q eqn:Hcmp.
    - apply Qeq_alt in Hcmp.
      destruct (Z.odd q);
        [rewrite inject_Z_plus; change (inject_Z 1) with 1%Q|]; lra.
    - lra.
    - apply Qgt_alt in Hcmp. rewrite inject_Z_plus.
      change (inject_Z 1) with 1%Q. lra. }
  eexists. split_and!; [|reflexivity|].
  - destruct (match (scaled - inject_Z q ?= 1 # 2)%Q with
              | Lt => false
              | Gt => true
              | Eq => Z.odd q
              end); lia.
  - rewrite two_half, <- Hback.
    assert (Hfactor : (scaled * 2 ^ e + (1 # 2) * 2 ^ e
                       == (scaled + (1 # 2)) * 2 ^ e)%Q) by ring.
    rewrite Hfactor.
    apply Qmult_le_compat_r; [exact Hnear | apply Qlt_le_weak, two_pos].
Qed.

Lemma roundDouble_positive (v : Q) :
  (0 < v)%Q → roundDouble v = roundPositive v.
Proof.
  intros Hv. unfold roundDouble. apply Qgt_alt in Hv. by rewrite Hv.
Qed.

Lemma roundDouble_zero (v : Q) : (v == 0)%Q → roundDouble v = 0%Q.
Proof.
  intros Hv. unfold roundDouble. apply Qeq_alt in Hv. by rewrite Hv.
Qed.

(** The largest double below 1 is [1 - 2^-53]. *)
Lemma isDouble_below_one (r : Q) :
  isDouble r = true → (0 <= r)%Q → (r < 1)%Q → (r <= 1 - 2 ^ (-53))%Q.
Proof.
  intros Hdouble Hlow Hhigh.
  destruct (Qlt_le_dec 0 r) as [Hpos | Hzero].
  2: { apply Qle_trans with 0%Q; [done | by vm_compute]. }
  apply Qeq_bool_iff in Hdouble. rewrite roundDouble_positive in Hdouble by done.
  destruct (roundPositive_spec r Hlow) as (k & _ & Hgrid & _).
  rewrite Hgrid in Hdouble.
  pose proof (binade_below r 0 Hpos Hhigh) as Hbinade.
  destruct (binade_spec r Hpos) as [_ Hbelow].
  destruct (decide (binade r = -1)) as [Hlast | Hless].
  - unfold lastPlace in Hdouble. rewrite Hlast in Hdouble.
    change (Z.max (-1 - 52) (-1074)) with (-53) in Hdouble.
    change (2 ^ (-53))%Q with (1 # 9007199254740992)%Q in *.
    assert (Hk : k < 9007199254740992).
    { rewrite Zlt_Qlt. change (inject_Z 9007199254740992)
        with (9007199254740992 # 1)%Q. lra. }
    assert (Hk' : (inject_Z k <= inject_Z 9007199254740991)%Q).
    { rewrite <- Zle_Qle. lia. }
    change (inject_Z 9007199254740991) with (9007199254740991 # 1)%Q in Hk'.
    lra.
  - assert (Hhalf : (2 ^ (binade r + 1) <= 2 ^ (-1))%Q) by (apply two_le; lia).
    change (2 ^ (-1))%Q with (1 # 2)%Q in Hhalf.
    change (2 ^ (-53))%Q with (1 # 9007199254740992)%Q.
    lra.
Qed.

(** [Math.floor(Math.random() * n)] is an index below [n] for every
    double [Math.random()] can return, when [n] is not a power of two:
    the product of the largest double below 1 and [n] is more than half a
    place below [n], and does not round up to it. *)
Lemma randomBelow_range (r : Q) (n : Z) :
  isDouble r = true → (0 <= r)%Q → (r < 1)%Q →
  0 < n → 2 ^ Z.log2 n < n →
  0 ≤ randomBelow r n < n.
Proof.
  intros Hdouble Hlow Hhigh Hn Hpower. unfold randomBelow.
  destruct (Qlt_le_dec 0 r) as [Hpos | Hzero].
  2: { rewrite roundDouble_zero; [change (Qfloor 0) with 0; lia|].
       assert (r == 0)%Q as -> by lra. ring. }
  pose proof (isDouble_below_one r Hdouble Hlow Hhigh) as Hlargest.
  change (2 ^ (-53))%Q with (1 # 9007199254740992)%Q in Hlargest.
  set (v := (r * inject_Z n)%Q).
  assert (HN : (0 < inject_Z n)%Q).
  { change 0%Q with (inject_Z 0). by rewrite <- Zlt_Qlt. }
  assert (Hv : (0 < v)%Q) by (by apply Qmult_lt_0_compat).
  assert (Hvn : (v <= (1 - (1 # 9007199254740992)) * inject_Z n)%Q).
  { apply Qmult_le_compat_r; [done | by apply Qlt_le_weak]. }
  pose proof (Z.log2_nonneg n) as Hk. set (k := Z.log2 n) in *.
  destruct (log2_bounds n Hn) as [_ Hnext]. fold k in Hnext.
  assert (Hbinade : binade v < k + 1).
  { apply binade_below; [done | lra]. }
  rewrite roundDouble_positive by done.
  destruct (roundPositive_spec v (Qlt_le_weak _ _ Hv))
    as (q & Hq & -> & Hupper).
  assert (Hplace : (2 ^ (lastPlace v - 1) <= 2 ^ (k - 53))%Q).
  { apply two_le. unfold lastPlace. lia. }
  assert (Hsplit : (2 ^ (k - 53) == inject_Z (2 ^ k) * (1 # 9007199254740992))%Q).
  { replace (k - 53) with (k + -53) by lia.
    by rewrite two_plus, two_inject. }
  assert (HP : (inject_Z (2 ^ k) + 1 <= inject_Z n)%Q).
  { change 1%Q with (inject_Z 1). rewrite <- inject_Z_plus, <- Zle_Qle. lia. }
  assert (Hbelow : (inject_Z q * 2 ^ lastPlace v < inject_Z n)%Q) by lra.
  split.
  - change 0 with (Qfloor 0). apply Qfloor_resp_le.
    apply Qmult_le_0_compat; [|apply Qlt_le_weak, two_pos].
    change 0%Q with (inject_Z 0). rewrite <- Zle_Qle. done.
  - rewrite Zlt_Qlt. eapply Qle_lt_trans; [apply Qfloor_le | exact Hbelow].
Qed.

Lemma anonNumber_range (r : Q) :
  isDouble r = true → (0 <= r)%Q → (r < 1)%Q → 1000 ≤ anonNumber r ≤ 10998.
Proof.
  intros Hdouble H0 H1. unfold anonNumber.
  pose proof (randomBelow_range r 9999 Hdouble H0 H1 ltac:(lia)
                ltac:(by vm_compute)).
  lia.
Qed.

(** On the two sample draws and on the largest double below 1,
    [roundDouble] of the exact product is the product [SFmul] of the
    Standard Library's specification of binary64 gives. *)
Example roundDouble_as_SFmul :
  Qred <$> specValue (SFmul 53 1024 (binary64 866076851417403 (-51))
                        (binary64 13 0))
  = Some (Qred (roundDouble (nearFiveThirteenths * 13)))
  ∧ Qred <$> specValue (SFmul 53 1024 (binary64 33780375242803 (-52))
                          (binary64 9999 0))
    = Some (Qred (roundDouble (nearSeventyFive * 9999)))
  ∧ Qred <$> specValue (SFmul 53 1024 (binary64 9007199254740991 (-53))
                          (binary64 9999 0))
    = Some (Qred (roundDouble ((9007199254740991 # 9007199254740992) * 9999)))
  ∧ specValue (binary64 866076851417403 (-51)) = Some nearFiveThirteenths
  ∧ specValue (binary64 33780375242803 (-52)) = Some nearSeventyFive.
Proof. by vm_compute. Qed.

(** The rounding of the product matters: at these two draws the exact
    products lie below 5 and below 75, but the doubles the code gets are
    5 and 75, and the alias is made from those. *)
Example generateAnonId_rounded_products :
  Qfloor (nearFiveThirteenths * 13) = 4
  ∧ randomBelow nearFiveThirteenths 13 = 5
  ∧ Qfloor (nearSeventyFive * 9999) = 74
  ∧ randomBelow nearSeventyFive 9999 = 75
  ∧ generateAnonId nearFiveThirteenths nearSeventyFive = "Unknown1075".
Proof. by vm_compute. Qed.

(** For every two doubles from 0 up to but not including 1, which is
    what [Math.random()] returns, an alias is one of the thirteen
    prefixes, never a missing one, followed by the decimal digits of a
    number from 1000 to 10998: the rounded products stay below 13 and
    below 9999. *)
Theorem generateAnonId_shape (rp rn : Q) :
  isDouble rp = true → isDouble rn = true →
  (0 <= rp)%Q → (rp < 1)%Q → (0 <= rn)%Q → (rn < 1)%Q →
  ∃ (prefix : string) (number : Z),
    prefix ∈ prefixes ∧ 1000 ≤ number ≤ 10998
    ∧ generateAnonId rp rn = prefix +:+ pretty number.
Proof.
  intros Hpd Hnd Hp0 Hp1 Hn0 Hn1. unfold generateAnonId. cbv zeta.
  pose proof (randomBelow_range rp (Z.of_nat (length prefixes)) Hpd Hp0 Hp1
                ltac:(by vm_compute) ltac:(by vm_compute)) as Hindex.
  destruct (prefixes !! Z.to_nat (randomBelow rp (Z.of_nat (length prefixes))))
    as [prefix|] eqn:Hprefix.
  - exists prefix, (anonNumber rn). split_and!.
    + by eapply list_elem_of_lookup_2.
    + by apply anonNumber_range.
    + by apply anonNumber_range.
    + done.
  - apply lookup_ge_None in Hprefix. lia.
Qed.

Lemma generateAnonId_shape_witness :
  ∃ (prefix : string) (number : Z),
    prefix ∈ prefixes ∧ 1000 ≤ number ≤ 10998
    ∧ generateAnonId nearFiveThirteenths nearSeventyFive
      = prefix +:+ pretty number.
Proof.
  apply (generateAnonId_shape nearFiveThirteenths nearSeventyFive);
    by vm_compute.
Defined.

(** * Properties of the validators and of the client's tag parser *)

(** ** Strings as lists of characters *)

Lemma length_string_of_list_ascii l :
  String.length (string_of_list_ascii l) = length l.
Proof. induction l as [|c l IH]; [done|]. cbn. by rewrite IH. Qed.

Lemma length_list_ascii_of_string s :
  length (list_ascii_of_string s) = String.length s.
Proof. induction s as [|c s IH]; [done|]. cbn. by rewrite IH. Qed.

Lemma trim_chars s :
  trim s = string_of_list_ascii (trimChars (list_ascii_of_string s)).
Proof. reflexivity. Qed.

Lemma string_of_list_ascii_inj l1 l2 :
  string_of_list_ascii l1 = string_of_list_ascii l2 → l1 = l2.
Proof.
  intros H. rewrite <- (list_ascii_of_string_of_list_ascii l1),
    <- (list_ascii_of_string_of_list_ascii l2). by rewrite H.
Qed.

(** ** [trim] *)

(** [trimStart] drops a run of white space from the front. *)
Lemma trimStart_split l :
  ∃ blanks, l = (blanks ++ trimStart l)%list
            ∧ Forall (λ c, isWhiteSpace c = true) blanks.
Proof.
  induction l as [|c l (blanks & Hl & Hblanks)]; [by exists []|].
  cbn. destruct (isWhiteSpace c) eqn:Hc.
  - exists (c :: blanks). split; [by rewrite Hl at 1 | by constructor].
  - by exists [].
Qed.

Lemma trimStart_head l :
  from_option isWhiteSpace false (head (trimStart l)) = false.
Proof.
  induction l as [|c l IH]; [done|].
  cbn. destruct (isWhiteSpace c) eqn:Hc; [done | by cbn].
Qed.

Lemma trimStart_fixed l :
  from_option isWhiteSpace false (head l) = false → trimStart l = l.
Proof. destruct l as [|c l]; [done|]. cbn. by intros ->. Qed.




(** What [trim] hands back neither starts nor ends with white space. *)
Lemma trimChars_ends l :
  from_option isWhiteSpace false (head (trimChars l)) = false
  ∧ from_option isWhiteSpace false (head (rev (trimChars l))) = false.
Proof.
  unfold trimChars. rewrite rev_involutive. split; [|apply trimStart_head].
  destruct (trimStart_split (rev (trimStart l))) as (blanks & Hrev & _).
  set (kept := trimStart (rev (trimStart l))) in *.
  assert (Hl : trimStart l = (rev kept ++ rev blanks)%list).
  { rewrite <- rev_app_distr, <- Hrev. by rewrite rev_involutive. }
  pose proof (trimStart_head l) as Hhead. rewrite Hl in Hhead.
  destruct (rev kept) as [|c front]; [done|]. exact Hhead.
Qed.

Lemma trimChars_fixed l :
  from_option isWhiteSpace false (head l) = false →
  from_option isWhiteSpace false (head (rev l)) = false →
  trimChars l = l.
Proof.
  intros Hhead Hlast. unfold trimChars.
  rewrite (trimStart_fixed l) by done.
  rewrite (trimStart_fixed (rev l)) by done.
  apply rev_involutive.
Qed.

Lemma trimChars_idemp l : trimChars (trimChars l) = trimChars l.
Proof. apply trimChars_fixed; apply trimChars_ends. Qed.

Lemma trimStart_subseteq l c : c ∈ trimStart l → c ∈ l.
Proof.
  destruct (trimStart_split l) as (blanks & Hl & _).
  intros Hc. rewrite Hl. apply elem_of_app. by right.
Qed.

Lemma trimChars_subseteq l c : c ∈ trimChars l → c ∈ l.
Proof.
  unfold trimChars. rewrite list_elem_of_In, <- in_rev, <- list_elem_of_In.
  intros Hc%trimStart_subseteq.
  apply list_elem_of_In in Hc. apply (proj2 (in_rev _ _)) in Hc.
  by apply trimStart_subseteq, list_elem_of_In.
Qed.

Lemma trimStart_fmap (f : ascii → ascii) l :
  (∀ c, isWhiteSpace (f c) = isWhiteSpace c) →
  trimStart (f <$> l) = f <$> trimStart l.
Proof.
  intros Hf. induction l as [|c l IH]; [done|].
  cbn. rewrite Hf. by destruct (isWhiteSpace c).
Qed.

Lemma trimChars_fmap (f : ascii → ascii) l :
  (∀ c, isWhiteSpace (f c) = isWhiteSpace c) →
  trimChars (f <$> l) = f <$> trimChars l.
Proof.
  intros Hf. unfold trimChars.
  rewrite trimStart_fmap by done.
  change (rev (f <$> trimStart l)) with (rev (map f (trimStart l))).
  rewrite <- map_rev.
  change (map f (rev (trimStart l))) with (f <$> rev (trimStart l)).
  rewrite trimStart_fmap by done.
  change (f <$> trimStart (rev (trimStart l)))
    with (map f (trimStart (rev (trimStart l)))).
  by rewrite <- map_rev.
Qed.

(** ** [toLowerCase] *)

Ltac each_ascii c := destruct c as [[] [] [] [] [] [] [] []].

Lemma lowerChar_whiteSpace c : isWhiteSpace (lowerChar c) = isWhiteSpace c.
Proof. each_ascii c; by vm_compute. Qed.

Lemma lowerChar_idemp c : lowerChar (lowerChar c) = lowerChar c.
Proof. each_ascii c; by vm_compute. Qed.

Lemma lowerChar_comma c : lowerChar c = ","%char → c = ","%char.
Proof. each_ascii c; vm_compute; intros H; first [done | discriminate H]. Qed.

Lemma toLowerCase_idemp s : toLowerCase (toLowerCase s) = toLowerCase s.
Proof.
  unfold toLowerCase. rewrite list_ascii_of_string_of_list_ascii.
  f_equal. rewrite <- list_fmap_compose. apply list_fmap_ext.
  intros _ c _. apply lowerChar_idemp.
Qed.

Lemma toLowerCase_length s : String.length (toLowerCase s) = String.length s.
Proof.
  unfold toLowerCase. rewrite length_string_of_list_ascii, length_fmap.
  apply length_list_ascii_of_string.
Qed.

Lemma trim_toLowerCase s : trim (toLowerCase s) = toLowerCase (trim s).
Proof.
  rewrite !trim_chars. unfold toLowerCase.
  rewrite !list_ascii_of_string_of_list_ascii. f_equal.
  apply trimChars_fmap, lowerChar_whiteSpace.
Qed.

Lemma trim_idemp s : trim (trim s) = trim s.
Proof.
  rewrite !trim_chars, list_ascii_of_string_of_list_ascii.
  by rewrite trimChars_idemp.
Qed.

(** ** [split] *)

Lemma splitChars_no_sep sep l :
  Forall (λ piece, sep ∉ piece) (splitChars sep l).
Proof.
  induction l as [|c l IH]; cbn.
  - repeat constructor. apply not_elem_of_nil.
  - case_bool_decide as Hc.
    + constructor; [apply not_elem_of_nil | done].
    + destruct (splitChars sep l) as [|first others].
      * repeat constructor. by intros ->%list_elem_of_singleton.
      * apply Forall_cons in IH as [Hfirst Hothers].
        constructor; [|done].
        intros [->|?]%elem_of_cons; done.
Qed.

(** ** The validators *)

Lemma existsb_badTag items :
  existsb badTag items = false ↔ Forall tagAccepted items.
Proof.
  induction items as [|tag items IH]; [by split; [constructor|]|].
  cbn [existsb]. rewrite orb_false_iff, IH, Forall_cons.
  apply and_iff_compat_r. unfold tagAccepted.
  destruct tag as [|b|z|t|l|fs]; cbn;
    try (split; [done | by intros (? & [=] & _)]).
  rewrite bool_decide_eq_false. split.
  - intros Hlen. exists t. split; [done | lia].
  - intros (t' & [= <-] & Hlen). lia.
Qed.

Lemma titleErrors_nil title :
  titleErrors title = []
  ↔ ∃ t, title = Some (JsonStr t) ∧ (3 ≤ String.length (trim t) ≤ 200)%nat.
Proof.
  unfold titleErrors. split.
  - destruct title as [[|b|z|t|l|fs]|]; try done.
    repeat case_bool_decide; try done. intros _. exists t. split; [done|lia].
  - intros (t & -> & Hlen).
    rewrite bool_decide_eq_false_2 by (intros ->; cbn in Hlen; lia).
    by rewrite !bool_decide_eq_false_2 by lia.
Qed.

Lemma contentErrors_nil content :
  contentErrors content = []
  ↔ ∃ c, content = Some (JsonStr c)
         ∧ (10 ≤ String.length (trim c) ≤ 2000)%nat.
Proof.
  unfold contentErrors. split.
  - destruct content as [[|b|z|c|l|fs]|]; try done.
    repeat case_bool_decide; try done. intros _. exists c. split; [done|lia].
  - intros (c & -> & Hlen).
    rewrite bool_decide_eq_false_2 by (intros ->; cbn in Hlen; lia).
    by rewrite !bool_decide_eq_false_2 by lia.
Qed.

Lemma categoryErrors_nil category :
  categoryErrors category = []
  ↔ ∃ c, category = Some (JsonStr c) ∧ c ∈ validCategories.
Proof.
  unfold categoryErrors. split.
  - destruct category as [[|b|z|c|l|fs]|]; try done.
    repeat case_bool_decide; try done. intros _. by exists c.
  - intros (c & -> & Hin).
    rewrite (bool_decide_eq_true_2 (c ∈ validCategories)) by done.
    rewrite bool_decide_eq_true_2; [done|].
    intros ->. unfold validCategories in Hin.
    repeat (apply elem_of_cons in Hin as [Hin|Hin]; [discriminate Hin|]).
    by apply not_elem_of_nil in Hin.
Qed.

Lemma tagErrors_nil tags :
  tagErrors tags = []
  ↔ ∀ items, tags = Some (JsonArr items) →
      (length items ≤ 5)%nat ∧ Forall tagAccepted items.
Proof.
  unfold tagErrors. split.
  - destruct tags as [[|b|z|t|items|fs]|]; try done.
    intros Herrors items' [= <-].
    apply app_eq_nil in Herrors as [Hcount Hbad].
    case_bool_decide; [done|].
    destruct (existsb badTag items) eqn:Hexists; [done|].
    split; [lia | by apply existsb_badTag].
  - destruct tags as [[|b|z|t|items|fs]|]; try done.
    intros Hok. destruct (Hok items eq_refl) as [Hlen Hall].
    rewrite bool_decide_eq_false_2 by lia.
    by rewrite (proj2 (existsb_badTag items) Hall).
Qed.

(** [validatePostData] lets a body through exactly when its title is a
    string of 3 to 200 characters after trimming, its content a string of
    10 to 2000 characters after trimming, its category one of the seven
    names, and its tags, if they are an array, at most five strings of at
    most 50 characters each, untrimmed; tags that are not an array are not
    looked at. *)
Theorem validatePostData_accepts (body : list (string * Json)) :
  validatePostData body = ValidationNext
  ↔ (∃ t, jsonField "title" body = Some (JsonStr t)
          ∧ (3 ≤ String.length (trim t) ≤ 200)%nat)
    ∧ (∃ c, jsonField "content" body = Some (JsonStr c)
            ∧ (10 ≤ String.length (trim c) ≤ 2000)%nat)
    ∧ (∃ c, jsonField "category" body = Some (JsonStr c)
            ∧ c ∈ validCategories)
    ∧ (∀ items, jsonField "tags" body = Some (JsonArr items) →
         (length items ≤ 5)%nat ∧ Forall tagAccepted items).
Proof.
  rewrite <- titleErrors_nil, <- contentErrors_nil, <- categoryErrors_nil,
    <- tagErrors_nil.
  unfold validatePostData. cbv zeta.
  destruct (titleErrors (jsonField "title" body)) as [|e1 l1];
    [|split; [done | by intros [? _]]].
  destruct (contentErrors (jsonField "content" body)) as [|e2 l2];
    [|split; [done | by intros (_ & ? & _)]].
  destruct (categoryErrors (jsonField "category" body)) as [|e3 l3];
    [|split; [done | by intros (_ & _ & ? & _)]].
  destruct (tagErrors (jsonField "tags" body)) as [|e4 l4];
    [done | split; [done | by intros (_ & _ & _ & ?)]].
Qed.

(** [validateCommentData] lets a body through exactly when its content is
    a string of 1 to 1000 characters after trimming. *)
Theorem validateCommentData_accepts (body : list (string * Json)) :
  validateCommentData body = ValidationNext
  ↔ ∃ c, jsonField "content" body = Some (JsonStr c)
         ∧ (1 ≤ String.length (trim c) ≤ 1000)%nat.
Proof.
  unfold validateCommentData. cbv zeta. split.
  - destruct (jsonField "content" body) as [[|b|z|c|l|fs]|]; try done.
    repeat case_bool_decide; try done; try (exfalso; cbn in *; lia).
    intros _. exists c. split; [done|lia].
  - intros (c & -> & Hlen).
    rewrite (bool_decide_eq_false_2 (c = ""))
      by (intros ->; cbn in Hlen; lia).
    rewrite (bool_decide_eq_false_2 (String.length (trim c) < 1)%nat) by lia.
    by rewrite (bool_decide_eq_false_2 (1000 < String.length (trim c))%nat)
      by lia.
Qed.

(** ** The client's tag parser *)

(** Whatever the input, [parseTags] hands back at most five tags, each of
    1 to 50 characters, in small letters, without white space at its ends
    and without a comma; so the tags block of [validatePostData] finds no
    fault with them and the truncation in the store keeps them all. *)
Theorem parseTags_wellformed (tagsInput : option string) :
  let parsed := parseTags tagsInput in
  (length parsed ≤ 5)%nat
  ∧ Forall (λ tag,
       (1 ≤ String.length tag ≤ 50)%nat
       ∧ trim tag = tag ∧ toLowerCase tag = tag
       ∧ ","%char ∉ list_ascii_of_string tag) parsed
  ∧ tagErrors (Some (JsonArr (JsonStr <$> parsed))) = []
  ∧ slice 0 5 parsed = parsed.
Proof.
  intros parsed.
  assert (Hlen : (length parsed ≤ 5)%nat).
  { unfold parsed, parseTags. destruct tagsInput as [input|]; [|cbn; lia].
    case_bool_decide; [cbn; lia|].
    rewrite slice_0 by lia. rewrite length_take. lia. }
  assert (Hall : Forall (λ tag,
       (1 ≤ String.length tag ≤ 50)%nat
       ∧ trim tag = tag ∧ toLowerCase tag = tag
       ∧ ","%char ∉ list_ascii_of_string tag) parsed).
  { unfold parsed, parseTags. destruct tagsInput as [input|]; [|constructor].
    case_bool_decide; [constructor|].
    rewrite slice_0 by lia. apply Forall_forall. intros tag Htag.
    apply subseteq_take, list_elem_of_In, filter_In in Htag as [Htag Hkeep].
    apply andb_true_iff in Hkeep as [Hmin Hmax].
    apply bool_decide_eq_true in Hmin, Hmax.
    apply list_elem_of_In, list_elem_of_fmap in Htag as (piece & -> & Hpiece).
    split_and!; [lia | lia | | |].
    - by rewrite trim_toLowerCase, trim_idemp.
    - apply toLowerCase_idemp.
    - unfold split in Hpiece.
      apply list_elem_of_fmap in Hpiece as (chars & -> & Hchars).
      pose proof (splitChars_no_sep ","%char (list_ascii_of_string input))
        as Hsep.
      apply (proj1 (Forall_forall _ _) Hsep) in Hchars.
      rewrite trim_chars. unfold toLowerCase.
      rewrite !list_ascii_of_string_of_list_ascii.
      intros (c & Hc & Hin)%list_elem_of_fmap.
      symmetry in Hc. apply lowerChar_comma in Hc as ->.
      by apply trimChars_subseteq in Hin. }
  split_and!; [done | done | |].
  - apply tagErrors_nil. intros items [= <-].
    rewrite length_fmap. split; [done|].
    apply Forall_fmap. eapply Forall_impl; [exact Hall|].
    intros tag (Hbounds & _). exists tag. split; [done | lia].
  - rewrite slice_0 by lia. by apply take_ge.
Qed.

(** ** The honeypot *)

Lemma jsonField_jsonDelete_eq k fields : jsonField k (jsonDelete k fields) = None.
Proof.
  induction fields as [|[k' v] fields IH]; [done|].
  cbn. case_bool_decide; [done|]. cbn. by rewrite bool_decide_eq_false_2.
Qed.

Lemma jsonField_jsonDelete_ne k k' fields :
  k ≠ k' → jsonField k (jsonDelete k' fields) = jsonField k fields.
Proof.
  intros Hne. induction fields as [|[k'' v] fields IH]; [done|].
  cbn. case_bool_decide as Hk; cbn.
  - subst k''. by rewrite bool_decide_eq_false_2 by congruence.
  - by rewrite IH.
Qed.

Lemma honeypotTrap_cases body :
  honeypotTrap body
  = match jsonField "honeypot" body with
    | Some (JsonStr h) =>
        if bool_decide (trim h ≠ "") then HoneypotForbidden 403 "Forbidden"
        else HoneypotNext (jsonDelete "honeypot" body)
    | other =>
        if jsonTruthy other then HoneypotTypeError
        else HoneypotNext (jsonDelete "honeypot" body)
    end.
Proof.
  unfold honeypotTrap. cbv zeta.
  destruct (jsonField "honeypot" body) as [[|b|z|h|l|fs]|]; try done.
  cbn [jsonTruthy]. case_bool_decide as Hh; [done|].
  subst h. rewrite bool_decide_eq_false_2; [done|].
  intros Hblank. by apply Hblank.
Qed.

(** [honeypotTrap] answers 403 exactly when the honeypot field is a string
    with something other than white space in it; a truthy honeypot that is
    not a string makes it throw; in every other case it hands the body on
    without the honeypot field and with every other field as it was. *)
Theorem honeypotTrap_outcomes (body : list (string * Json)) :
  (honeypotTrap body = HoneypotForbidden 403 "Forbidden"
   ↔ ∃ h, jsonField "honeypot" body = Some (JsonStr h) ∧ trim h ≠ "")
  ∧ (honeypotTrap body = HoneypotTypeError
     ↔ jsonTruthy (jsonField "honeypot" body) = true
       ∧ ∀ h, jsonField "honeypot" body ≠ Some (JsonStr h))
  ∧ (∀ body', honeypotTrap body = HoneypotNext body' →
       jsonField "honeypot" body' = None
       ∧ ∀ k, k ≠ "honeypot" → jsonField k body' = jsonField k body).
Proof.
  rewrite honeypotTrap_cases. split_and!.
  - split.
    + destruct (jsonField "honeypot" body) as [[|b|z|h|l|fs]|];
        try (by destruct (jsonTruthy _)).
      case_bool_decide; [|done]. intros _. by exists h.
    + intros (h & -> & Hh). by rewrite bool_decide_eq_true_2.
  - split.
    + destruct (jsonField "honeypot" body) as [[|b|z|h|l|fs]|];
        try (destruct (jsonTruthy _) eqn:Htruthy; [|done];
             intros _; split; [done | by intros h']).
      by case_bool_decide.
    + intros [Htruthy Hstr].
      destruct (jsonField "honeypot" body) as [[|b|z|h|l|fs]|];
        try (by rewrite Htruthy).
      by destruct (Hstr h).
  - intros body' Hnext.
    assert (Hbody' : body' = jsonDelete "honeypot" body).
    { destruct (jsonField "honeypot" body) as [[|b|z|h|l|fs]|];
        try (destruct (jsonTruthy _); [done | by injection Hnext]).
      case_bool_decide; [done | by injection Hnext]. }
    subst body'. split; [apply jsonField_jsonDelete_eq|].
    intros k Hk. by apply jsonField_jsonDelete_ne.
Qed.

(** * Properties of [validateInput] *)

Example validateInput_samples :
  validateInput
    (JsonObj [("title", JsonStr "hello");
              ("tags", JsonArr [JsonStr "a"; JsonStr "x <IFrame src"])])
    (JsonObj [])
  = Respond 403 "Suspicious activity detected" None
  ∧ validateInput (JsonObj [("q", JsonStr "an evaluation (draft)")])
      (JsonObj [("page", JsonStr "Drop  Table")])
    = Respond 403 "Suspicious activity detected" None
  ∧ validateInput (JsonObj [("q", JsonStr "an evaluation (draft)")])
      (JsonObj [("page", JsonStr "2")]) = Next.
Proof. by vm_compute. Qed.

Lemma checkSuspicious_obj fields :
  checkSuspicious (JsonObj fields)
  = existsb (λ entry : string * Json, inspectValue entry.2) fields.
Proof. reflexivity. Qed.

Lemma checkSuspicious_arr items :
  checkSuspicious (JsonArr items) = existsb inspectValue items.
Proof. reflexivity. Qed.

(** A suspicious string at any depth is found. *)
Lemma checkSuspicious_StringIn text value :
  StringIn text value → suspiciousText text = true →
  checkSuspicious value = true.
Proof.
  intros Hin Htext.
  induction Hin as [fields k Hk|items Hitem|fields k v Hk Hv IH|items v Hitem Hv IH].
  - rewrite checkSuspicious_obj. apply existsb_exists.
    exists (k, JsonStr text). split; [by apply list_elem_of_In | done].
  - rewrite checkSuspicious_arr. apply existsb_exists.
    exists (JsonStr text). split; [by apply list_elem_of_In | done].
  - rewrite checkSuspicious_obj. apply existsb_exists.
    exists (k, v). split; [by apply list_elem_of_In|].
    cbn [snd]. by destruct Hv.
  - rewrite checkSuspicious_arr. apply existsb_exists.
    exists v. split; [by apply list_elem_of_In|].
    by destruct Hv.
Qed.

Lemma suspiciousText_pattern pattern chars :
  pattern ∈ suspiciousPatterns →
  searchFrom (ignoreCase pattern) (body pattern) None chars = true →
  suspiciousText (string_of_list_ascii chars) = true.
Proof.
  intros Hin Hsearch. apply existsb_exists. exists pattern.
  split; [by apply list_elem_of_In|].
  unfold test. by rewrite list_ascii_of_string_of_list_ascii.
Qed.

Lemma matchRegex_whiteSpaces atLeast gap tail before cap k :
  Forall (λ c, isWhiteSpace c = true) gap → (atLeast ≤ length gap)%nat →
  k {| prev := lastRead before gap; rest := tail; capture := cap |} = true →
  matchRegex true (whiteSpaces atLeast)
    {| prev := before; rest := gap ++ tail; capture := cap |} k = true.
Proof.
  intros Hgap Hlen Hk. unfold whiteSpaces. cbn [matchRegex rest].
  apply (repeatMatch_class true); [done | done | done | | done].
  rewrite length_app. lia.
Qed.

(** Every run the patterns are made for is matched wherever it stands. *)
Lemma suspiciousText_signature pre run post :
  AttackSignature run →
  suspiciousText (string_of_list_ascii (pre ++ run ++ post)) = true.
Proof.
  intros [run' tag Htag Hsame
         |first gap second a b Hab Hfirst Hgap Hblank Hsecond
         |name gap f Hf Hname Hblank].
  - apply (suspiciousText_pattern (opening tag)).
    + unfold suspiciousPatterns.
      repeat (apply elem_of_cons in Htag as [->|Htag];
              [repeat first [apply list_elem_of_here
                            | apply list_elem_of_further]|]).
      by apply not_elem_of_nil in Htag.
    + cbn [body ignoreCase opening]. apply searchFrom_found.
      unfold literal. by apply matchRegex_literal.
  - apply (suspiciousText_pattern (twoWords a b)).
    + unfold suspiciousPatterns.
      repeat (apply elem_of_cons in Hab as [[= -> ->]|Hab];
              [repeat first [apply list_elem_of_here
                            | apply list_elem_of_further]|]).
      by apply not_elem_of_nil in Hab.
    + cbn [body ignoreCase twoWords]. apply searchFrom_found.
      rewrite <- !app_assoc.
      set (gapPattern := whiteSpaces 1). unfold literal.
      cbn [matchRegex]. apply matchRegex_literal; [done|].
      unfold gapPattern. apply matchRegex_whiteSpaces; [done | |].
      * destruct gap; [done | cbn; lia].
      * by apply matchRegex_literal.
  - apply (suspiciousText_pattern (callOf f)).
    + unfold suspiciousPatterns.
      repeat (apply elem_of_cons in Hf as [->|Hf];
              [repeat first [apply list_elem_of_here
                            | apply list_elem_of_further]|]).
      by apply not_elem_of_nil in Hf.
    + cbn [body ignoreCase callOf]. apply searchFrom_found.
      rewrite <- !app_assoc.
      set (gapPattern := whiteSpaces 0). unfold literal.
      cbn [matchRegex]. apply matchRegex_literal; [done|].
      unfold gapPattern. apply matchRegex_whiteSpaces; [done | lia |].
      cbn [matchRegex rest app]. by rewrite sameChar_refl.
Qed.

(** A request is answered 403 whenever some string in its body or in its
    query, at any depth of nesting, holds an opening [iframe], [object] or
    [embed] tag, one of the word pairs "union select", "drop table",
    "insert into", "delete from" with white space between the words, or
    one of [eval], [setTimeout], [setInterval] followed by an opening
    bracket with or without white space before it, the letters in any
    case. *)
Theorem validateInput_flags (body query : Json) (text : string)
    (pre run post : list ascii) :
  StringIn text body ∨ StringIn text query →
  text = string_of_list_ascii (pre ++ run ++ post) →
  AttackSignature run →
  validateInput body query = Respond 403 "Suspicious activity detected" None.
Proof.
  intros Hin -> Hrun.
  pose proof (suspiciousText_signature pre run post Hrun) as Htext.
  unfold validateInput.
  destruct Hin as [Hin|Hin];
    rewrite (checkSuspicious_StringIn _ _ Hin Htext); [done|].
  by rewrite orb_true_r.
Qed.

Lemma validateInput_flags_witness :
  validateInput
    (JsonObj [("title", JsonStr "hello");
              ("tags", JsonArr [JsonStr "a"; JsonStr "x <IFrame src"])])
    (JsonObj [])
  = Respond 403 "Suspicious activity detected" None.
Proof.
  apply (validateInput_flags _ _ "x <IFrame src"
           (list_ascii_of_string "x ") (list_ascii_of_string "<IFrame")
           (list_ascii_of_string " src")).
  - left. apply (StringBelowField _ _ "tags" (JsonArr [JsonStr "a"; JsonStr "x <IFrame src"])).
    + repeat first [apply list_elem_of_here | apply list_elem_of_further].
    + apply StringInItem.
      repeat first [apply list_elem_of_here | apply list_elem_of_further].
  - reflexivity.
  - apply (SignatureTag _ "<iframe").
    + repeat first [apply list_elem_of_here | apply list_elem_of_further].
    + repeat constructor.
Defined.

(** * Properties of the search and of the comment route *)

(** ** [includes] *)



(** ** [searchPosts] *)

Lemma string_empty_length s : s = "" ↔ String.length s = 0%nat.
Proof. destruct s; [done|]. split; [done | cbn; lia]. Qed.




Example searchPosts_sample :
  searchPosts sampleStore 5 " SECOND " 20 = [sanitizePost postB]
  ∧ searchPosts sampleStore 5 "x" 20 = []
  ∧ searchPosts sampleStore 5 "post" 2 = sanitizePost <$> [postC; postB].
Proof. by vm_compute. Qed.

(** ** The comment route *)

Section RouteProperties.

Variable hashIP : string → string.


End RouteProperties.

(** ** What [getStats] counts *)

Lemma foldl_sum_shift {A : Type} (k : A → Z) (l : list A) (a : Z) :
  foldl (λ sum x, sum + k x) a l = a + foldl (λ sum x, sum + k x) 0 l.
Proof.
  revert a. induction l as [|x l IH]; intros a; cbn; [lia|].
  rewrite (IH (a + k x)), (IH (0 + k x)). lia.
Qed.

(** Replacing an element the filter drops by another it drops. *)
Lemma filter_insert_dropped {A : Type} (f : A → bool) (l : list A)
    (i : nat) (p p' : A) :
  l !! i = Some p → f p = false → f p' = false →
  List.filter f (<[i := p']> l) = List.filter f l.
Proof.
  intros Hi Hp Hp'.
  rewrite insert_take_drop by by eapply lookup_lt_Some.
  rewrite <- (take_drop_middle l i p Hi) at 3.
  rewrite !List.filter_app. cbn. by rewrite Hp, Hp'.
Qed.

(** Replacing an element the filter keeps by another it keeps. *)
Lemma filter_insert_kept {A : Type} (f : A → bool) (l : list A)
    (i : nat) (p p' : A) :
  l !! i = Some p → f p = true → f p' = true →
  ∃ before after,
    List.filter f l = (before ++ p :: after)%list
    ∧ List.filter f (<[i := p']> l) = (before ++ p' :: after)%list.
Proof.
  intros Hi Hp Hp'.
  exists (List.filter f (take i l)), (List.filter f (drop (S i) l)). split.
  - rewrite <- (take_drop_middle l i p Hi) at 1.
    rewrite List.filter_app. cbn. by rewrite Hp.
  - rewrite insert_take_drop by by eapply lookup_lt_Some.
    rewrite List.filter_app. cbn. by rewrite Hp'.
Qed.

Lemma findPost_Some postId s i post :
  findPost postId s = Some (i, post) →
  posts s !! i = Some post ∧ id post = postId.
Proof.
  unfold findPost. rewrite list_find_Some. by intros (? & ? & _).
Qed.

Lemma stats_eq (a b : Stats) :
  statsTotalPosts a = statsTotalPosts b → totalComments a = totalComments b →
  totalLikes a = totalLikes b → postsToday a = postsToday b →
  commentsToday a = commentsToday b → categories a = categories b →
  memoryUsage a = memoryUsage b → a = b.
Proof. destruct a, b. cbn. by intros -> -> -> -> -> -> ->. Qed.

Lemma string_of_list_ascii_append (l1 l2 : list ascii) :
  string_of_list_ascii (l1 ++ l2)%list
  = string_of_list_ascii l1 +:+ string_of_list_ascii l2.
Proof.
  induction l1 as [|a l1 IH]; [done|].
  change (String a (string_of_list_ascii (l1 ++ l2))
          = String a (string_of_list_ascii l1 +:+ string_of_list_ascii l2)).
  by rewrite IH.
Qed.

Lemma string_append_assoc (a b c : string) :
  (a +:+ b) +:+ c = a +:+ (b +:+ c).
Proof.
  induction a as [|x a IH]; [done|].
  change (String x ((a +:+ b) +:+ c) = String x (a +:+ (b +:+ c))).
  by rewrite IH.
Qed.

Section StatisticsProperties.

Variable inherited : string → option string.
Variable roundedPercent : Z → Z → Z.

(** What [stats] holds under a key the empty object does not inherit:
    the number of posts counted under it. *)
Lemma countCategory_own (c : string) (l : list Post) :
  inherited c = None → c ≠ "__proto__" →
  foldl (countCategory inherited) ∅ l !! c
  = let n := Z.of_nat
               (length (List.filter (λ p, bool_decide (category p = c)) l)) in
    if bool_decide (n = 0) then None else Some (TallyNumber n).
Proof.
  intros Hnone Hproto. induction l as [|x l IH] using rev_ind; [done|].
  rewrite foldl_app, List.filter_app, length_app. cbn [foldl List.filter].
  cbv zeta in *. unfold countCategory at 1.
  set (n := length (List.filter (λ p, bool_decide (category p = c)) l)) in *.
  set (acc := foldl (countCategory inherited) ∅ l) in *.
  destruct (decide (category x = c)) as [Heq | Hne].
  - rewrite (bool_decide_eq_true_2 _ Heq). cbn [length].
    rewrite Heq, (bool_decide_eq_false_2 _ Hproto), lookup_insert_eq.
    unfold readStats. rewrite IH.
    rewrite (bool_decide_eq_false_2 (Z.of_nat (n + 1) = 0)) by lia.
    case_bool_decide as Hn.
    + rewrite Hnone. cbn. f_equal. f_equal. lia.
    + replace (Z.of_nat (n + 1)) with (Z.of_nat n + 1) by lia.
      destruct (Z.of_nat n) eqn:Hz; [done | done | lia].
  - rewrite (bool_decide_eq_false_2 _ Hne). cbn [length].
    replace (n + 0)%nat with n by lia.
    destruct (bool_decide (category x = "__proto__")); [exact IH|].
    rewrite lookup_insert_ne by done. exact IH.
Qed.

(** Under a key the empty object inherits, [stats] holds the inherited
    text with one [1] appended for each post counted under it. *)
Lemma countCategory_inherited (c text : string) (l : list Post) :
  inherited c = Some text → text ≠ "" → c ≠ "__proto__" →
  foldl (countCategory inherited) ∅ l !! c
  = let n := length (List.filter (λ p, bool_decide (category p = c)) l) in
    if bool_decide (n = 0%nat) then None
    else Some (TallyText
                 (text +:+ string_of_list_ascii (replicate n "1"%char))).
Proof.
  intros Hsome Htext Hproto. induction l as [|x l IH] using rev_ind; [done|].
  rewrite foldl_app, List.filter_app, length_app. cbn [foldl List.filter].
  cbv zeta in *. unfold countCategory at 1.
  set (n := length (List.filter (λ p, bool_decide (category p = c)) l)) in *.
  set (acc := foldl (countCategory inherited) ∅ l) in *.
  destruct (decide (category x = c)) as [Heq | Hne].
  - rewrite (bool_decide_eq_true_2 _ Heq). cbn [length].
    rewrite Heq, (bool_decide_eq_false_2 _ Hproto), lookup_insert_eq.
    unfold readStats. rewrite IH.
    rewrite (bool_decide_eq_false_2 ((n + 1)%nat = 0%nat)) by lia.
    replace (n + 1)%nat with (S n) by lia.
    assert (Hgrow : ∀ t, t ≠ "" →
              plusOne (orZero (Some (TallyText t))) = TallyText (t +:+ "1")).
    { intros t Ht. destruct t; [done | reflexivity]. }
    case_bool_decide as Hn.
    + rewrite Hsome. cbn [fmap option_fmap option_map]. rewrite Hgrow by done.
      by rewrite Hn.
    + rewrite Hgrow.
      * rewrite replicate_S_end, string_of_list_ascii_append.
        f_equal. f_equal. by rewrite string_append_assoc.
      * destruct text; [done | discriminate].
  - rewrite (bool_decide_eq_false_2 _ Hne). cbn [length].
    replace (n + 0)%nat with n by lia.
    destruct (bool_decide (category x = "__proto__")); [exact IH|].
    rewrite lookup_insert_ne by done. exact IH.
Qed.

Lemma countCategory_proto (l : list Post) :
  foldl (countCategory inherited) ∅ l !! "__proto__" = None.
Proof.
  induction l as [|x l IH] using rev_ind; [done|].
  rewrite foldl_app. cbn [foldl]. unfold countCategory at 1.
  case_bool_decide as Hc; [done|]. by rewrite lookup_insert_ne.
Qed.

(** In the [categories] of [getStats], a category name the empty
    object does not inherit holds the number of unexpired posts of that
    category, and is absent when there is none; the name [__proto__] is
    never a property, whatever the posts. *)
Theorem getStats_categories (s : DataStore) (now : Z) (c : string) :
  inherited c = None → c ≠ "__proto__" →
  let n := Z.of_nat
             (length (List.filter (λ p, bool_decide (category p = c))
                        (validPosts s now))) in
  categories (getStats inherited roundedPercent s now) !! c
  = (if bool_decide (n = 0) then None else Some (TallyNumber n))
  ∧ n ≤ statsTotalPosts (getStats inherited roundedPercent s now)
  ∧ categories (getStats inherited roundedPercent s now) !! "__proto__" = None.
Proof.
  intros Hnone Hproto n. split_and!.
  - by apply countCategory_own.
  - subst n. cbn [getStats statsTotalPosts].
    pose proof (sublist_length _ _
      (filter_sublist_of (λ p, bool_decide (category p = c))
         (validPosts s now))) as Hfewer. lia.
  - apply countCategory_proto.
Qed.

(** A category named like a property the empty object inherits is
    never counted: once an unexpired post carries it, [categories] holds
    under it the inherited text followed by one [1] per such post, not a
    number. *)
Theorem getStats_inherited_category (s : DataStore) (now : Z)
    (c text : string) :
  inherited c = Some text → text ≠ "" → c ≠ "__proto__" →
  let n := length (List.filter (λ p, bool_decide (category p = c))
                     (validPosts s now)) in
  categories (getStats inherited roundedPercent s now) !! c
  = if bool_decide (n = 0%nat) then None
    else Some (TallyText
                 (text +:+ string_of_list_ascii (replicate n "1"%char))).
Proof.
  intros Hsome Htext Hproto. by apply countCategory_inherited.
Qed.

(** An accepted like raises [totalLikes] by one at every instant the
    liked post has not expired at, and changes no other figure of
    [getStats]. *)
Theorem likePost_then_getStats (hashIP : string → string) (s s' : DataStore)
    (now now' n : Z) (postId userIP : string) :
  likePost hashIP s now postId userIP = (s', LikeAccepted n) →
  ∃ post, post ∈ posts s ∧ id post = postId ∧ n = likes post + 1
    ∧ getStats inherited roundedPercent s' now'
      = setTotalLikes
          (totalLikes (getStats inherited roundedPercent s now')
           + (if bool_decide (expiresAt post > now') then 1 else 0))
          (getStats inherited roundedPercent s now').
Proof.
  unfold likePost. destruct (findPost postId s) as [[i post]|] eqn:Hfind;
    [|discriminate].
  apply findPost_Some in Hfind as [Hi Hid].
  case_bool_decide; [discriminate|]. case_bool_decide; [discriminate|].
  intros [= <- <-]. exists post. split_and!.
  - by eapply list_elem_of_lookup_2.
  - done.
  - done.
  - unfold getStats, getCategoryStats, validPosts.
    cbn [posts setPosts setLikedPosts maxPosts].
    rewrite length_insert.
    destruct (bool_decide (expiresAt post > now')) eqn:Hlive.
    + destruct (filter_insert_kept
                  (λ p, bool_decide (expiresAt p > now')) (posts s) i post
                  (incrementLikes post) Hi Hlive Hlive)
        as (before & after & -> & ->).
      apply stats_eq; cbn [statsTotalPosts totalComments totalLikes postsToday
                             commentsToday categories memoryUsage setTotalLikes].
      * by rewrite !length_app.
      * by rewrite !foldl_app.
      * rewrite !foldl_app. cbn [foldl likes incrementLikes].
        rewrite (foldl_sum_shift _ after (_ + (likes post + 1))),
                (foldl_sum_shift _ after (_ + likes post)). lia.
      * rewrite !List.filter_app. cbn [List.filter timestamp incrementLikes].
        destruct (bool_decide (timestamp post > now' - oneDay));
          by rewrite !length_app.
      * by rewrite !foldl_app.
      * by rewrite !foldl_app.
      * done.
    + rewrite (filter_insert_dropped _ _ _ post) by done.
      apply stats_eq; cbn [statsTotalPosts totalComments totalLikes postsToday
                             commentsToday categories memoryUsage setTotalLikes];
        try done. lia.
Qed.

(** A stored comment raises [totalComments] by one at every instant
    its post has not expired at, and [commentsToday] with it when the
    comment is less than a day old; no other figure of [getStats]
    changes. *)
Theorem createComment_then_getStats (s s' : DataStore) (d : Draw)
    (postId content' ipHash' : string) (view : JsObj) (now' : Z) :
  createComment s d postId content' ipHash' = (s', CommentCreated view) →
  ∃ post, post ∈ posts s ∧ id post = postId
    ∧ getStats inherited roundedPercent s' now'
      = if bool_decide (expiresAt post > now')
        then setComments
               (totalComments (getStats inherited roundedPercent s now') + 1)
               (commentsToday (getStats inherited roundedPercent s now')
                + (if bool_decide (dateNow d > now' - oneDay) then 1 else 0))
               (getStats inherited roundedPercent s now')
        else getStats inherited roundedPercent s now'.
Proof.
  unfold createComment.
  destruct (findPost postId s) as [[i post]|] eqn:Hfind; [|discriminate].
  apply findPost_Some in Hfind as [Hi Hid].
  case_bool_decide; [discriminate|].
  intros [= <- _]. exists post. split_and!.
  - by eapply list_elem_of_lookup_2.
  - done.
  - unfold getStats, getCategoryStats, validPosts.
    cbn [posts setPosts maxPosts].
    rewrite length_insert.
    destruct (bool_decide (expiresAt post > now')) eqn:Hlive.
    + match goal with
      | |- context [<[i := ?commented]> (posts s)] =>
          destruct (filter_insert_kept
                      (λ p, bool_decide (expiresAt p > now')) (posts s) i post
                      commented Hi Hlive Hlive)
            as (before & after & -> & ->)
      end.
      apply stats_eq; cbn [statsTotalPosts totalComments totalLikes postsToday
                             commentsToday categories memoryUsage setComments].
      * by rewrite !length_app.
      * rewrite !foldl_app. cbn [foldl comments pushComment].
        rewrite length_app. cbn [length].
        rewrite (foldl_sum_shift _ after (_ + Z.of_nat (_ + 1))),
                (foldl_sum_shift _ after (_ + Z.of_nat _)). lia.
      * by rewrite !foldl_app.
      * rewrite !List.filter_app. cbn [List.filter timestamp pushComment].
        destruct (bool_decide (timestamp post > now' - oneDay));
          by rewrite !length_app.
      * rewrite !foldl_app. cbn [foldl comments pushComment].
        rewrite List.filter_app, length_app. cbn [List.filter c_timestamp].
        match goal with
        | |- foldl ?k (?a + Z.of_nat (?m + ?e)) after = _ =>
            rewrite (foldl_sum_shift
                       (λ post0, Z.of_nat
                          (length
                             (List.filter
                                (λ comment,
                                   bool_decide
                                     (c_timestamp comment > now' - oneDay))
                                (comments post0))))
                       after (a + Z.of_nat (m + e)))
        end.
        match goal with
        | |- _ = foldl ?k (?a + ?b) after + _ =>
            rewrite (foldl_sum_shift
                       (λ post0, Z.of_nat
                          (length
                             (List.filter
                                (λ comment,
                                   bool_decide
                                     (c_timestamp comment > now' - oneDay))
                                (comments post0))))
                       after (a + b))
        end.
        destruct (bool_decide (dateNow d > now' - oneDay)); cbn [length]; lia.
      * by rewrite !foldl_app.
      * done.
    + by rewrite (filter_insert_dropped _ _ _ post).
Qed.

(** [cleanup] and [getStats] agree on the posts that are over: at
    the instant of a cleanup, [totalPosts] is the stored count less the
    posts [cleanup] reports as removed; and at that instant or later the
    figures of [getStats] are the same with or without the cleanup, save
    [memoryUsage], whose [posts] is less by the removed count. *)
Theorem cleanup_then_getStats (s : DataStore) (now now' : Z) :
  now ≤ now' →
  statsTotalPosts (getStats inherited roundedPercent s now)
  = Z.of_nat (length (posts s)) - (cleanup s now).2
  ∧ getStats inherited roundedPercent (cleanup s now).1 now'
    = setMemoryUsage
        {| usagePosts := Z.of_nat (length (posts s)) - (cleanup s now).2;
           usageMaxPosts := Z.of_nat (maxPosts s);
           usage :=
             roundedPercent (Z.of_nat (length (posts s)) - (cleanup s now).2)
               (Z.of_nat (maxPosts s)) |}
        (getStats inherited roundedPercent s now').
Proof.
  intros Hle.
  assert (Hremoved : Z.of_nat (length (posts s)) - (cleanup s now).2
                     = Z.of_nat (length (validPosts s now))).
  { unfold cleanup. cbn [snd]. unfold cleanupLikedPosts.
    cbn [posts setPosts setLikedPosts]. lia. }
  rewrite Hremoved. split; [done|].
  unfold getStats, getCategoryStats.
  change (validPosts (cleanup s now).1 now')
    with (validPosts (setPosts (validPosts s now) s) now').
  rewrite validPosts_validPosts by done.
  change (posts (cleanup s now).1) with (validPosts s now).
  change (maxPosts (cleanup s now).1) with (maxPosts s).
  reflexivity.
Qed.

End StatisticsProperties.

Lemma getStats_categories_witness :
  sampleInherited "tech" = None ∧ "tech" ≠ "__proto__"
  ∧ categories (getStats sampleInherited samplePercent sampleStore 0)
      !! "tech" = Some (TallyNumber 2).
Proof.
  split_and!; [done | done |].
  by destruct (getStats_categories sampleInherited samplePercent
                 sampleStore 0 "tech" eq_refl ltac:(done)) as (H & _ & _).
Defined.

Lemma getStats_inherited_category_witness :
  categories
    (getStats sampleInherited samplePercent
       (setPosts [{| id := "k"; anonId := "Anon1000"; title := "T";
                     content := "0123456789"; category := "constructor";
                     tags := []; timestamp := 0; likes := 0; comments := [];
                     ipHash := "h"; expiresAt := 1000 |}] constructor) 0)
    !! "constructor"
  = Some (TallyText "function Object() { [native code] }1").
Proof.
  by apply (getStats_inherited_category sampleInherited samplePercent
              (setPosts [{| id := "k"; anonId := "Anon1000"; title := "T";
                            content := "0123456789";
                            category := "constructor";
                            tags := []; timestamp := 0; likes := 0;
                            comments := [];
                            ipHash := "h"; expiresAt := 1000 |}] constructor)
              0 "constructor" "function Object() { [native code] }").
Defined.

Lemma likePost_then_getStats_witness :
  ∃ post, post ∈ posts sampleStore ∧ id post = "c" ∧ 2 = likes post + 1
    ∧ getStats sampleInherited samplePercent
        (likePost sampleHash sampleStore 100 "c" "10.0.0.1").1 100
      = setTotalLikes
          (totalLikes (getStats sampleInherited samplePercent sampleStore 100)
           + (if bool_decide (expiresAt post > 100) then 1 else 0))
          (getStats sampleInherited samplePercent sampleStore 100).
Proof.
  apply (likePost_then_getStats sampleInherited samplePercent sampleHash
           sampleStore _ 100 100 2 "c" "10.0.0.1").
  by vm_compute.
Defined.

Lemma createComment_then_getStats_witness :
  ∃ post, post ∈ posts sampleStore ∧ id post = "a"
    ∧ getStats sampleInherited samplePercent
        (createComment sampleStore (sampleDraw 100 "k9") "a" "hi" "h3").1 100
      = if bool_decide (expiresAt post > 100)
        then setComments
               (totalComments
                  (getStats sampleInherited samplePercent sampleStore 100) + 1)
               (commentsToday
                  (getStats sampleInherited samplePercent sampleStore 100)
                + (if bool_decide (dateNow (sampleDraw 100 "k9") > 100 - oneDay)
                   then 1 else 0))
               (getStats sampleInherited samplePercent sampleStore 100)
        else getStats sampleInherited samplePercent sampleStore 100.
Proof.
  by eapply (createComment_then_getStats sampleInherited samplePercent
               sampleStore _ (sampleDraw 100 "k9") "a" "hi" "h3" _ 100).
Defined.

Lemma cleanup_then_getStats_witness :
  statsTotalPosts (getStats sampleInherited samplePercent sampleStore 500)
  = Z.of_nat (length (posts sampleStore)) - (cleanup sampleStore 500).2
  ∧ getStats sampleInherited samplePercent (cleanup sampleStore 500).1 600
    = setMemoryUsage
        {| usagePosts :=
             Z.of_nat (length (posts sampleStore)) - (cleanup sampleStore 500).2;
           usageMaxPosts := Z.of_nat (maxPosts sampleStore);
           usage :=
             samplePercent
               (Z.of_nat (length (posts sampleStore))
                - (cleanup sampleStore 500).2)
               (Z.of_nat (maxPosts sampleStore)) |}
        (getStats sampleInherited samplePercent sampleStore 600).
Proof.
  apply (cleanup_then_getStats sampleInherited samplePercent sampleStore
           500 600). lia.
Defined.

(** ** The retries of the client *)

(** The loop from [attempt] on, with the iterations that are left up to
    [maxRetries]: it ends at some attempt [final], every attempt before
    which was rejected with an error worth a retry and was followed by
    its delay. *)
Lemma retryLoop_spec (request : Z → RequestOutcome) (maxRetries : Z)
    (rounds : nat) :
  ∀ (attempt : Z) (lastError : option string) (delays : list Z),
    (0 < rounds)%nat → attempt + Z.of_nat rounds = maxRetries + 1 →
    ∃ final : Z,
      attempt ≤ final ≤ maxRetries
      ∧ (∀ j, attempt ≤ j < final →
           ∃ message, request j = Rejected message
                      ∧ clientError message = false)
      ∧ (retryLoop request maxRetries rounds attempt lastError delays).2
        = (delays ++ (retryDelay <$> seqZ attempt (final - attempt)))%list
      ∧ match request final with
        | Resolved data =>
            (retryLoop request maxRetries rounds attempt lastError delays).1
            = RetryReturned data
        | Rejected message =>
            (retryLoop request maxRetries rounds attempt lastError delays).1
            = RetryThrown (Some message)
            ∧ (clientError message = true ∨ final = maxRetries)
        end.
Proof.
  induction rounds as [|rounds IH]; intros attempt lastError delays Hpos Hsum;
    [lia|].
  cbn [retryLoop].
  destruct (request attempt) as [data | message] eqn:Hreq.
  { exists attempt. rewrite Hreq, Z.sub_diag. cbn.
    split_and!; [lia | lia | intros; lia | by rewrite app_nil_r | done]. }
  destruct (clientError message) eqn:Hclient.
  { exists attempt. rewrite Hreq, Z.sub_diag. cbn.
    split_and!;
      [lia | lia | intros; lia | by rewrite app_nil_r | done | by left]. }
  destruct rounds as [|rounds'].
  - exists attempt. rewrite Hreq, Z.sub_diag.
    rewrite bool_decide_eq_false_2 by lia. cbn.
    split_and!;
      [lia | lia | intros; lia | by rewrite app_nil_r | done | right; lia].
  - rewrite bool_decide_eq_true_2 by lia.
    destruct (IH (attempt + 1) (Some message)
                (delays ++ [retryDelay attempt])%list)
      as (final & Hrange & Hbefore & Hdelays & Hfinal); [lia | lia |].
    exists final. split_and!; [lia | lia | | |].
    + intros j Hj. destruct (decide (j = attempt)) as [-> | Hne].
      * by exists message.
      * apply Hbefore. lia.
    + rewrite Hdelays, <- app_assoc. f_equal.
      rewrite (seqZ_cons attempt) by lia. cbn [app fmap list_fmap]. f_equal.
      f_equal. f_equal. lia.
    + exact Hfinal.
Qed.

(** [requestWithRetry] with a [maxRetries] below one makes no request and
    throws [undefined]. Otherwise it stops at an attempt no later than
    [maxRetries]: every request before that was rejected with a message
    naming none of 400, 401, 403 and 404, and was followed by a delay of
    1000 ms doubled per attempt and capped at 5000 ms; the last request
    either resolved, and its data are returned, or was rejected, and its
    error is thrown, being a client error or that of the last attempt
    allowed. *)
Theorem requestWithRetry_outcome (request : Z → RequestOutcome)
    (maxRetries : Z) :
  (maxRetries < 1 →
   requestWithRetry request maxRetries = (RetryThrown None, []))
  ∧ (1 ≤ maxRetries →
     ∃ final : Z,
       1 ≤ final ≤ maxRetries
       ∧ (∀ j, 1 ≤ j < final →
            ∃ message, request j = Rejected message
                       ∧ clientError message = false)
       ∧ (requestWithRetry request maxRetries).2
         = retryDelay <$> seqZ 1 (final - 1)
       ∧ Forall (λ delay, 1000 ≤ delay ≤ 5000)
           (requestWithRetry request maxRetries).2
       ∧ match request final with
         | Resolved data =>
             (requestWithRetry request maxRetries).1 = RetryReturned data
         | Rejected message =>
             (requestWithRetry request maxRetries).1
             = RetryThrown (Some message)
             ∧ (clientError message = true ∨ final = maxRetries)
         end).
Proof.
  unfold requestWithRetry. split.
  - intros Hlow. by replace (Z.to_nat maxRetries) with 0%nat by lia.
  - intros Hhigh.
    destruct (retryLoop_spec request maxRetries (Z.to_nat maxRetries) 1 None [])
      as (final & Hrange & Hbefore & Hdelays & Hfinal); [lia | lia |].
    exists final. split_and!; [lia | lia | done | done | | done].
    rewrite Hdelays. cbn [app]. apply Forall_fmap, Forall_forall.
    intros attempt Hin. apply elem_of_seqZ in Hin. unfold retryDelay. cbn.
    assert (1 ≤ 2 ^ (attempt - 1)) by (apply Z.pow_le_mono_r with (b := 0); lia).
    lia.
Qed.

Example requestWithRetry_sample :
  requestWithRetry flakyRequest 3
  = (RetryReturned (JsonObj [("status", JsonStr "ok")]), [1000; 2000])
  ∧ requestWithRetry flakyRequest 2
    = (RetryThrown (Some "HTTP 503: Service Unavailable"), [1000])
  ∧ requestWithRetry (λ _, Rejected "HTTP 404: Not Found") 3
    = (RetryThrown (Some "HTTP 404: Not Found"), []).
Proof. by vm_compute. Qed.

(** On [localhost] and [127.0.0.1] the client addresses the same host on
    port 3000 or 3001, and never on the port the page itself came from. *)
Theorem getBaseURL_local (location : Location) :
  hostname location = "localhost" ∨ hostname location = "127.0.0.1" →
  ∃ backendPort,
    getBaseURL location
    = protocol location +:+ "//" +:+ hostname location +:+ ":" +:+ backendPort
    ∧ backendPort ≠ port location
    ∧ (backendPort = "3000" ∨ backendPort = "3001").
Proof.
  intros Hhost. unfold getBaseURL.
  exists (if bool_decide (port location = "3000") then "3001" else "3000").
  split_and!.
  - by destruct Hhost as [-> | ->].
  - case_bool_decide as Hport; [by rewrite Hport | congruence].
  - case_bool_decide; [by right | by left].
Qed.

Lemma getBaseURL_local_witness :
  ∃ backendPort,
    getBaseURL localPage
    = protocol localPage +:+ "//" +:+ hostname localPage +:+ ":" +:+ backendPort
    ∧ backendPort ≠ port localPage
    ∧ (backendPort = "3000" ∨ backendPort = "3001").
Proof.
  apply (getBaseURL_local localPage). by left.
Defined.
